(** * MCTSplayer (agent.h): a shallow embedding of the search core

    The development follows [src/agent.h]: the [Node] objects of one decision
    live in a heap indexed by allocation order (a [Node*] is an index, the
    null pointer is [None]); the agent's mutable members ([space], [engine])
    are threaded explicitly; loops whose termination depends on the data
    (the descent, the rollout, the walk to the root) carry fuel.

    [board.h] and [action.h] are not part of the sources, and [std::shuffle]
    with its engine is a library routine: they enter as interfaces
    ([GameAPI], [RandomAPI]).

    A C++ [double] is idealised as an extended real ([dbl]): finite values
    are exact reals (no rounding), the special values [+inf], [-inf] and
    [NaN] are kept, since the comparison in [select_child] depends on them.
    Where two scores are compared for equality the rounding matters: such
    statements are made for the loop of [select_child] run on arbitrary
    scores ([best_by]), of which the exact scores are one case. *)

From Stdlib Require Import ZArith Reals Lra Lia String Ascii.
From stdpp Require Import base option list strings gmap.

(** ** Results of code that may leave defined behaviour *)

Inductive fault :=
  | Indeterminate   (* an uninitialised variable is read *)
  | BadPointer      (* a null or dangling pointer is dereferenced *)
  | OutOfFuel.      (* the loop did not finish within the fuel given *)

Inductive res (A : Type) :=
  | Ret (a : A)
  | Fault (e : fault).
Arguments Ret {A} a.
Arguments Fault {A} e.

#[global] Instance res_ret : MRet res := fun A a => Ret a.
#[global] Instance res_bind : MBind res := fun A B k m =>
  match m with
  | Ret a => k a
  | Fault e => Fault e
  end.

(** ** Doubles *)

Module Dbl.

Inductive dbl :=
  | Fin (x : R)
  | PInf
  | NInf
  | NaN.

(** [DBL_MAX] of <float.h>: (2 - 2^-52) * 2^1023. *)
Definition DBL_MAX : R := ((2 - / 2 ^ 52) * 2 ^ 1023)%R.

Definition of_int (z : Z) : dbl := Fin (IZR z).

(** The sign of a real: negative, zero or positive. *)
Definition sign (x : R) : comparison :=
  match total_order_T x 0 with
  | inleft (left _) => Lt
  | inleft (right _) => Eq
  | inright _ => Gt
  end.

(** [log]: NaN below zero, -inf at zero. *)
Definition log (a : dbl) : dbl :=
  match a with
  | Fin x =>
      match sign x with
      | Lt => NaN
      | Eq => NInf
      | Gt => Fin (ln x)
      end
  | PInf => PInf
  | NInf => NaN
  | NaN => NaN
  end.

(** [sqrt]: NaN below zero. *)
Definition sqrt (a : dbl) : dbl :=
  match a with
  | Fin x =>
      match sign x with
      | Lt => NaN
      | _ => Fin (R_sqrt.sqrt x)
      end
  | PInf => PInf
  | NInf => NaN
  | NaN => NaN
  end.

Definition inf_of (s : comparison) : dbl :=
  match s with
  | Lt => NInf
  | Eq => NaN
  | Gt => PInf
  end.

Definition flip (s : comparison) : comparison := CompOpp s.

(** Division; a zero divisor is taken as +0. *)
Definition div (a b : dbl) : dbl :=
  match a, b with
  | NaN, _ | _, NaN => NaN
  | Fin x, Fin y =>
      match sign y with
      | Eq => inf_of (sign x)
      | _ => Fin (x / y)
      end
  | Fin _, _ => Fin 0
  | PInf, Fin y => match sign y with Lt => NInf | _ => PInf end
  | NInf, Fin y => match sign y with Lt => PInf | _ => NInf end
  | _, _ => NaN
  end.

Definition mul (a b : dbl) : dbl :=
  match a, b with
  | NaN, _ | _, NaN => NaN
  | Fin x, Fin y => Fin (x * y)
  | Fin x, PInf | PInf, Fin x => inf_of (sign x)
  | Fin x, NInf | NInf, Fin x => inf_of (flip (sign x))
  | PInf, PInf | NInf, NInf => PInf
  | PInf, NInf | NInf, PInf => NInf
  end.

Definition add (a b : dbl) : dbl :=
  match a, b with
  | NaN, _ | _, NaN => NaN
  | Fin x, Fin y => Fin (x + y)
  | PInf, NInf | NInf, PInf => NaN
  | PInf, _ | _, PInf => PInf
  | NInf, _ | _, NInf => NInf
  end.

(** [a > b]; false as soon as one side is NaN. *)
Definition gtb (a b : dbl) : bool :=
  match a, b with
  | NaN, _ | _, NaN => false
  | Fin x, Fin y => if Rlt_dec y x then true else false
  | PInf, PInf => false
  | PInf, _ => true
  | _, PInf => false
  | NInf, _ => false
  | Fin _, NInf => true
  end.

End Dbl.
Import Dbl.

(** ** The board, the moves and the random engine (external) *)

(** The part of [board::piece_type] that agent.h mentions. *)
Inductive piece_type := black | white | empty.

#[global] Instance piece_type_eq_dec : EqDecision piece_type.
Proof. solve_decision. Defined.

Class GameAPI := {
  board : Type;
  point : Type;                              (* board::point *)
  move : Type;                               (* action::place *)
  action : Type;                             (* action *)
  board_cells : nat;                         (* board::size_x * board::size_y *)
  place_of : nat -> piece_type -> move;      (* action::place(i, who) *)
  no_place : move;                           (* action::place() *)
  position : move -> point;                  (* move.position() *)
  no_action : action;                        (* action() *)
  as_action : move -> action;                (* a place returned as an action *)
  (* b.place(p): whether the result is board::legal, and the board afterwards *)
  board_place : board -> point -> bool * board;
  (* move.apply(b): the board afterwards *)
  move_apply : move -> board -> board;
  get_who_take_turn : board -> piece_type;
}.

Class RandomAPI `{GameAPI} := {
  engine : Type;                             (* std::default_random_engine *)
  engine_default : engine;                   (* default-constructed *)
  engine_seed : Z -> engine;                 (* after engine.seed(s) *)
  (* std::shuffle(space.begin(), space.end(), engine) *)
  shuffle : list move -> engine -> list move * engine;
}.

(** What the search needs from its collaborators: a legal placement uses up
    room on the board (the game is finite) and a shuffle only reorders. *)
Class GameLaws `{RandomAPI} := {
  room : board -> nat;
  place_room : forall b p,
    (board_place b p).1 = true -> room (board_place b p).2 < room b;
  shuffle_perm : forall l g, (shuffle l g).1 ≡ₚ l;
}.

(** ** Nodes *)

Section Core.
Context `{RandomAPI}.

Record Node := mkNode {
  parent : option nat;
  children : list nat;
  placer : piece_type;
  node_move : move;
  n : Z;
  w : Z;
}.

(** The state of a default-initialised [Node]. *)
Definition new_Node : Node :=
  {| parent := None; children := []; placer := black;
     node_move := no_place; n := 0; w := 0 |}.

Definition is_unvisited (nd : Node) : bool := (n nd =? 0)%Z.

(** The nodes of one decision, in allocation order. *)
Abbreviation heap := (list Node) (only parsing).

(** [new Node()]: the fresh node takes the next index. *)
Definition alloc (h : heap) : nat * heap := (length h, h ++ [new_Node]).

Definition deref (h : heap) (p : nat) : res Node :=
  match h !! p with
  | Some nd => Ret nd
  | None => Fault BadPointer
  end.

(** ** select_child *)

(** The [else] branch of the score in [select_child]: [w / n] divides two
    [int]s (the quotient truncates), [log(root->n)] and the rest are
    [double]s. *)
Definition uct_visited (c : R) (root_n : Z) (child : Node) : dbl :=
  add (of_int (w child ÷ n child))
      (mul (Fin c) (sqrt (div (log (of_int root_n)) (of_int (n child))))).

(** The score [select_child] gives a child. *)
Definition uct_score (c : R) (root_n : Z) (child : Node) : dbl :=
  if is_unvisited child then Fin DBL_MAX else uct_visited c root_n child.

(** The [for] loop over [node->children]; [best_child] is [None] while the
    variable is still uninitialised. *)
Fixpoint best_of (h : heap) (root : nat) (c : R) (chs : list nat)
    (max_score : dbl) (best_child : option nat) : res (option nat) :=
  match chs with
  | [] => Ret best_child
  | ch :: rest =>
      child ← deref h ch;
      uct ← (if is_unvisited child then Ret (Fin DBL_MAX)
             else rt ← deref h root; Ret (uct_visited c (n rt) child));
      if gtb uct max_score
      then best_of h root c rest uct (Some ch)
      else best_of h root c rest max_score best_child
  end.

(** [sqrt(2.0)], the default argument of [select_child]. *)
Definition default_c : R := R_sqrt.sqrt 2.

Definition select_child (h : heap) (state : board) (node root : nat) (c : R)
    : res (option nat * board) :=
  nd ← deref h node;
  if bool_decide (children nd = []) then Ret (None, state)
  else
    best ← best_of h root c (children nd) (Fin (-1)) None;
    match best with
    | None => Fault Indeterminate
    | Some best_child =>
        bc ← deref h best_child;
        Ret (Some best_child, (board_place state (position (node_move bc))).2)
    end.

(** ** select *)

(** The constant [select] passes to [select_child]. *)
Definition select_c : R := 0.5.

(** The [while] loop of [select], from [node] on. *)
Fixpoint select_loop (fuel : nat) (h : heap) (state : board) (node root : nat)
    : res (nat * board) :=
  nd ← deref h node;
  if bool_decide (children nd = []) then Ret (node, state)
  else
    match fuel with
    | O => Fault OutOfFuel
    | S fuel' =>
        '(next, state') ← select_child h state node root select_c;
        match next with
        | None => Fault BadPointer
        | Some node' => select_loop fuel' h state' node' root
        end
    end.

(** A descent visits every node at most once unless the child links form a
    cycle, so the number of allocated nodes bounds the loop. *)
Definition select (h : heap) (state : board) (root : nat) : res (nat * board) :=
  select_loop (length h) h state root root.

(** ** reverse_player *)

(** [opp_side] stays uninitialised for any side other than black and white. *)
Definition reverse_player (one_side : piece_type) : res piece_type :=
  match one_side with
  | black => Ret white
  | white => Ret black
  | _ => Fault Indeterminate
  end.

(** ** expand *)

(** The three assignments to the fields of [newNode]. *)
Definition set_child (mv : move) (pl : piece_type) (par : nat) (nd : Node) : Node :=
  {| parent := Some par; children := children nd; placer := pl;
     node_move := mv; n := n nd; w := w nd |}.

(** [children.emplace_back(ch)]. *)
Definition add_child (ch : nat) (nd : Node) : Node :=
  {| parent := parent nd; children := children nd ++ [ch]; placer := placer nd;
     node_move := node_move nd; n := n nd; w := w nd |}.

(** The [for] loop of [expand]: a node is allocated for every candidate, and
    linked under [node] when the candidate is legal on [state]. [node] has
    to point to a node that exists before the allocation. *)
Fixpoint expand_loop (moves : list move) (h : heap) (state : board) (node : nat)
    : res heap :=
  match moves with
  | [] => Ret h
  | mv :: rest =>
      nd ← deref h node;
      let '(newNode, h1) := alloc h in
      current_placer ← reverse_player (placer nd);
      if (board_place state (position mv)).1 then
        let h2 := alter (set_child mv current_placer node) newNode h1 in
        expand_loop rest (alter (add_child newNode) node h2) state node
      else expand_loop rest h1 state node
  end.

(** The members of the agent that a decision reads and writes. *)
Record MCTSplayer := mkMCTSplayer {
  space : list move;
  who : piece_type;
  simulation_times : Z;
  rng : engine;
}.

Definition with_random (a : MCTSplayer) (sp : list move) (g : engine) : MCTSplayer :=
  {| space := sp; who := who a; simulation_times := simulation_times a; rng := g |}.

Definition expand (a : MCTSplayer) (h : heap) (state : board) (node : nat)
    : res (bool * MCTSplayer * heap) :=
  let '(sp, g) := shuffle (space a) (rng a) in
  h' ← expand_loop sp h state node;
  nd ← deref h' node;
  Ret (bool_decide (children nd = []), with_random a sp g, h').

(** ** simulate *)

(** One pass of the inner [for] loop over the shuffled [space]. *)
Fixpoint simulate_pass (moves : list move) (simulate_board : board)
    (has_legal_move : bool) : board * bool :=
  match moves with
  | [] => (simulate_board, has_legal_move)
  | mv :: rest =>
      if (board_place simulate_board (position mv)).1
      then simulate_pass rest (board_place simulate_board (position mv)).2 true
      else simulate_pass rest simulate_board has_legal_move
  end.

(** The [while] loop: a pass, and another one as long as a pass placed a
    stone. *)
Fixpoint simulate_loop (fuel : nat) (sp : list move) (g : engine)
    (simulate_board : board) : res (list move * engine * board) :=
  match fuel with
  | O => Fault OutOfFuel
  | S fuel' =>
      let '(sp', g') := shuffle sp g in
      let '(b', has_legal_move) := simulate_pass sp' simulate_board false in
      if has_legal_move then simulate_loop fuel' sp' g' b'
      else Ret (sp', g', b')
  end.

(** The [Node*] argument of [simulate] is not used by its body. *)
Definition simulate (fuel : nat) (a : MCTSplayer) (state : board)
    : res (Z * MCTSplayer) :=
  '(sp, g, final) ← simulate_loop fuel (space a) (rng a) state;
  Ret (if decide (get_who_take_turn final = who a) then 0%Z else 1%Z,
       with_random a sp g).

(** ** backpropagation *)

(** [node->n++; node->w += result]. *)
Definition visit (result : Z) (nd : Node) : Node :=
  {| parent := parent nd; children := children nd; placer := placer nd;
     node_move := node_move nd; n := n nd + 1; w := w nd + result |}.

Fixpoint backprop_loop (fuel : nat) (h : heap) (node : option nat) (result : Z)
    : res heap :=
  match node with
  | None => Ret h
  | Some p =>
      match fuel with
      | O => Fault OutOfFuel
      | S fuel' =>
          nd ← deref h p;
          backprop_loop fuel' (alter (visit result) p h) (parent nd) result
      end
  end.

(** The walk to the root passes every node at most once unless the parent
    links form a cycle, so the number of allocated nodes bounds the loop. *)
Definition backpropagation (h : heap) (node : option nat) (result : Z)
    : res (bool * heap) :=
  match node with
  | None => Ret (false, h)
  | Some _ =>
      h' ← backprop_loop (length h) h node result;
      Ret (true, h')
  end.

(** ** take_action *)

(** The constant [take_action] passes to [select_child] for the final choice. *)
Definition final_c : R := 0.000000000001.

(** The root is the first node a decision allocates. *)
Definition root_ptr : nat := 0.

(** [new Node()] followed by the assignment of [placer]. *)
Definition new_root (a : MCTSplayer) : res heap :=
  pl ← reverse_player (who a);
  Ret [ {| parent := None; children := []; placer := pl;
           node_move := no_place; n := 0; w := 0 |} ].

(** The body of the [for] loop of [take_action]. *)
Definition iteration (fuel : nat) (state : board) (s : MCTSplayer * heap)
    : res (MCTSplayer * heap) :=
  let '(a, h) := s in
  '(current_node, current_board) ← select h state root_ptr;
  cn ← deref h current_node;
  '(a1, h1, current_board1) ←
    (if (n cn =? 0)%Z then
       '(_, a1, h1) ← expand a h current_board current_node;
       cn1 ← deref h1 current_node;
       Ret (a1, h1, move_apply (node_move cn1) current_board)
     else Ret (a, h, current_board));
  '(result, a2) ← simulate fuel a1 current_board1;
  '(_, h2) ← backpropagation h1 (Some current_node) result;
  Ret (a2, h2).

Fixpoint iterations (fuel : nat) (k : nat) (state : board) (s : MCTSplayer * heap)
    : res (MCTSplayer * heap) :=
  match k with
  | O => Ret s
  | S k' =>
      s' ← iterations fuel k' state s;
      iteration fuel state s'
  end.

(** The search loop: [simulation_times] iterations from a fresh root (none
    when the budget is negative). *)
Definition search (fuel : nat) (a : MCTSplayer) (state : board)
    : res (MCTSplayer * heap) :=
  h0 ← new_root a;
  iterations fuel (Z.to_nat (simulation_times a)) state (a, h0).

Definition take_action (fuel : nat) (a : MCTSplayer) (state : board)
    : res (action * MCTSplayer) :=
  '(a', h) ← search fuel a state;
  '(best_node, _) ← select_child h state root_ptr root_ptr final_c;
  match best_node with
  | Some b => bn ← deref h b; Ret (as_action (node_move bn), a')
  | None => Ret (no_action, a')
  end.

(** ** Construction *)

(** The options of the argument string, parsed: [name] and [role] as given
    (after the defaults), [seed] and [T] converted to numbers when present. *)
Record options := mkOptions {
  opt_name : string;
  opt_role : string;
  opt_seed : option Z;
  opt_T : option Z;
}.

Fixpoint occurs (c : Ascii.ascii) (s : string) : bool :=
  match s with
  | EmptyString => false
  | String c' s' => Ascii.eqb c c' || occurs c s'
  end.

(** [s.find_first_of(chars) != npos]. *)
Fixpoint find_first_of (s chars : string) : bool :=
  match s with
  | EmptyString => false
  | String c s' => occurs c chars || find_first_of s' chars
  end.

(** [random_agent]: the engine is seeded when a seed is configured. *)
Definition random_agent (o : options) : engine :=
  match opt_seed o with
  | Some s => engine_seed s
  | None => engine_default
  end.

(** The constructor of [MCTSplayer]; [None] when it throws. *)
Definition MCTSplayer_new (o : options) : option MCTSplayer :=
  if find_first_of (opt_name o) "[]():; " then None
  else
    let who0 := if String.eqb (opt_role o) "black" then black else empty in
    let who1 := if String.eqb (opt_role o) "white" then white else who0 in
    match who1 with
    | empty => None
    | _ =>
        Some {| space := (fun i => place_of i who1) <$> seq 0 board_cells;
                who := who1;
                simulation_times := default 1000%Z (opt_T o);
                rng := random_agent o |}
    end.

End Core.

Abbreviation heap := (list Node) (only parsing).

(** ** Auxiliary notions for the statements *)

(** 32-bit [int]. *)
Definition int32 (z : Z) : Prop := (- 2 ^ 31 <= z < 2 ^ 31)%Z.

(** A score that never reaches [DBL_MAX]. *)
Definition below_max (s : dbl) : Prop :=
  match s with
  | Fin x => (x < DBL_MAX)%R
  | PInf => False
  | _ => True
  end.

Section Statements.
Context `{RandomAPI}.

(** The child [b] at position [i] of [chs] has the greatest score, strictly
    above every child before it (a NaN score never counts). *)
Definition best_at (h : heap) (c : R) (N : Z) (chs : list nat) (i b : nat) : Prop :=
  chs !! i = Some b /\
  exists bn, h !! b = Some bn /\
    (forall k ck cn, k < i -> chs !! k = Some ck -> h !! ck = Some cn ->
       gtb (uct_score c N bn) (uct_score c N cn) = true \/ uct_score c N cn = NaN) /\
    (forall k ck cn, i < k -> chs !! k = Some ck -> h !! ck = Some cn ->
       gtb (uct_score c N cn) (uct_score c N bn) = false).

(** The score of a visited child as the specification words it, with the
    real-valued rate [w / n]. *)
Definition uct_spec (c : R) (root_n : Z) (child : Node) : dbl :=
  Fin (IZR (w child) / IZR (n child)
       + c * R_sqrt.sqrt (ln (IZR root_n) / IZR (n child))).

(** One rollout step as the specification words it: the first legal
    candidate of the enumeration is applied, and only that one. *)
Fixpoint spec_pass (moves : list move) (simulate_board : board) : board * bool :=
  match moves with
  | [] => (simulate_board, false)
  | mv :: rest =>
      if (board_place simulate_board (position mv)).1
      then ((board_place simulate_board (position mv)).2, true)
      else spec_pass rest simulate_board
  end.

(** [nd] with its [children] replaced. *)
Definition with_children (nd : Node) (cs : list nat) : Node :=
  {| parent := parent nd; children := cs; placer := placer nd;
     node_move := node_move nd; n := n nd; w := w nd |}.

(** A child as [expand] leaves it. *)
Definition fresh_child (par : nat) (pl : piece_type) (mv : move) : Node :=
  {| parent := Some par; children := []; placer := pl;
     node_move := mv; n := 0; w := 0 |}.

(** The candidates of [moves] that are legal on [state], in order. *)
Definition legal_moves (state : board) (moves : list move) : list move :=
  filter (fun mv => (board_place state (position mv)).1 = true) moves.

(** The heap after a legal candidate: the fresh node is filled in and
    appended to the children of [node]. *)
Definition linked (h : heap) (node : nat) (mv : move) (pl : piece_type) : list Node :=
  alter (add_child (length h)) node
    (alter (set_child mv pl node) (length h) (h ++ [new_Node])).

(** [h'] is [h] after the node [nd] at [node] has received the children
    [cs], one for each move of [legal], the other nodes of [h] being left
    alone and every further new node being unused. *)
Record expanded (h h' : heap) (node : nat) (nd : Node) (pl : piece_type)
    (cs : list nat) (legal : list move) : Prop := {
  exp_node : h' !! node = Some (with_children nd (children nd ++ cs));
  exp_children :
    Forall2 (fun ch mv => h' !! ch = Some (fresh_child node pl mv)) cs legal;
  exp_new : Forall (fun ch => length h <= ch) cs;
  exp_nodup : NoDup cs;
  exp_old : forall i, i < length h -> i <> node -> h' !! i = h !! i;
  exp_unused : forall i nd',
    length h <= i -> h' !! i = Some nd' -> i ∉ cs -> nd' = new_Node;
}.

(** The counters of a node: [0 <= w <= n]. *)
Definition counters_ok (nd : Node) : Prop := (0 <= w nd <= n nd)%Z.

(** The links of the nodes of a decision form a tree under [root_ptr]:
    every child was allocated after its parent and points back to it. *)
Record tree_inv (h : heap) : Prop := {
  inv_root : exists rt, h !! root_ptr = Some rt /\ parent rt = None;
  inv_children : forall i nd ch,
    h !! i = Some nd -> ch ∈ children nd ->
    i < ch /\ exists cn, h !! ch = Some cn /\ parent cn = Some i;
  inv_parent : forall i nd p,
    h !! i = Some nd -> parent nd = Some p -> p < i;
  inv_counters : forall i nd, h !! i = Some nd -> counters_ok nd;
  inv_placer : forall i nd,
    h !! i = Some nd -> placer nd = black \/ placer nd = white;
}.

(** [chain h i l]: [l] lists the nodes that the walk along the parent links
    passes, from [i] up to a node without parent. *)
Inductive chain (h : heap) : nat -> list nat -> Prop :=
  | chain_top i nd :
      h !! i = Some nd -> parent nd = None -> chain h i [i]
  | chain_up i nd p l :
      h !! i = Some nd -> parent nd = Some p -> chain h p l ->
      chain h i (i :: l).

(** The heap after [visit] at every node of [l], in order. *)
Definition visit_all (result : Z) (l : list nat) (h : heap) : heap :=
  foldl (fun h' i => alter (visit result) i h') h l.

(** No node has a child. *)
Definition childless (h : heap) : Prop :=
  forall i nd, h !! i = Some nd -> children nd = [].

(** What the expansion step of a pass does to the agent and the heap: the
    leaf is expanded on the board reached by the descent when it was never
    visited, and nothing happens otherwise. *)
Definition expansion (a : MCTSplayer) (h : heap) (state : board) (leaf : nat)
    (ln : Node) (a1 : MCTSplayer) (h1 : heap) : Prop :=
  (n ln = 0%Z /\
   a1 = with_random a (shuffle (space a) (rng a)).1 (shuffle (space a) (rng a)).2 /\
   exists pl cs, reverse_player (placer ln) = Ret pl /\
     expanded h h1 leaf ln pl cs
       (legal_moves state (shuffle (space a) (rng a)).1))
  \/ (n ln <> 0%Z /\ a1 = a /\ h1 = h).

(** One pass of the loop of [take_action], from the agent [a] and the heap
    [h] to [a2] and [h2]: the descent ends in a childless [leaf] whose walk
    to the root is [l]; after the expansion step the rollout yields
    [result], which is added along [l]. *)
Inductive pass (state : board) (a : MCTSplayer) (h : heap)
    : MCTSplayer -> heap -> Prop :=
  | pass_intro leaf state' l ln a1 h1 result a2 :
      select h state root_ptr = Ret (leaf, state') ->
      h !! leaf = Some ln -> children ln = [] ->
      chain h leaf l -> last l = Some root_ptr ->
      expansion a h state' leaf ln a1 h1 ->
      (result = 0 \/ result = 1)%Z ->
      space a2 ≡ₚ space a -> who a2 = who a ->
      simulation_times a2 = simulation_times a ->
      pass state a h a2 (visit_all result l h1).

(** [k] passes in a row. *)
Inductive passes (state : board) (a : MCTSplayer) (h : heap)
    : nat -> MCTSplayer -> heap -> Prop :=
  | passes_O : passes state a h 0 a h
  | passes_S k a1 h1 a2 h2 :
      passes state a h k a1 h1 -> pass state a1 h1 a2 h2 ->
      passes state a h (S k) a2 h2.

(** No candidate of the agent is legal on [state]. *)
Definition no_legal_move (a : MCTSplayer) (state : board) : Prop :=
  Forall (fun mv => (board_place state (position mv)).1 = false) (space a).

(** The state of the search after [k] passes of the loop of [take_action]. *)
Record loop_inv (k : nat) (h : heap) : Prop := {
  loop_tree : tree_inv h;
  loop_count : exists rt, h !! root_ptr = Some rt /\ n rt = Z.of_nat k;
  loop_fresh : k = 0 -> childless h;
  (* no node was visited more often than the root: the [int] counters do
     not overflow as long as the number of passes is an [int] *)
  loop_bound : forall i nd, h !! i = Some nd -> (n nd <= Z.of_nat k)%Z;
}.

End Statements.

(** ** A small game to run the definitions on

    Cells in a row; a stone may be placed on any free cell, by the side to
    move; the stones carry no colour. *)

Module Rows.

Record position_state := mkState {
  cells : list bool;            (* occupied? *)
  turn : piece_type;            (* who_take_turn *)
}.

Definition other (p : piece_type) : piece_type :=
  match p with
  | black => white
  | white => black
  | empty => empty
  end.

Definition place (b : position_state) (p : nat) : bool * position_state :=
  match cells b !! p with
  | Some false => (true, {| cells := <[p := true]> (cells b); turn := other (turn b) |})
  | _ => (false, b)
  end.

Definition apply (mv : nat * piece_type) (b : position_state) : position_state :=
  if decide (mv.2 = turn b) then (place b mv.1).2 else b.

Definition free (b : position_state) : nat :=
  length (filter (fun c => c = false) (cells b)).

#[global] Instance game : GameAPI := {|
  board := position_state;
  point := nat;
  move := nat * piece_type;
  action := option (nat * piece_type);
  board_cells := 2;
  place_of := fun i who => (i, who);
  no_place := (0, empty);
  position := fst;
  no_action := None;
  as_action := Some;
  board_place := place;
  move_apply := apply;
  get_who_take_turn := turn;
|}.

(** The engine counts the shuffles; the k-th shuffle rotates by k. *)
#[global] Instance random : RandomAPI := {|
  engine := nat;
  engine_default := 0;
  engine_seed := Z.to_nat;
  shuffle := fun l g => (rotate g l, S g);
|}.

Definition start : position_state := {| cells := [false; false]; turn := black |}.
Definition full : position_state := {| cells := [true; true]; turn := black |}.

(** A child visited twice, with one rollout won. *)
Definition half_won : Node :=
  {| parent := Some 0; children := []; placer := black;
     node_move := (0, black); n := 2; w := 1 |}.

Definition node (par : option nat) (cs : list nat) (pl : piece_type)
    (mv : nat * piece_type) (visits wins : Z) : Node :=
  {| parent := par; children := cs; placer := pl; node_move := mv;
     n := visits; w := wins |}.

(** A root visited eleven times over two children: the first visited nine
    times and always won, the second visited once and lost. *)
Definition root11 : Node := node None [1; 2] white (0, empty) 11 9.
Definition won9 : Node := node (Some 0) [] black (0, black) 9 9.
Definition lost1 : Node := node (Some 0) [] black (1, black) 1 0.
Definition lopsided : list Node := [root11; won9; lost1].

(** A root visited three times over a child visited twice and always won,
    and a child never visited. *)
Definition root3 : Node := node None [1; 2] white (0, empty) 3 2.
Definition won2 : Node := node (Some 0) [] black (0, black) 2 2.
Definition unseen : Node := node (Some 0) [] black (1, black) 0 0.
Definition one_unvisited : list Node := [root3; won2; unseen].

(** The root of a decision of the black player before the first pass. *)
Definition root0 : Node := node None [] white (0, empty) 0 0.

Definition player (T : Z) : MCTSplayer :=
  {| space := [(0, black); (1, black)]; who := black;
     simulation_times := T; rng := 0 |}.

End Rows.

(** ** Further notions: walks, boards along a walk, the shape of the tree *)

Section MoreStatements.
Context `{RandomAPI}.

(** The board after the moves of the nodes of a walk have been placed, the
    node nearest to the root first. [l] lists the walk from its far end up
    to the root; the root's own move is not placed. *)
Fixpoint replay (h : heap) (state : board) (l : list nat) : board :=
  match l with
  | [] => state
  | i :: l' =>
      match l' with
      | [] => state
      | _ :: _ =>
          match h !! i with
          | Some nd => (board_place (replay h state l') (position (node_move nd))).2
          | None => replay h state l'
          end
      end
  end.

(** [descends h l]: read from its end, [l] starts at the root and goes from
    every node to one of its children. *)
Inductive descends (h : heap) : list nat -> Prop :=
  | descends_root : descends h [root_ptr]
  | descends_child b p l pn :
      descends h (p :: l) -> h !! p = Some pn -> b ∈ children pn ->
      descends h (b :: p :: l).

(** What the links of a heap add to [tree_inv]: children are listed once,
    whoever has a parent is listed among its children, and the mover
    changes from a node to its children. *)
Record shape_inv (h : heap) : Prop := {
  shape_nodup : forall i nd, h !! i = Some nd -> NoDup (children nd);
  shape_linked : forall c cn p,
    h !! c = Some cn -> parent cn = Some p ->
    exists pn, h !! p = Some pn /\ c ∈ children pn;
  shape_alt : forall i nd ch cn,
    h !! i = Some nd -> ch ∈ children nd -> h !! ch = Some cn ->
    reverse_player (placer nd) = Ret (placer cn);
}.

(** The visit count of a node of the heap (0 for a dangling index). *)
Definition visits (h : heap) (i : nat) : Z :=
  match h !! i with
  | Some nd => n nd
  | None => 0%Z
  end.

(** The visit counts of the nodes [cs], added up. *)
Definition sum_visits (h : heap) (cs : list nat) : Z :=
  foldr (fun ch acc => (visits h ch + acc)%Z) 0%Z cs.

(** Every expanded node was visited once itself and then once with each
    visit of a child. *)
Definition count_inv (h : heap) : Prop :=
  forall i nd, h !! i = Some nd -> children nd <> [] ->
    n nd = (1 + sum_visits h (children nd))%Z.

(** In [l] the node [c] is followed directly by [p]. *)
Definition next_in (l : list nat) (c p : nat) : Prop :=
  exists l1 l2, l = l1 ++ c :: p :: l2.

(** [h'] keeps the links, mover and move of every node of [h]. *)
Definition keeps_fields (h h' : heap) : Prop :=
  forall i x, h !! i = Some x ->
    exists x', h' !! i = Some x' /\ parent x' = parent x /\
      children x' = children x /\ placer x' = placer x /\
      node_move x' = node_move x.

(** The nodes [cs] carry the moves [mvs], one each, in order. *)
Definition moves_match (h : heap) (cs : list nat) (mvs : list move) : Prop :=
  Forall2 (fun ch mv => exists cn, h !! ch = Some cn /\ node_move cn = mv) cs mvs.

End MoreStatements.

(** ** The options of an agent (class [agent])

    [meta] is a [std::map] from strings to strings. The constructor splits
    its argument at white space and each piece at its first [=]. *)

Module Meta.

(** [std::isspace] in the default locale. *)
Definition is_space (c : Ascii.ascii) : bool :=
  existsb (Ascii.eqb c) [" "; "009"; "010"; "011"; "012"; "013"]%char.

(** [for (std::string pair; ss >> pair; )]: the pieces of [s] between white
    space, in order; [cur] holds the piece being read. *)
Fixpoint tokens_from (cur : string) (s : string) : list string :=
  match s with
  | EmptyString => match cur with EmptyString => [] | _ => [cur] end
  | String c s' =>
      if is_space c then
        match cur with
        | EmptyString => tokens_from EmptyString s'
        | _ => cur :: tokens_from EmptyString s'
        end
      else tokens_from (cur +:+ String c EmptyString) s'
  end.

Definition tokens (s : string) : list string := tokens_from EmptyString s.

(** [s.find(c)]; [None] stands for [npos]. *)
Fixpoint find_char (c : Ascii.ascii) (s : string) : option nat :=
  match s with
  | EmptyString => None
  | String c' s' => if Ascii.eqb c' c then Some 0 else S <$> find_char c s'
  end.

(** [pair.substr(0, pair.find('='))]: with [npos] the whole string. *)
Definition pair_key (pair : string) : string :=
  match find_char "=" pair with
  | Some i => substring 0 i pair
  | None => pair
  end.

(** [pair.substr(pair.find('=') + 1)]: [npos + 1] wraps around to 0, which
    gives the whole string again. *)
Definition pair_value (pair : string) : string :=
  match find_char "=" pair with
  | Some i => substring (S i) (String.length pair - S i) pair
  | None => pair
  end.

(** [meta[key] = { value }] for one piece. *)
Definition set_pair (meta : gmap string string) (pair : string) : gmap string string :=
  <[pair_key pair := pair_value pair]> meta.

(** The constructor of [agent]. *)
Definition agent_new (args : string) : gmap string string :=
  foldl set_pair ∅ (tokens ("name=unknown role=unknown " +:+ args)).

(** [property]: [meta.at(key)], [None] when it throws [std::out_of_range]. *)
Definition property (meta : gmap string string) (key : string) : option string :=
  meta !! key.

Definition notify (meta : gmap string string) (msg : string) : gmap string string :=
  set_pair meta msg.

Definition name (meta : gmap string string) : option string := property meta "name".
Definition role (meta : gmap string string) : option string := property meta "role".

(** The pieces [ts] written one after the other with a blank between. *)
Fixpoint unwords (ts : list string) : string :=
  match ts with
  | [] => EmptyString
  | [t] => t
  | t :: ts' => t +:+ " " +:+ unwords ts'
  end.

(** A piece as [>>] reads it: not empty and without white space. *)
Fixpoint no_space (s : string) : bool :=
  match s with
  | EmptyString => true
  | String c s' => negb (is_space c) && no_space s'
  end.

Definition word (t : string) : Prop := t <> EmptyString /\ no_space t = true.

(** The last piece of [ts] that sets [key]. *)
Definition last_setting (key : string) (ts : list string) : option string :=
  last (filter (fun t => pair_key t = key) ts).

(** What the argument string [args] says about [key]: the value of the last
    piece that sets it. *)
Definition setting (key : string) (args : string) : option string :=
  pair_value <$> last_setting key (tokens args).

End Meta.

(** ** The random player (class [player]) and the constructors from the
    argument string *)

(** [move.apply(b) == board::legal], which [player::take_action] tests, and
    the conversion of an option to [int] ([std::stod] and a cast; [None]
    when [std::stod] throws). *)
Class PlayerAPI `{RandomAPI} := {
  apply_legal : move -> board -> bool;
  stod_int : string -> option Z;
}.

Section Player.
Context `{PlayerAPI}.

Record player := mkPlayer {
  player_space : list move;
  player_who : piece_type;
  player_rng : engine;
}.

(** The loop of [player::take_action]: the first candidate that applies
    legally to a copy of the board. *)
Fixpoint first_legal (moves : list move) (state : board) : option move :=
  match moves with
  | [] => None
  | mv :: rest => if apply_legal mv state then Some mv else first_legal rest state
  end.

Definition player_take_action (p : player) (state : board) : action * player :=
  let '(sp, g) := shuffle (player_space p) (player_rng p) in
  (match first_legal sp state with
   | Some mv => as_action mv
   | None => no_action
   end,
   {| player_space := sp; player_who := player_who p; player_rng := g |}).

(** [int(meta[key])] when the key is set: [None] when [std::stod] throws,
    [Some None] when the key is not set. *)
Definition number_of (meta : gmap string string) (key : string) : option (option Z) :=
  match meta !! key with
  | Some s => Some <$> stod_int s
  | None => Some None
  end.

(** The options [MCTSplayer] reads from [meta]; [None] when a conversion
    throws. [name] and [role] are always set. *)
Definition options_of (meta : gmap string string) : option options :=
  seed ← number_of meta "seed";
  T ← number_of meta "T";
  nm ← Meta.name meta;
  rl ← Meta.role meta;
  Some {| opt_name := nm; opt_role := rl; opt_seed := seed; opt_T := T |}.

(** [MCTSplayer(args)], from the argument string. *)
Definition MCTSplayer_of_args (args : string) : option MCTSplayer :=
  o ← options_of (Meta.agent_new ("name=random role=unknown " +:+ args));
  MCTSplayer_new o.

(** The constructor of [player]; [None] when it throws. *)
Definition player_new (o : options) : option player :=
  if find_first_of (opt_name o) "[]():; " then None
  else
    let who0 := if String.eqb (opt_role o) "black" then black else empty in
    let who1 := if String.eqb (opt_role o) "white" then white else who0 in
    match who1 with
    | empty => None
    | _ =>
        Some {| player_space := (fun i => place_of i who1) <$> seq 0 board_cells;
                player_who := who1;
                player_rng := random_agent o |}
    end.

(** [player(args)]: the option [T] is not read. *)
Definition player_of_args (args : string) : option player :=
  let meta := Meta.agent_new ("name=random role=unknown " +:+ args) in
  seed ← number_of meta "seed";
  nm ← Meta.name meta;
  rl ← Meta.role meta;
  player_new {| opt_name := nm; opt_role := rl; opt_seed := seed; opt_T := None |}.

End Player.

(** ** The small game, with a random player *)

Module RowsPlayer.

Definition digit (c : Ascii.ascii) : option Z :=
  let k := Ascii.nat_of_ascii c in
  if (48 <=? k) && (k <=? 57) then Some (Z.of_nat (k - 48)) else None.

Fixpoint number_from (acc : Z) (s : string) : option Z :=
  match s with
  | EmptyString => Some acc
  | String c s' => d ← digit c; number_from (10 * acc + d) s'
  end.

(** Plain decimal numbers. *)
Definition number (s : string) : option Z :=
  match s with
  | EmptyString => None
  | _ => number_from 0 s
  end.

(** A move applies when it is the mover's turn and the cell is free. *)
#[global] Instance api : PlayerAPI := {|
  apply_legal := fun mv b => bool_decide (mv.2 = Rows.turn b) && (Rows.place b mv.1).1;
  stod_int := number;
|}.

(** The first cell taken, black to move. *)
Definition second : Rows.position_state :=
  {| Rows.cells := [true; false]; Rows.turn := black |}.

Definition random_player : player :=
  {| player_space := [(0, black); (1, black)]; player_who := black; player_rng := 0 |}.

End RowsPlayer.

(** ** The loop of [select_child] over given scores

    The arithmetic of a score is done by the machine in binary64, with
    rounding; [dbl] does not round. What the loop of [select_child] does
    with the scores does not depend on how they were computed, and is
    stated here for the loop run on any scores. *)

Section ScoreLoop.
Context `{RandomAPI}.

(** The [for] loop over [node->children], as [best_of], with the score of
    each child taken from [score]: [score child] stands for the [double]
    that [uct_score] holds when it is compared with [max_score]. *)
Fixpoint best_by (score : Node -> dbl) (h : heap) (chs : list nat)
    (max_score : dbl) (best_child : option nat) : res (option nat) :=
  match chs with
  | [] => Ret best_child
  | ch :: rest =>
      child ← deref h ch;
      if gtb (score child) max_score
      then best_by score h rest (score child) (Some ch)
      else best_by score h rest max_score best_child
  end.

(** [select_child] around that loop. *)
Definition select_child_by (score : Node -> dbl) (h : heap) (state : board)
    (node : nat) : res (option nat * board) :=
  nd ← deref h node;
  if bool_decide (children nd = []) then Ret (None, state)
  else
    best ← best_by score h (children nd) (Fin (-1)) None;
    match best with
    | None => Fault Indeterminate
    | Some best_child =>
        bc ← deref h best_child;
        Ret (Some best_child, (board_place state (position (node_move bc))).2)
    end.

End ScoreLoop.

(** ** The search on a machine that chooses addresses

    In the embedding above a [Node*] is the number of the allocation, and
    reading an unassigned variable stops the run. That fixes what a C++
    run leaves open. Here the search is written once more, from the same
    source, with these choices left to the machine: [new Node()] returns
    whatever free address the allocator picks, and a variable read before
    it is assigned holds whatever the machine left there. The nodes live in
    a store from addresses to nodes. *)

Module Machine.
Section Run.
Context `{RandomAPI}.

(** What a run does not decide: the address [new] returns, given the
    store; what [best_child] holds when [select_child] leaves it
    unassigned; what [opp_side] holds when [reverse_player] leaves it
    unassigned. *)
Record world := mkWorld {
  new_address : gmap nat Node -> nat;
  junk_pointer : gmap nat Node -> option nat;
  junk_side : piece_type;
}.

(** [new] returns an address that is not in use. *)
Definition sound (wd : world) : Prop :=
  forall s : gmap nat Node, s !! new_address wd s = None.

(** [p->...]: the node at the address [p]. *)
Definition load (s : gmap nat Node) (p : nat) : res Node :=
  match s !! p with
  | Some nd => Ret nd
  | None => Fault BadPointer
  end.

(** [opp_side] is returned as it is when neither branch assigns it. *)
Definition reverse_player (wd : world) (one_side : piece_type) : piece_type :=
  match one_side with
  | black => white
  | white => black
  | _ => junk_side wd
  end.

Fixpoint best_of (s : gmap nat Node) (root : nat) (c : R) (chs : list nat)
    (max_score : dbl) (best_child : option nat) : res (option nat) :=
  match chs with
  | [] => Ret best_child
  | ch :: rest =>
      child ← load s ch;
      uct ← (if is_unvisited child then Ret (Fin DBL_MAX)
             else rt ← load s root; Ret (uct_visited c (n rt) child));
      if gtb uct max_score
      then best_of s root c rest uct (Some ch)
      else best_of s root c rest max_score best_child
  end.

(** [best_child] is used as it is when no score exceeded -1. *)
Definition select_child (wd : world) (s : gmap nat Node) (state : board)
    (node root : nat) (c : R) : res (option nat * board) :=
  nd ← load s node;
  if bool_decide (children nd = []) then Ret (None, state)
  else
    best ← best_of s root c (children nd) (Fin (-1)) None;
    match (match best with
           | Some b => Some b
           | None => junk_pointer wd s
           end) with
    | None => Fault BadPointer
    | Some best_child =>
        bc ← load s best_child;
        Ret (Some best_child, (board_place state (position (node_move bc))).2)
    end.

Fixpoint select_loop (wd : world) (fuel : nat) (s : gmap nat Node)
    (state : board) (node root : nat) : res (nat * board) :=
  nd ← load s node;
  if bool_decide (children nd = []) then Ret (node, state)
  else
    match fuel with
    | O => Fault OutOfFuel
    | S fuel' =>
        '(next, state') ← select_child wd s state node root select_c;
        match next with
        | None => Fault BadPointer
        | Some node' => select_loop wd fuel' s state' node' root
        end
    end.

(** As in the embedding by allocation numbers, the number of nodes bounds
    the descent and the walk to the root. *)
Definition select (wd : world) (s : gmap nat Node) (state : board) (root : nat)
    : res (nat * board) :=
  select_loop wd (size s) s state root root.

(** [new Node()] for every candidate, at the address the allocator picks. *)
Fixpoint expand_loop (wd : world) (moves : list move) (s : gmap nat Node)
    (state : board) (node : nat) : res (gmap nat Node) :=
  match moves with
  | [] => Ret s
  | mv :: rest =>
      let newNode := new_address wd s in
      let s1 := <[newNode := new_Node]> s in
      nd ← load s1 node;
      let current_placer := reverse_player wd (placer nd) in
      if (board_place state (position mv)).1 then
        let s2 := alter (set_child mv current_placer node) newNode s1 in
        expand_loop wd rest (alter (add_child newNode) node s2) state node
      else expand_loop wd rest s1 state node
  end.

Definition expand (wd : world) (a : MCTSplayer) (s : gmap nat Node)
    (state : board) (node : nat) : res (bool * MCTSplayer * gmap nat Node) :=
  let '(sp, g) := shuffle (space a) (rng a) in
  s' ← expand_loop wd sp s state node;
  nd ← load s' node;
  Ret (bool_decide (children nd = []), with_random a sp g, s').

Fixpoint backprop_loop (fuel : nat) (s : gmap nat Node) (node : option nat)
    (result : Z) : res (gmap nat Node) :=
  match node with
  | None => Ret s
  | Some p =>
      match fuel with
      | O => Fault OutOfFuel
      | S fuel' =>
          nd ← load s p;
          backprop_loop fuel' (alter (visit result) p s) (parent nd) result
      end
  end.

Definition backpropagation (s : gmap nat Node) (node : option nat) (result : Z)
    : res (bool * gmap nat Node) :=
  match node with
  | None => Ret (false, s)
  | Some _ =>
      s' ← backprop_loop (size s) s node result;
      Ret (true, s')
  end.

(** [new Node()] for the root, in the empty store of a decision, and the
    assignment of [placer]. *)
Definition new_root (wd : world) (a : MCTSplayer) : nat * gmap nat Node :=
  let root := new_address wd ∅ in
  (root,
   {[ root := {| parent := None; children := [];
                 placer := reverse_player wd (who a);
                 node_move := no_place; n := 0; w := 0 |} ]}).

Definition iteration (wd : world) (fuel : nat) (state : board) (root : nat)
    (st : MCTSplayer * gmap nat Node) : res (MCTSplayer * gmap nat Node) :=
  let '(a, s) := st in
  '(current_node, current_board) ← select wd s state root;
  cn ← load s current_node;
  '(a1, s1, current_board1) ←
    (if (n cn =? 0)%Z then
       '(_, a1, s1) ← expand wd a s current_board current_node;
       cn1 ← load s1 current_node;
       Ret (a1, s1, move_apply (node_move cn1) current_board)
     else Ret (a, s, current_board));
  '(result, a2) ← simulate fuel a1 current_board1;
  '(_, s2) ← backpropagation s1 (Some current_node) result;
  Ret (a2, s2).

Fixpoint iterations (wd : world) (fuel : nat) (k : nat) (state : board)
    (root : nat) (st : MCTSplayer * gmap nat Node)
    : res (MCTSplayer * gmap nat Node) :=
  match k with
  | O => Ret st
  | S k' =>
      st' ← iterations wd fuel k' state root st;
      iteration wd fuel state root st'
  end.

Definition take_action (wd : world) (fuel : nat) (a : MCTSplayer) (state : board)
    : res (action * MCTSplayer) :=
  let '(root, s0) := new_root wd a in
  '(a', s) ← iterations wd fuel (Z.to_nat (simulation_times a)) state root (a, s0);
  '(best_node, _) ← select_child wd s state root root final_c;
  match best_node with
  | Some b => bn ← load s b; Ret (as_action (node_move bn), a')
  | None => Ret (no_action, a')
  end.

End Run.
End Machine.

(** ** The two embeddings side by side *)

Section Layout.
Context `{RandomAPI}.

(** A node with its pointers renamed from allocation numbers to addresses. *)
Definition rename (ρ : nat -> nat) (nd : Node) : Node :=
  {| parent := ρ <$> parent nd; children := ρ <$> children nd;
     placer := placer nd; node_move := node_move nd; n := n nd; w := w nd |}.

(** The pointers of [nd] are below [k]. *)
Definition closed_node (k : nat) (nd : Node) : Prop :=
  (forall p, parent nd = Some p -> p < k) /\
  Forall (fun ch => ch < k) (children nd).

(** The store [s] holds the nodes of the heap [h], the node allocated
    [i]-th at the address [ρ i]. *)
Record layout (ρ : nat -> nat) (h : heap) (s : gmap nat Node) : Prop := {
  layout_lookup : forall i nd, h !! i = Some nd -> s !! ρ i = Some (rename ρ nd);
  layout_inj : forall i j, i < length h -> j < length h -> ρ i = ρ j -> i = j;
  layout_size : size s = length h;
  layout_closed : forall i nd, h !! i = Some nd -> closed_node (length h) nd;
}.

(** [ρ'] places the first [k] allocations where [ρ] does. *)
Definition agree (k : nat) (ρ ρ' : nat -> nat) : Prop :=
  forall i, i < k -> ρ' i = ρ i.

(** [ρ] with the allocation [k] placed at [p]. *)
Definition place_at (ρ : nat -> nat) (k p : nat) : nat -> nat :=
  fun i => if decide (i = k) then p else ρ i.

End Layout.

(** ** Two machines for the small game *)

Module RowsMachine.

(** An allocator that returns the least free address; unassigned pointers
    are null, unassigned sides black. *)
Definition low : Machine.world :=
  {| Machine.new_address := fun s => fresh (dom s : gset nat);
     Machine.junk_pointer := fun _ => None;
     Machine.junk_side := black |}.

(** An allocator that leaves the first addresses alone; unassigned pointers
    point to address 0, unassigned sides are [empty]. *)
Definition high : Machine.world :=
  {| Machine.new_address := fun s => fresh ((list_to_set [0; 1; 2; 3] ∪ dom s) : gset nat);
     Machine.junk_pointer := fun _ => Some 0;
     Machine.junk_side := empty |}.

End RowsMachine.

(** * Properties *)

(** ** The error monad *)

Lemma bind_Ret {A B} (a : A) (k : A -> res B) : (Ret a ≫= k) = k a.
Proof. reflexivity. Qed.

Lemma bind_inv {A B} (m : res A) (k : A -> res B) (b : B) :
  (m ≫= k) = Ret b -> exists a, m = Ret a /\ k a = Ret b.
Proof. destruct m as [a|e]; [eauto | discriminate]. Qed.

(** ** Doubles *)

Section DblFacts.
Local Open Scope R_scope.

Lemma sign_pos x : 0 < x -> sign x = Gt.
Proof.
  intros Hx. unfold sign.
  destruct (total_order_T x 0) as [[Hlt|Heq]|Hgt]; [lra | lra | reflexivity].
Qed.

Lemma sign_zero : sign 0 = Eq.
Proof.
  unfold sign.
  destruct (total_order_T 0 0) as [[Hlt|Heq]|Hgt]; [lra | reflexivity | lra].
Qed.

Lemma sign_neg x : x < 0 -> sign x = Lt.
Proof.
  intros Hx. unfold sign.
  destruct (total_order_T x 0) as [[Hlt|Heq]|Hgt]; [reflexivity | lra | lra].
Qed.

Lemma sign_nonneg x : 0 <= x -> sign x <> Lt.
Proof.
  intros Hx. unfold sign.
  destruct (total_order_T x 0) as [[Hlt|Heq]|Hgt]; [lra | discriminate | discriminate].
Qed.

Lemma sqrt_Fin_nonneg x : 0 <= x -> Dbl.sqrt (Fin x) = Fin (R_sqrt.sqrt x).
Proof.
  intros Hx. unfold Dbl.sqrt.
  pose proof (sign_nonneg x Hx) as Hs.
  destruct (sign x); [reflexivity | contradiction | reflexivity].
Qed.

Lemma gtb_Fin x y : gtb (Fin x) (Fin y) = true <-> y < x.
Proof. simpl. destruct (Rlt_dec y x); split; intros; try discriminate; tauto. Qed.

Lemma gtb_Fin_false x y : gtb (Fin x) (Fin y) = false <-> x <= y.
Proof.
  simpl. destruct (Rlt_dec y x); split; intros; try discriminate; try lra; reflexivity.
Qed.

Lemma gtb_irrefl a : gtb a a = false.
Proof. destruct a; try reflexivity. apply gtb_Fin_false. lra. Qed.

Lemma gtb_not_nan_l a b : gtb a b = true -> a <> NaN.
Proof. destruct a; simpl; congruence. Qed.

Lemma gtb_trans a b c : gtb a b = true -> gtb b c = true -> gtb a c = true.
Proof.
  destruct a as [x| | |], b as [y| | |], c as [z| | |];
    try (simpl; congruence).
  rewrite !gtb_Fin. lra.
Qed.

(** Below the running maximum and not NaN: below whatever exceeds it. *)
Lemma gtb_below s m b :
  gtb s m = false -> s <> NaN -> m <> NaN -> gtb b m = true -> gtb b s = true.
Proof.
  destruct s as [x| | |], m as [y| | |], b as [z| | |];
    try (simpl; congruence).
  rewrite gtb_Fin_false, !gtb_Fin. lra.
Qed.

Lemma DBL_MAX_large : 2 ^ 40 < DBL_MAX.
Proof.
  unfold DBL_MAX.
  assert (H52 : 0 < / 2 ^ 52 <= 1).
  { split.
    - apply Rinv_0_lt_compat, pow_lt; lra.
    - rewrite <- Rinv_1. apply Rinv_le_contravar; [lra|].
      apply pow_R1_Rle; lra. }
  assert (Hp : 2 ^ 40 <= 2 ^ 1023) by (apply Rle_pow; [lra | lia]).
  assert (H0 : 0 < 2 ^ 40) by (apply pow_lt; lra).
  nra.
Qed.

End DblFacts.

(** ** The score *)

Section ScoreFacts.
Context `{RandomAPI}.
Local Open Scope R_scope.

Lemma ln_nonneg x : 1 <= x -> 0 <= ln x.
Proof.
  intros Hx. destruct (Req_dec x 1) as [->|Hne].
  - rewrite ln_1. lra.
  - rewrite <- ln_1. left. apply ln_increasing; lra.
Qed.

Lemma ln_below x : 0 < x -> ln x <= x.
Proof.
  intros Hx. left. apply exp_lt_inv. rewrite exp_ln by assumption.
  pose proof (exp_ineq1 x). lra.
Qed.

Lemma sqrt_below x : 0 <= x -> R_sqrt.sqrt x <= 1 + x.
Proof.
  intros Hx. rewrite <- (sqrt_square (1 + x)) by lra.
  apply sqrt_le_1_alt. nra.
Qed.

(** The exploration term of a visited child under a visited root. *)
Lemma explore_nonneg (N m : Z) :
  (1 <= N)%Z -> (1 <= m)%Z -> 0 <= ln (IZR N) / IZR m.
Proof.
  intros HN Hm. apply IZR_le in HN, Hm.
  apply Rmult_le_pos; [apply ln_nonneg; lra|].
  left. apply Rinv_0_lt_compat. lra.
Qed.

Lemma uct_visited_fin c N nd :
  (1 <= n nd)%Z -> (1 <= N)%Z ->
  uct_visited c N nd =
    Fin (IZR (w nd ÷ n nd) + c * R_sqrt.sqrt (ln (IZR N) / IZR (n nd))).
Proof.
  intros Hn HN. unfold uct_visited, of_int. simpl.
  pose proof (IZR_le _ _ Hn) as Hn'. pose proof (IZR_le _ _ HN) as HN'.
  rewrite (sign_pos (IZR N)) by lra.
  unfold Dbl.div. rewrite (sign_pos (IZR (n nd))) by lra.
  rewrite sqrt_Fin_nonneg by (apply explore_nonneg; assumption).
  reflexivity.
Qed.

Lemma uct_visited_nan c N nd :
  (1 <= n nd)%Z -> (N <= 0)%Z -> uct_visited c N nd = NaN.
Proof.
  intros Hn HN. unfold uct_visited, of_int. simpl.
  pose proof (IZR_le _ _ Hn) as Hn'. pose proof (IZR_le _ _ HN) as HN'.
  destruct (Z.eq_dec N 0%Z) as [->|Hne].
  - rewrite sign_zero. simpl. rewrite (sign_pos (IZR (n nd))) by lra. reflexivity.
  - assert (IZR N < 0).
    { apply IZR_lt. lia. }
    rewrite sign_neg by assumption. reflexivity.
Qed.

Lemma quot_bound a b : (1 <= b)%Z -> (Z.abs (a ÷ b) <= Z.abs a)%Z.
Proof.
  intros Hb. rewrite <- Z.quot_abs by lia.
  rewrite (Z.abs_eq b) by lia.
  apply Z.quot_le_upper_bound; [lia|]. nia.
Qed.

(** The exploration term stays small: [N] is an [int]. *)
Lemma explore_bound (N m : Z) :
  (1 <= N)%Z -> int32 N -> (1 <= m)%Z ->
  0 <= R_sqrt.sqrt (ln (IZR N) / IZR m) <= 1 + 2 ^ 31.
Proof.
  intros HN [_ HN2] Hm. split; [apply sqrt_pos|].
  set (x := ln (IZR N) / IZR m).
  assert (Hx0 : 0 <= x) by (apply explore_nonneg; lia).
  assert (Hx1 : x <= 2 ^ 31).
  { unfold x.
    assert (Hn' : 1 <= IZR m) by (apply IZR_le; lia).
    assert (HN' : 1 <= IZR N) by (apply IZR_le; lia).
    assert (Hl : ln (IZR N) <= 2 ^ 31).
    { pose proof (ln_below (IZR N)).
      assert (IZR N <= 2 ^ 31).
      { replace (2 ^ 31) with (IZR (2 ^ 31)) by (rewrite pow_IZR; reflexivity).
        apply IZR_le. lia. }
      lra. }
    pose proof (ln_nonneg (IZR N) HN') as Hl0.
    apply Rle_trans with (ln (IZR N)); [|assumption].
    unfold Rdiv. rewrite <- (Rmult_1_r (ln (IZR N))) at 2.
    apply Rmult_le_compat_l; [assumption|].
    rewrite <- Rinv_1. apply Rinv_le_contravar; lra. }
  pose proof (sqrt_below x Hx0). lra.
Qed.

Lemma uct_visited_below c N nd :
  Rabs c <= 2 -> (1 <= n nd)%Z -> int32 (w nd) -> int32 N ->
  below_max (uct_visited c N nd).
Proof.
  intros Hc Hn [Hw1 Hw2] HN.
  destruct (Z_le_gt_dec N 0) as [HN0|HN0].
  { rewrite uct_visited_nan by assumption. exact I. }
  rewrite uct_visited_fin by lia. simpl.
  pose proof DBL_MAX_large as Hbig.
  pose proof (quot_bound (w nd) (n nd) Hn) as Hq.
  assert (Hq' : IZR (w nd ÷ n nd) <= 2 ^ 31).
  { replace (2 ^ 31) with (IZR (2 ^ 31)) by (rewrite pow_IZR; reflexivity).
    apply IZR_le. lia. }
  destruct (explore_bound N (n nd)) as [Hs0 Hs]; [lia | assumption | assumption |].
  assert (Hcs : c * R_sqrt.sqrt (ln (IZR N) / IZR (n nd)) <= 2 * (1 + 2 ^ 31)).
  { assert (Hc2 : c <= 2) by (pose proof (Rle_abs c); lra).
    assert (2 ^ 31 = 2147483648) by lra.
    destruct (Rle_dec 0 c); nra. }
  assert (2 ^ 40 = 1099511627776) by lra.
  assert (2 ^ 31 = 2147483648) by lra.
  lra.
Qed.

End ScoreFacts.

(** ** select_child *)

Section SelectChildFacts.
Context `{RandomAPI}.

Lemma deref_Some (h : heap) p nd : h !! p = Some nd -> deref h p = Ret nd.
Proof. intros E. unfold deref. rewrite E. reflexivity. Qed.

Section Loop.
Variables (h : heap) (root : nat) (rt : Node) (c : R).
Hypothesis Hroot : h !! root = Some rt.

Lemma best_of_cons ch nd rest max_score best :
  h !! ch = Some nd ->
  best_of h root c (ch :: rest) max_score best =
    if gtb (uct_score c (n rt) nd) max_score
    then best_of h root c rest (uct_score c (n rt) nd) (Some ch)
    else best_of h root c rest max_score best.
Proof.
  intros E. simpl. rewrite (deref_Some _ _ _ E), bind_Ret.
  unfold uct_score. destruct (is_unvisited nd).
  - rewrite bind_Ret. reflexivity.
  - rewrite (deref_Some _ _ _ Hroot), !bind_Ret. reflexivity.
Qed.

Lemma best_of_char chs : forall max_score best,
  max_score <> NaN ->
  Forall (fun ch => is_Some (h !! ch)) chs ->
  exists r, best_of h root c chs max_score best = Ret r /\
    ((r = best /\
      forall ch cn, ch ∈ chs -> h !! ch = Some cn ->
        gtb (uct_score c (n rt) cn) max_score = false)
     \/
     (exists i b bn, r = Some b /\ best_at h c (n rt) chs i b /\
        h !! b = Some bn /\ gtb (uct_score c (n rt) bn) max_score = true)).
Proof.
  induction chs as [|ch rest IH]; intros max_score best Hmax Hall.
  - exists best. split; [reflexivity|]. left. split; [reflexivity|].
    intros ch cn Hin. inversion Hin.
  - apply Forall_cons in Hall as [[nd End] Hrest].
    rewrite (best_of_cons _ _ _ _ _ End).
    set (s := uct_score c (n rt) nd).
    destruct (gtb s max_score) eqn:Hgt.
    + destruct (IH s (Some ch) (gtb_not_nan_l _ _ Hgt) Hrest)
        as (r & Er & [[-> Hle] | (i & b & bn & -> & Hbest & Ebn & Hb)]).
      * exists (Some ch). split; [assumption|]. right.
        exists 0, ch, nd. repeat split; try assumption.
        exists nd. split; [assumption|]. split.
        -- intros k ck cn Hk. lia.
        -- intros k ck cn Hk Eck Ecn. destruct k as [|k]; [lia|].
           simpl in Eck. apply (Hle ck cn); [|assumption].
           apply list_elem_of_lookup. eauto.
      * exists (Some b). split; [assumption|]. right.
        exists (S i), b, bn. split; [reflexivity|].
        destruct Hbest as (Ei & bn' & Ebn' & Hbefore & Hafter).
        assert (bn' = bn) by congruence. subst bn'.
        split; [|split; [assumption | exact (gtb_trans _ _ _ Hb Hgt)]].
        split; [exact Ei|]. exists bn. split; [assumption|]. split.
        -- intros k ck cn Hk Eck Ecn. destruct k as [|k].
           ++ simpl in Eck. assert (cn = nd) by congruence. subst cn.
              left. exact Hb.
           ++ simpl in Eck. apply (Hbefore k ck cn); [lia | assumption..].
        -- intros k ck cn Hk Eck Ecn. destruct k as [|k]; [lia|].
           simpl in Eck. apply (Hafter k ck cn); [lia | assumption..].
    + destruct (IH max_score best Hmax Hrest)
        as (r & Er & [[-> Hle] | (i & b & bn & -> & Hbest & Ebn & Hb)]).
      * exists best. split; [assumption|]. left. split; [reflexivity|].
        intros ch' cn Hin Ecn. apply elem_of_cons in Hin as [->|Hin].
        -- assert (cn = nd) by congruence. subst cn. exact Hgt.
        -- eapply Hle; eassumption.
      * exists (Some b). split; [assumption|]. right.
        exists (S i), b, bn. split; [reflexivity|].
        destruct Hbest as (Ei & bn' & Ebn' & Hbefore & Hafter).
        assert (bn' = bn) by congruence. subst bn'.
        split; [|split; assumption].
        split; [exact Ei|]. exists bn. split; [assumption|]. split.
        -- intros k ck cn Hk Eck Ecn. destruct k as [|k].
           ++ simpl in Eck. assert (cn = nd) by congruence. subst cn.
              fold s. destruct s eqn:Es; [left | left | left | right; reflexivity];
                (eapply gtb_below; [exact Hgt | discriminate | exact Hmax | exact Hb]).
           ++ simpl in Eck. apply (Hbefore k ck cn); [lia | assumption..].
        -- intros k ck cn Hk Eck Ecn. destruct k as [|k]; [lia|].
           simpl in Eck. apply (Hafter k ck cn); [lia | assumption..].
Qed.

End Loop.

Lemma uct_score_unvisited c N (nd : Node) :
  n nd = 0%Z -> uct_score c N nd = Fin DBL_MAX.
Proof. intros E. unfold uct_score, is_unvisited. rewrite E. reflexivity. Qed.

Lemma uct_score_visited c N (nd : Node) :
  n nd <> 0%Z -> uct_score c N nd = uct_visited c N nd.
Proof.
  intros E. unfold uct_score, is_unvisited.
  destruct (Z.eqb_spec (n nd) 0); [contradiction | reflexivity].
Qed.

Lemma below_max_not_above s : below_max s -> gtb s (Fin DBL_MAX) = false.
Proof.
  destruct s as [x| | |]; simpl; try reflexivity; [|contradiction].
  intros Hx. destruct (Rlt_dec DBL_MAX x); [lra | reflexivity].
Qed.

Lemma below_max_under s : below_max s -> s <> NaN -> gtb (Fin DBL_MAX) s = true.
Proof.
  destruct s as [x| | |]; simpl; try reflexivity; try contradiction.
  intros Hx _. destruct (Rlt_dec x DBL_MAX); [reflexivity | lra].
Qed.

Lemma DBL_MAX_above_init : gtb (Fin DBL_MAX) (Fin (-1)) = true.
Proof.
  apply gtb_Fin. pose proof DBL_MAX_large.
  assert (0 < 2 ^ 40)%R by (apply pow_lt; lra). lra.
Qed.

(** A visited child under a visited root scores at least zero. *)
Lemma uct_visited_nonneg c N (nd : Node) :
  (0 <= c)%R -> (1 <= N)%Z -> (1 <= n nd)%Z -> (0 <= w nd)%Z ->
  exists x, uct_visited c N nd = Fin x /\ (0 <= x)%R.
Proof.
  intros Hc HN Hn Hw. rewrite uct_visited_fin by assumption.
  eexists. split; [reflexivity|].
  assert (0 <= IZR (w nd ÷ n nd))%R.
  { apply IZR_le. apply Z.quot_pos; lia. }
  pose proof (sqrt_pos (ln (IZR N) / IZR (n nd))).
  nra.
Qed.

Lemma select_child_childless (h : heap) state node root c nd :
  h !! node = Some nd -> children nd = [] ->
  select_child h state node root c = Ret (None, state).
Proof.
  intros E Hc. unfold select_child.
  rewrite (deref_Some _ _ _ E), bind_Ret, Hc. reflexivity.
Qed.

Lemma select_child_best (h : heap) state node root c nd rt :
  h !! node = Some nd -> children nd <> [] -> h !! root = Some rt ->
  Forall (fun ch => is_Some (h !! ch)) (children nd) ->
  (exists ch cn, ch ∈ children nd /\ h !! ch = Some cn /\
     gtb (uct_score c (n rt) cn) (Fin (-1)) = true) ->
  exists i b bn,
    select_child h state node root c =
      Ret (Some b, (board_place state (position (node_move bn))).2) /\
    h !! b = Some bn /\ best_at h c (n rt) (children nd) i b /\
    gtb (uct_score c (n rt) bn) (Fin (-1)) = true.
Proof.
  intros E Hne Ert Hall (ch & cn & Hin & Ecn & Hgt).
  unfold select_child. rewrite (deref_Some _ _ _ E), bind_Ret.
  rewrite bool_decide_eq_false_2 by assumption.
  destruct (best_of_char h root rt c Ert (children nd) (Fin (-1)) None)
    as (r & Er & [[-> Hle] | (i & b & bn & -> & Hbest & Ebn & Hb)]);
    [discriminate | assumption | |].
  - rewrite (Hle ch cn Hin Ecn) in Hgt. discriminate.
  - exists i, b, bn. rewrite Er, bind_Ret.
    rewrite (deref_Some _ _ _ Ebn), bind_Ret. auto.
Qed.

Lemma select_child_inv (h : heap) state node root c nd rt b state' :
  h !! node = Some nd -> h !! root = Some rt ->
  Forall (fun ch => is_Some (h !! ch)) (children nd) ->
  select_child h state node root c = Ret (Some b, state') ->
  exists i bn, best_at h c (n rt) (children nd) i b /\ h !! b = Some bn /\
    gtb (uct_score c (n rt) bn) (Fin (-1)) = true.
Proof.
  intros E Ert Hall. unfold select_child.
  rewrite (deref_Some _ _ _ E), bind_Ret.
  case_bool_decide; [congruence|].
  destruct (best_of_char h root rt c Ert (children nd) (Fin (-1)) None)
    as (r & Er & [[-> Hle] | (i & b' & bn & -> & Hbest & Ebn & Hb)]);
    [discriminate | assumption | |]; rewrite Er, bind_Ret.
  - discriminate.
  - rewrite (deref_Some _ _ _ Ebn), bind_Ret. intros [= -> _]. eauto.
Qed.

End SelectChildFacts.

(** ** The heap under backpropagation *)

Section BackpropFacts.
Context `{RandomAPI}.

Lemma lookup_visit (h : heap) result j i :
  alter (visit result) j h !! i =
    (if decide (j = i) then visit result <$> h !! i else h !! i).
Proof.
  rewrite list_lookup_alter. destruct (decide (j = i)); [subst|]; reflexivity.
Qed.

(** A visit leaves the links of every node as they are. *)
Lemma lookup_visit_links (h : heap) result j i nd' :
  alter (visit result) j h !! i = Some nd' ->
  exists nd, h !! i = Some nd /\ parent nd' = parent nd /\
    children nd' = children nd /\ placer nd' = placer nd /\
    node_move nd' = node_move nd /\
    (nd' = nd \/ nd' = visit result nd).
Proof.
  rewrite lookup_visit. destruct (decide (j = i)) as [->|Hne].
  - destruct (h !! i) as [nd|] eqn:E; [|discriminate].
    intros [= <-]. exists nd. simpl. auto 10.
  - intros E. exists nd'. auto 10.
Qed.

Lemma lookup_visit_back (h : heap) result j i nd :
  h !! i = Some nd ->
  exists nd', alter (visit result) j h !! i = Some nd' /\
    parent nd' = parent nd /\ children nd' = children nd.
Proof.
  intros E. rewrite lookup_visit. destruct (decide (j = i)).
  - rewrite E. simpl. eauto.
  - eauto.
Qed.

Lemma visit_counters_ok result nd :
  (0 <= result <= 1)%Z -> counters_ok nd -> counters_ok (visit result nd).
Proof. unfold counters_ok. simpl. lia. Qed.

Lemma tree_inv_visit (h : heap) result j :
  (0 <= result <= 1)%Z -> tree_inv h -> tree_inv (alter (visit result) j h).
Proof.
  intros Hr [Hroot Hch Hpar Hcnt Hpl]. split.
  - destruct Hroot as (rt & Ert & Hp).
    destruct (lookup_visit_back h result j _ _ Ert) as (rt' & E' & Hp' & _).
    exists rt'. split; [assumption | congruence].
  - intros i nd' ch E' Hin.
    destruct (lookup_visit_links _ _ _ _ _ E') as (nd & E & _ & Hc & _).
    rewrite Hc in Hin. destruct (Hch i nd ch E Hin) as (Hlt & cn & Ecn & Hpc).
    split; [assumption|].
    destruct (lookup_visit_back h result j _ _ Ecn) as (cn' & Ecn' & Hp' & _).
    exists cn'. split; [assumption | congruence].
  - intros i nd' p E' Hp.
    destruct (lookup_visit_links _ _ _ _ _ E') as (nd & E & Hpp & _).
    apply (Hpar i nd p E). congruence.
  - intros i nd' E'.
    destruct (lookup_visit_links _ _ _ _ _ E') as (nd & E & _ & _ & _ & _ & [->| ->]).
    + eauto.
    + apply visit_counters_ok; eauto.
  - intros i nd' E'.
    destruct (lookup_visit_links _ _ _ _ _ E') as (nd & E & _ & _ & Hp & _).
    rewrite Hp. eauto.
Qed.

Lemma tree_inv_visit_all result l : forall h : heap,
  (0 <= result <= 1)%Z -> tree_inv h -> tree_inv (visit_all result l h).
Proof.
  induction l as [|i l IH]; intros h Hr Hinv; [assumption|].
  simpl. apply IH; [assumption|]. apply tree_inv_visit; assumption.
Qed.


Lemma visit_all_notin result l : forall (h : heap) i,
  i ∉ l -> visit_all result l h !! i = h !! i.
Proof.
  induction l as [|j l IH]; intros h i Hin; [reflexivity|].
  apply not_elem_of_cons in Hin as [Hne Hin].
  simpl. rewrite IH by assumption. apply list_lookup_alter_ne. lia.
Qed.

Lemma visit_all_once result l : forall (h : heap) i,
  NoDup l -> i ∈ l -> visit_all result l h !! i = visit result <$> h !! i.
Proof.
  induction l as [|j l IH]; intros h i Hnd Hin; [inversion Hin|].
  apply NoDup_cons in Hnd as [Hj Hnd].
  simpl. apply elem_of_cons in Hin as [->|Hin].
  - rewrite visit_all_notin by assumption. apply list_lookup_alter_eq.
  - rewrite IH by assumption. rewrite list_lookup_alter_ne; [reflexivity|].
    intros ->. contradiction.
Qed.

(** The walk along the parent links is not changed by a visit. *)
Lemma chain_visit (h : heap) result j i l :
  chain h i l -> chain (alter (visit result) j h) i l.
Proof.
  induction 1 as [i nd E Hp | i nd p l E Hp _ IH].
  - destruct (lookup_visit_back h result j _ _ E) as (nd' & E' & Hp' & _).
    eapply chain_top; [eassumption | congruence].
  - destruct (lookup_visit_back h result j _ _ E) as (nd' & E' & Hp' & _).
    eapply chain_up; [eassumption | rewrite Hp'; exact Hp | assumption].
Qed.


(** Under [tree_inv] the walk strictly descends in the heap. *)
Lemma chain_bound (h : heap) i l :
  tree_inv h -> chain h i l -> Forall (fun j => j <= i) l /\ NoDup l.
Proof.
  intros Hinv. induction 1 as [i nd E Hp | i nd p l E Hp Hc [IHb IHn]].
  - split; [repeat constructor | apply NoDup_singleton].
  - pose proof (inv_parent h Hinv i nd p E Hp) as Hlt.
    split.
    + constructor; [lia|]. eapply Forall_impl; [exact IHb|]. simpl. lia.
    + apply NoDup_cons. split; [|assumption].
      intros Hin. rewrite Forall_forall in IHb. apply IHb in Hin. lia.
Qed.

Lemma chain_length (h : heap) i l :
  tree_inv h -> chain h i l -> length l <= S i.
Proof.
  intros Hinv. induction 1 as [i nd E Hp | i nd p l E Hp Hc IH].
  - simpl. lia.
  - pose proof (inv_parent h Hinv i nd p E Hp). simpl. lia.
Qed.

Lemma backprop_loop_chain result : forall l fuel (h : heap) i,
  chain h i l -> length l <= fuel ->
  backprop_loop fuel h (Some i) result = Ret (visit_all result l h).
Proof.
  induction l as [|j l IH]; intros fuel h i Hc Hf.
  - inversion Hc.
  - destruct fuel as [|fuel]; [simpl in Hf; lia|].
    inversion Hc as [i' nd E Hp | i' nd p l' E Hp Hc']; subst.
    + simpl. rewrite (deref_Some _ _ _ E), bind_Ret, Hp.
      destruct fuel; reflexivity.
    + simpl. rewrite (deref_Some _ _ _ E), bind_Ret, Hp.
      apply IH; [|simpl in Hf; lia]. apply chain_visit. assumption.
Qed.

Lemma backpropagation_chain result (h : heap) i l :
  tree_inv h -> chain h i l ->
  backpropagation h (Some i) result = Ret (true, visit_all result l h).
Proof.
  intros Hinv Hc. unfold backpropagation.
  rewrite (backprop_loop_chain result l); [reflexivity | assumption |].
  pose proof (chain_length h i l Hinv Hc).
  assert (i < length h); [|lia].
  destruct Hc as [i nd E _ | i nd p l E _ _]; eapply lookup_lt_Some; eassumption.
Qed.

End BackpropFacts.

(** ** The descent *)

Section SelectFacts.
Context `{RandomAPI}.

Lemma select_c_pos : (0 <= select_c)%R.
Proof. unfold select_c. lra. Qed.

Lemma final_c_pos : (0 <= final_c)%R.
Proof. unfold final_c. lra. Qed.

Lemma uct_score_above_init c N (cn : Node) :
  (0 <= c)%R -> (1 <= N)%Z -> (0 <= w cn)%Z -> (0 <= n cn)%Z ->
  gtb (uct_score c N cn) (Fin (-1)) = true.
Proof.
  intros Hc HN Hw Hn.
  destruct (Z.eq_dec (n cn) 0%Z) as [E|E].
  - rewrite uct_score_unvisited by assumption. apply DBL_MAX_above_init.
  - rewrite uct_score_visited by assumption.
    destruct (uct_visited_nonneg c N cn) as (x & -> & Hx); [assumption | assumption | lia | lia |].
    apply gtb_Fin. lra.
Qed.

Lemma select_loop_eq fuel (h : heap) state node root :
  select_loop fuel h state node root =
    nd ← deref h node;
    if bool_decide (children nd = []) then Ret (node, state)
    else
      match fuel with
      | O => Fault OutOfFuel
      | S fuel' =>
          '(next, state') ← select_child h state node root select_c;
          match next with
          | None => Fault BadPointer
          | Some node' => select_loop fuel' h state' node' root
          end
      end.
Proof. destruct fuel; reflexivity. Qed.

Lemma tree_children_exist (h : heap) i nd :
  tree_inv h -> h !! i = Some nd ->
  Forall (fun ch => is_Some (h !! ch)) (children nd).
Proof.
  intros Hinv E. apply Forall_forall. intros ch Hin.
  destruct (inv_children h Hinv i nd ch E Hin) as (_ & cn & Ecn & _). eauto.
Qed.

(** One step of the descent from a node with children, under a visited
    root: a child of the node is chosen. *)
Lemma select_child_tree (h : heap) state node c nd rt :
  tree_inv h -> h !! root_ptr = Some rt -> (1 <= n rt)%Z -> (0 <= c)%R ->
  h !! node = Some nd -> children nd <> [] ->
  exists i b bn,
    select_child h state node root_ptr c =
      Ret (Some b, (board_place state (position (node_move bn))).2) /\
    h !! b = Some bn /\ best_at h c (n rt) (children nd) i b /\
    node < b /\ parent bn = Some node.
Proof.
  intros Hinv Ert Hn Hc E Hne.
  destruct (select_child_best h state node root_ptr c nd rt)
    as (i & b & bn & Esel & Ebn & Hbest & _); try assumption.
  - eapply tree_children_exist; eassumption.
  - destruct (children nd) as [|ch0 rest] eqn:Ech; [contradiction|].
    destruct (inv_children h Hinv node nd ch0 E) as (_ & cn & Ecn & _).
    { rewrite Ech. apply list_elem_of_here. }
    exists ch0, cn. split; [apply list_elem_of_here|]. split; [assumption|].
    destruct (inv_counters h Hinv ch0 cn Ecn) as [Hw0 Hn0].
    apply uct_score_above_init; try assumption. lia.
  - exists i, b, bn. do 3 (split; [assumption|]).
    pose proof Hbest as (Ei & _).
    destruct (inv_children h Hinv node nd b E) as (Hlt & cn & Ecn & Hp).
    { apply list_elem_of_lookup. eauto. }
    split; [assumption|].
    rewrite Ebn in Ecn. injection Ecn as <-. exact Hp.
Qed.

Lemma chain_lookup (h : heap) i l : chain h i l -> is_Some (h !! i).
Proof. destruct 1; eauto. Qed.

Lemma chain_last_cons (h : heap) i l b :
  chain h i l -> last (b :: l) = last l.
Proof. destruct 1; reflexivity. Qed.

Lemma select_loop_ok (h : heap) rt :
  tree_inv h -> h !! root_ptr = Some rt -> ((1 <= n rt)%Z \/ childless h) ->
  forall fuel node state l,
    chain h node l -> last l = Some root_ptr -> length h <= fuel + node ->
    exists leaf state' l' ln,
      select_loop fuel h state node root_ptr = Ret (leaf, state') /\
      h !! leaf = Some ln /\ children ln = [] /\
      chain h leaf l' /\ last l' = Some root_ptr.
Proof.
  intros Hinv Ert Hvis.
  induction fuel as [|fuel IH]; intros node state l Hc Hl Hf;
    destruct (chain_lookup _ _ _ Hc) as [nd E];
    rewrite select_loop_eq, (deref_Some _ _ _ E), bind_Ret;
    case_bool_decide as Hch.
  - exists node, state, l, nd. auto.
  - destruct Hvis as [Hn | Hno]; [|specialize (Hno _ _ E); contradiction].
    destruct (select_child_tree h state node select_c nd rt)
      as (i & b & bn & _ & Ebn & _ & Hlt & _); try assumption.
    { apply select_c_pos. }
    apply lookup_lt_Some in Ebn. lia.
  - exists node, state, l, nd. auto.
  - destruct Hvis as [Hn | Hno]; [|specialize (Hno _ _ E); contradiction].
    destruct (select_child_tree h state node select_c nd rt)
      as (i & b & bn & Esel & Ebn & _ & Hlt & Hp); try assumption.
    { apply select_c_pos. }
    rewrite Esel, bind_Ret. simpl.
    apply (IH b _ (b :: l)).
    + eapply chain_up; eassumption.
    + rewrite (chain_last_cons _ _ _ _ Hc). assumption.
    + lia.
Qed.

Lemma select_ok (h : heap) rt state :
  tree_inv h -> h !! root_ptr = Some rt -> ((1 <= n rt)%Z \/ childless h) ->
  exists leaf state' l ln,
    select h state root_ptr = Ret (leaf, state') /\
    h !! leaf = Some ln /\ children ln = [] /\
    chain h leaf l /\ last l = Some root_ptr.
Proof.
  intros Hinv Ert Hvis. unfold select.
  destruct (inv_root h Hinv) as (rt' & Ert' & Hp).
  apply (select_loop_ok h rt Hinv Ert Hvis _ _ _ [root_ptr]).
  - eapply chain_top; eassumption.
  - reflexivity.
  - lia.
Qed.

End SelectFacts.

(** ** Expansion *)

Section ExpandFacts.
Context `{RandomAPI}.

Lemma reverse_player_sided pl pl' :
  reverse_player pl = Ret pl' -> pl' = black \/ pl' = white.
Proof. destruct pl; simpl; intros [= <-]; auto. Qed.

Lemma reverse_player_defined pl :
  pl = black \/ pl = white -> exists pl', reverse_player pl = Ret pl'.
Proof. intros [-> | ->]; simpl; eauto. Qed.

Lemma legal_moves_cons state mv rest :
  legal_moves state (mv :: rest) =
    if (board_place state (position mv)).1
    then mv :: legal_moves state rest else legal_moves state rest.
Proof.
  unfold legal_moves. rewrite filter_cons.
  destruct (decide _) as [e|ne]; destruct (board_place state (position mv)).1;
    try reflexivity; [discriminate | contradiction].
Qed.

Lemma lookup_alloc_old (h : heap) i nd :
  h !! i = Some nd -> (h ++ [new_Node]) !! i = Some nd.
Proof. intros E. apply lookup_app_l_Some. assumption. Qed.

Lemma lookup_alloc_new (h : heap) : (h ++ [new_Node]) !! length h = Some new_Node.
Proof. apply list_lookup_middle. reflexivity. Qed.

Lemma length_linked (h : heap) node mv pl :
  length (linked h node mv pl) = S (length h).
Proof. unfold linked. rewrite !length_alter, length_app. simpl. lia. Qed.

Lemma lookup_linked_node (h : heap) node mv pl nd :
  h !! node = Some nd ->
  linked h node mv pl !! node = Some (add_child (length h) nd).
Proof.
  intros E. pose proof (lookup_lt_Some _ _ _ E) as Hlt. unfold linked.
  rewrite list_lookup_alter_eq, list_lookup_alter_ne by lia.
  rewrite (lookup_alloc_old _ _ _ E). reflexivity.
Qed.

Lemma lookup_linked_new (h : heap) node mv pl :
  node < length h ->
  linked h node mv pl !! length h = Some (fresh_child node pl mv).
Proof.
  intros Hlt. unfold linked.
  rewrite list_lookup_alter_ne by lia.
  rewrite list_lookup_alter_eq, lookup_alloc_new. reflexivity.
Qed.

Lemma lookup_linked_old (h : heap) node mv pl i :
  i < length h -> i <> node -> linked h node mv pl !! i = h !! i.
Proof.
  intros Hlt Hne. unfold linked.
  rewrite !list_lookup_alter_ne by lia.
  apply lookup_app_l. assumption.
Qed.

Lemma expand_loop_char state node pl : forall moves (h : heap) nd,
  h !! node = Some nd -> reverse_player (placer nd) = Ret pl ->
  exists h' cs,
    expand_loop moves h state node = Ret h' /\
    length h' = length h + length moves /\
    h' !! node = Some (with_children nd (children nd ++ cs)) /\
    Forall2 (fun ch mv => h' !! ch = Some (fresh_child node pl mv))
      cs (legal_moves state moves) /\
    Forall (fun ch => length h <= ch) cs /\
    NoDup cs /\
    (forall i, i < length h -> i <> node -> h' !! i = h !! i) /\
    (forall i nd', length h <= i -> h' !! i = Some nd' -> i ∉ cs -> nd' = new_Node).
Proof.
  induction moves as [|mv rest IH]; intros h nd E Hpl.
  - exists h, []. simpl. rewrite app_nil_r.
    split; [reflexivity|]. split; [lia|].
    split; [destruct nd; exact E|].
    split; [constructor|]. split; [constructor|]. split; [constructor|].
    split; [reflexivity|].
    intros i nd' Hi E'. apply lookup_lt_Some in E'. lia.
  - pose proof (lookup_lt_Some _ _ _ E) as Hlt.
    simpl. rewrite (deref_Some _ _ _ E), bind_Ret, Hpl, bind_Ret.
    rewrite legal_moves_cons.
    destruct (board_place state (position mv)).1 eqn:Hlegal.
    + fold (linked h node mv pl).
      destruct (IH (linked h node mv pl) (add_child (length h) nd))
        as (h' & cs & Eh' & Hlen & Enode & Hcs & Hnew & Hnd & Hold & Hrest).
      { apply lookup_linked_node. assumption. }
      { exact Hpl. }
      rewrite length_linked in *.
      exists h', (length h :: cs).
      split; [exact Eh'|]. split; [simpl; lia|].
      split.
      { rewrite Enode. unfold with_children, add_child. simpl.
        rewrite <- app_assoc. reflexivity. }
      split.
      { constructor; [|exact Hcs].
        rewrite Hold by lia. apply lookup_linked_new. assumption. }
      split.
      { constructor; [lia|]. eapply Forall_impl; [exact Hnew|]. simpl. lia. }
      split.
      { apply NoDup_cons. split; [|assumption].
        intros Hin. rewrite Forall_forall in Hnew. apply Hnew in Hin. lia. }
      split.
      { intros i Hi Hne. rewrite Hold by lia. apply lookup_linked_old; assumption. }
      intros i nd' Hi E' Hnin. apply not_elem_of_cons in Hnin as [Hne Hnin].
      apply (Hrest i nd'); [lia | assumption | assumption].
    + destruct (IH (h ++ [new_Node]) nd)
        as (h' & cs & Eh' & Hlen & Enode & Hcs & Hnew & Hnd & Hold & Hrest).
      { apply lookup_alloc_old. assumption. }
      { exact Hpl. }
      rewrite length_app in *. simpl in *.
      exists h', cs.
      split; [exact Eh'|]. split; [lia|].
      split; [exact Enode|]. split; [exact Hcs|].
      split.
      { eapply Forall_impl; [exact Hnew|]. simpl. lia. }
      split; [assumption|].
      split.
      { intros i Hi Hne. rewrite Hold by lia. apply lookup_app_l. assumption. }
      intros i nd' Hi E' Hnin.
      destruct (decide (i = length h)) as [->|Hne].
      * rewrite Hold, lookup_alloc_new in E' by lia. congruence.
      * apply (Hrest i nd'); [lia | assumption | assumption].
Qed.

Lemma expand_loop_expanded state node pl moves (h : heap) nd :
  h !! node = Some nd -> reverse_player (placer nd) = Ret pl ->
  exists h' cs,
    expand_loop moves h state node = Ret h' /\
    length h' = length h + length moves /\
    expanded h h' node nd pl cs (legal_moves state moves).
Proof.
  intros E Hpl.
  destruct (expand_loop_char state node pl moves h nd E Hpl)
    as (h' & cs & Eh' & Hlen & Enode & Hcs & Hnew & Hnd & Hold & Hrest).
  exists h', cs. split; [assumption|]. split; [assumption|].
  split; assumption.
Qed.

(** Where a node of the expanded heap comes from. *)
Lemma expanded_lookup (h h' : heap) node nd pl cs legal i x :
  h !! node = Some nd -> expanded h h' node nd pl cs legal ->
  h' !! i = Some x ->
  (i = node /\ x = with_children nd (children nd ++ cs)) \/
  (i < length h /\ i <> node /\ h !! i = Some x) \/
  (length h <= i /\ i ∈ cs /\ exists mv, x = fresh_child node pl mv) \/
  (length h <= i /\ x = new_Node).
Proof.
  intros E Hexp E'. pose proof (lookup_lt_Some _ _ _ E) as Hlt.
  destruct (decide (i = node)) as [->|Hne].
  { left. split; [reflexivity|]. rewrite (exp_node _ _ _ _ _ _ _ Hexp) in E'.
    congruence. }
  destruct (decide (i < length h)) as [Hi|Hi].
  { right. left. rewrite (exp_old _ _ _ _ _ _ _ Hexp) in E' by assumption. auto. }
  destruct (decide (i ∈ cs)) as [Hin|Hnin].
  - right. right. left. split; [lia|]. split; [assumption|].
    apply list_elem_of_lookup in Hin as [k Ek].
    destruct (Forall2_lookup_l _ _ _ _ _ (exp_children _ _ _ _ _ _ _ Hexp) Ek)
      as (mv & _ & Emv).
    exists mv. congruence.
  - right. right. right. split; [lia|].
    apply (exp_unused _ _ _ _ _ _ _ Hexp i x); [lia | assumption | assumption].
Qed.

(** The four origins of a node [x] found at [i] after an expansion: the
    expanded node, an older node, a new child, an unused new node. *)
Ltac expanded_cases E Hexp Ex :=
  destruct (expanded_lookup _ _ _ _ _ _ _ _ _ E Hexp Ex)
    as [(-> & ->) | [(Hi & Hne & Eold) | [(Hi & _ & mv & ->) | (Hi & ->)]]].

(** The old nodes keep everything but, at [node], the children. *)
Lemma expanded_old (h h' : heap) node nd pl cs legal i x :
  h !! node = Some nd -> expanded h h' node nd pl cs legal ->
  h !! i = Some x ->
  exists x', h' !! i = Some x' /\ parent x' = parent x /\ n x' = n x /\
    w x' = w x /\ placer x' = placer x /\ node_move x' = node_move x /\
    (i <> node -> x' = x).
Proof.
  intros E Hexp Ex. destruct (decide (i = node)) as [->|Hne].
  - assert (x = nd) by congruence. subst x.
    eexists. split; [apply (exp_node _ _ _ _ _ _ _ Hexp)|]. simpl.
    repeat split; try reflexivity. intros Hc. contradiction.
  - exists x. rewrite (exp_old _ _ _ _ _ _ _ Hexp); auto 10.
    eapply lookup_lt_Some; eassumption.
Qed.

Lemma tree_inv_expanded (h h' : heap) node nd pl cs legal :
  tree_inv h -> h !! node = Some nd -> pl = black \/ pl = white ->
  expanded h h' node nd pl cs legal -> tree_inv h'.
Proof.
  intros Hinv E Hpl Hexp.
  pose proof (lookup_lt_Some _ _ _ E) as Hlt.
  split.
  - destruct (inv_root h Hinv) as (rt & Ert & Hp).
    destruct (expanded_old _ _ _ _ _ _ _ _ _ E Hexp Ert) as (rt' & E' & Hp' & _).
    exists rt'. split; [assumption | congruence].
  - intros i x ch Ex Hin.
    expanded_cases E Hexp Ex.
    + simpl in Hin. apply elem_of_app in Hin as [Hin | Hin].
      * destruct (inv_children h Hinv node nd ch E Hin) as (Hlt' & cn & Ecn & Hp).
        split; [assumption|].
        destruct (expanded_old _ _ _ _ _ _ _ _ _ E Hexp Ecn) as (cn' & E' & Hp' & _).
        exists cn'. split; [assumption | congruence].
      * pose proof (exp_new _ _ _ _ _ _ _ Hexp) as Hnew.
        rewrite Forall_forall in Hnew. specialize (Hnew ch Hin).
        split; [lia|].
        apply list_elem_of_lookup in Hin as [k Ek].
        destruct (Forall2_lookup_l _ _ _ _ _ (exp_children _ _ _ _ _ _ _ Hexp) Ek)
          as (mv & _ & Emv).
        eexists. split; [exact Emv | reflexivity].
    + destruct (inv_children h Hinv i x ch Eold Hin) as (Hlt' & cn & Ecn & Hp).
      split; [assumption|].
      destruct (expanded_old _ _ _ _ _ _ _ _ _ E Hexp Ecn) as (cn' & E' & Hp' & _).
      exists cn'. split; [assumption | congruence].
    + inversion Hin.
    + inversion Hin.
  - intros i x p Ex Hp.
    expanded_cases E Hexp Ex.
    + apply (inv_parent h Hinv node nd p E Hp).
    + apply (inv_parent h Hinv i x p Eold Hp).
    + simpl in Hp. injection Hp as <-. lia.
    + discriminate.
  - intros i x Ex.
    expanded_cases E Hexp Ex.
    + apply (inv_counters h Hinv node nd E).
    + apply (inv_counters h Hinv i x Eold).
    + unfold counters_ok. simpl. lia.
    + unfold counters_ok. simpl. lia.
  - intros i x Ex.
    expanded_cases E Hexp Ex.
    + apply (inv_placer h Hinv node nd E).
    + apply (inv_placer h Hinv i x Eold).
    + exact Hpl.
    + left. reflexivity.
Qed.

Lemma chain_expanded (h h' : heap) node nd pl cs legal i l :
  h !! node = Some nd -> expanded h h' node nd pl cs legal ->
  chain h i l -> chain h' i l.
Proof.
  intros E Hexp. induction 1 as [i x Ex Hp | i x p l Ex Hp _ IH].
  - destruct (expanded_old _ _ _ _ _ _ _ _ _ E Hexp Ex) as (x' & E' & Hp' & _).
    eapply chain_top; [eassumption | congruence].
  - destruct (expanded_old _ _ _ _ _ _ _ _ _ E Hexp Ex) as (x' & E' & Hp' & _).
    eapply chain_up; [eassumption | rewrite Hp'; exact Hp | assumption].
Qed.

Lemma expand_expanded (a : MCTSplayer) (h : heap) state node nd pl :
  h !! node = Some nd -> reverse_player (placer nd) = Ret pl ->
  exists h' cs,
    expand a h state node =
      Ret (bool_decide (children nd ++ cs = []),
           with_random a (shuffle (space a) (rng a)).1 (shuffle (space a) (rng a)).2,
           h') /\
    length h' = length h + length (shuffle (space a) (rng a)).1 /\
    expanded h h' node nd pl cs
      (legal_moves state (shuffle (space a) (rng a)).1).
Proof.
  intros E Hpl. unfold expand.
  destruct (shuffle (space a) (rng a)) as [sp g] eqn:Esh. simpl.
  destruct (expand_loop_expanded state node pl sp h nd E Hpl)
    as (h' & cs & Eh' & Hlen & Hexp).
  exists h', cs. rewrite Eh', bind_Ret.
  rewrite (deref_Some _ _ _ (exp_node _ _ _ _ _ _ _ Hexp)), bind_Ret.
  split; [reflexivity|]. split; assumption.
Qed.

End ExpandFacts.

(** ** The rollout *)

Section SimulateFacts.
Context `{GameLaws}.

Lemma simulate_pass_room : forall moves b has,
  room (simulate_pass moves b has).1 <= room b /\
  ((simulate_pass moves b has).2 = true ->
   has = true \/ room (simulate_pass moves b has).1 < room b).
Proof.
  induction moves as [|mv rest IH]; intros b has; simpl.
  - split; [lia|]. auto.
  - destruct (board_place b (position mv)).1 eqn:Hlegal.
    + pose proof (place_room b (position mv) Hlegal) as Hroom.
      destruct (IH (board_place b (position mv)).2 true) as [Hle _].
      split; [lia|]. intros _. right. lia.
    + apply IH.
Qed.

(** A pass that reports no legal move has found every candidate illegal and
    has left the board as it was. *)
Lemma simulate_pass_stuck : forall moves b has,
  (simulate_pass moves b has).2 = false ->
  has = false /\ (simulate_pass moves b has).1 = b /\
  forall mv, mv ∈ moves -> (board_place b (position mv)).1 = false.
Proof.
  induction moves as [|mv rest IH]; intros b has; simpl.
  - intros ->. split; [reflexivity|]. split; [reflexivity|].
    intros mv Hin. inversion Hin.
  - destruct (board_place b (position mv)).1 eqn:Hlegal.
    + intros Hs. apply IH in Hs as [Hs _]. discriminate.
    + intros Hs. destruct (IH _ _ Hs) as (-> & Eb & Hall).
      split; [reflexivity|]. split; [assumption|].
      intros mv' Hin. apply elem_of_cons in Hin as [-> | Hin]; auto.
Qed.

Lemma simulate_loop_ok : forall fuel sp g b,
  room b < fuel ->
  exists sp' g' b',
    simulate_loop fuel sp g b = Ret (sp', g', b') /\
    sp' ≡ₚ sp /\
    forall mv, mv ∈ sp' -> (board_place b' (position mv)).1 = false.
Proof.
  induction fuel as [|fuel IH]; intros sp g b Hfuel; [lia|].
  simpl. pose proof (shuffle_perm sp g) as Hperm.
  destruct (shuffle sp g) as [sp1 g1]. simpl in Hperm.
  pose proof (simulate_pass_room sp1 b false) as [Hle Hlt].
  pose proof (simulate_pass_stuck sp1 b false) as Hstuck.
  destruct (simulate_pass sp1 b false) as [b1 has]. simpl in *.
  destruct has.
  - destruct Hlt as [?|Hlt]; [reflexivity | discriminate |].
    destruct (IH sp1 g1 b1) as (sp' & g' & b' & E & Hp & Hall); [lia|].
    exists sp', g', b'. split; [assumption|]. split; [|assumption].
    etransitivity; eassumption.
  - destruct Hstuck as (_ & -> & Hall); [reflexivity|].
    exists sp1, g1, b. auto.
Qed.

Lemma simulate_loop_mono : forall fuel fuel' sp g b x,
  simulate_loop fuel sp g b = Ret x -> fuel <= fuel' ->
  simulate_loop fuel' sp g b = Ret x.
Proof.
  induction fuel as [|fuel IH]; intros fuel' sp g b x E Hle; [discriminate|].
  destruct fuel' as [|fuel']; [lia|].
  simpl in *. destruct (shuffle sp g) as [sp1 g1].
  destruct (simulate_pass sp1 b false) as [b1 has].
  destruct has; [|assumption].
  apply IH; [assumption | lia].
Qed.

(** The rollout returns 0 or 1 once the fuel exceeds the room on the board,
    and the same result with any more fuel. *)
Lemma simulate_ok (a : MCTSplayer) b :
  exists result a',
    (result = 0 \/ result = 1)%Z /\
    space a' ≡ₚ space a /\ who a' = who a /\
    simulation_times a' = simulation_times a /\
    forall fuel, room b < fuel -> simulate fuel a b = Ret (result, a').
Proof.
  destruct (simulate_loop_ok (S (room b)) (space a) (rng a) b)
    as (sp' & g' & b' & E & Hp & _); [lia|].
  eexists _, (with_random a sp' g').
  split; [|split; [exact Hp | split; [reflexivity | split; [reflexivity|]]]].
  2:{ intros fuel Hfuel. unfold simulate.
      rewrite (simulate_loop_mono _ fuel _ _ _ _ E) by lia.
      rewrite bind_Ret. reflexivity. }
  destruct (decide _); auto.
Qed.

(** Whatever the fuel, a rollout that returns has returned 0 or 1. *)
Lemma simulate_binary fuel (a : MCTSplayer) b result a' :
  simulate fuel a b = Ret (result, a') -> (result = 0 \/ result = 1)%Z.
Proof.
  unfold simulate. intros E. apply bind_inv in E as ([[sp g] final] & _ & E).
  injection E as <- _. destruct (decide _); auto.
Qed.

End SimulateFacts.

(** ** One pass of the search loop *)

Section SearchFacts.
Context `{GameLaws}.

Local Arguments backpropagation : simpl never.
Local Arguments simulate : simpl never.
Local Arguments expand : simpl never.
Local Arguments select : simpl never.
Local Arguments select_child : simpl never.

Lemma loop_visited k (h : heap) rt :
  loop_inv k h -> h !! root_ptr = Some rt -> (1 <= n rt)%Z \/ childless h.
Proof.
  intros [_ (rt' & Ert' & Hn) Hfresh _] Ert.
  destruct k as [|k]; [right; auto|].
  left. assert (rt' = rt) by congruence. subst. lia.
Qed.

Lemma iteration_pass k (a : MCTSplayer) (h : heap) state :
  loop_inv k h ->
  exists f0 a2 h2,
    (forall fuel, f0 <= fuel -> iteration fuel state (a, h) = Ret (a2, h2)) /\
    pass state a h a2 h2.
Proof.
  intros Hloop. pose proof (loop_tree _ _ Hloop) as Hinv.
  destruct (loop_count _ _ Hloop) as (rt & Ert & Hn).
  destruct (select_ok h rt state Hinv Ert (loop_visited _ _ _ Hloop Ert))
    as (leaf & state' & l & ln & Esel & Eln & Hch & Hc & Hl).
  destruct (Z.eq_dec (n ln) 0%Z) as [Hz|Hnz].
  - destruct (reverse_player_defined _ (inv_placer h Hinv leaf ln Eln)) as [pl Hpl].
    destruct (expand_expanded a h state' leaf ln pl Eln Hpl)
      as (h1 & cs & Eexp & _ & Hexp).
    set (a1 := with_random a (shuffle (space a) (rng a)).1 (shuffle (space a) (rng a)).2) in *.
    set (b1 := move_apply (node_move ln) state').
    destruct (simulate_ok a1 b1) as (result & a2 & Hres & Hsp & Hwho & Hst & Esim).
    assert (Hinv1 : tree_inv h1).
    { eapply tree_inv_expanded; [exact Hinv | exact Eln | | exact Hexp].
      eapply reverse_player_sided; eassumption. }
    pose proof (chain_expanded _ _ _ _ _ _ _ _ _ Eln Hexp Hc) as Hc1.
    exists (S (room b1)), a2, (visit_all result l h1). split.
    + intros fuel Hfuel. unfold iteration.
      rewrite Esel, bind_Ret. simpl.
      rewrite (deref_Some _ _ _ Eln), bind_Ret.
      rewrite Hz. simpl. rewrite Eexp, bind_Ret. simpl.
      rewrite (deref_Some _ _ _ (exp_node _ _ _ _ _ _ _ Hexp)), !bind_Ret. simpl.
      fold b1. rewrite (Esim fuel) by lia. rewrite bind_Ret. simpl.
      rewrite (backpropagation_chain result h1 leaf l Hinv1 Hc1), bind_Ret.
      reflexivity.
    + eapply (pass_intro state a h leaf state' l ln a1 h1 result a2);
        try eassumption.
      * left. split; [assumption|]. split; [reflexivity|]. eauto.
      * rewrite Hsp. unfold a1. simpl. apply shuffle_perm.
  - destruct (simulate_ok a state') as (result & a2 & Hres & Hsp & Hwho & Hst & Esim).
    exists (S (room state')), a2, (visit_all result l h). split.
    + intros fuel Hfuel. unfold iteration.
      rewrite Esel, bind_Ret. simpl.
      rewrite (deref_Some _ _ _ Eln), bind_Ret.
      destruct (Z.eqb_spec (n ln) 0) as [?|_]; [contradiction|].
      rewrite bind_Ret. simpl.
      rewrite (Esim fuel) by lia. rewrite bind_Ret. simpl.
      rewrite (backpropagation_chain result h leaf l Hinv Hc), bind_Ret.
      reflexivity.
    + eapply (pass_intro state a h leaf state' l ln a h result a2);
        try eassumption.
      right. auto.
Qed.

Lemma expansion_tree (a : MCTSplayer) (h : heap) state leaf ln a1 h1 l :
  tree_inv h -> h !! leaf = Some ln -> chain h leaf l ->
  expansion a h state leaf ln a1 h1 ->
  tree_inv h1 /\ chain h1 leaf l /\
  (forall i x, h !! i = Some x -> exists x', h1 !! i = Some x' /\ n x' = n x) /\
  (forall i x', h1 !! i = Some x' ->
     n x' = 0%Z \/ exists x, h !! i = Some x /\ n x' = n x).
Proof.
  intros Hinv Eln Hc [(Hz & -> & pl & cs & Hpl & Hexp) | (Hnz & -> & ->)].
  - split; [|split; [|split]].
    + eapply tree_inv_expanded; [exact Hinv | exact Eln | | exact Hexp].
      eapply reverse_player_sided; eassumption.
    + eapply chain_expanded; eassumption.
    + intros i x Ex.
      destruct (expanded_old _ _ _ _ _ _ _ _ _ Eln Hexp Ex) as (x' & E' & _ & Hn & _).
      eauto.
    + intros i x' Ex'.
      destruct (expanded_lookup _ _ _ _ _ _ _ _ _ Eln Hexp Ex')
        as [(-> & ->) | [(Hi & Hne & Eold) | [(Hi & _ & mv & ->) | (Hi & ->)]]];
        eauto.
  - split; [assumption|]. split; [assumption|]. split; eauto.
Qed.

Lemma pass_loop_inv k state (a : MCTSplayer) (h : heap) a2 h2 :
  loop_inv k h -> pass state a h a2 h2 -> loop_inv (S k) h2.
Proof.
  intros Hloop Hpass. pose proof (loop_tree _ _ Hloop) as Hinv.
  destruct (loop_count _ _ Hloop) as (rt & Ert & Hn).
  destruct Hpass as [leaf state' l ln a1 h1 result a2 Esel Eln Hch Hc Hl Hexp Hres _ _ _].
  destruct (expansion_tree _ _ _ _ _ _ _ _ Hinv Eln Hc Hexp)
    as (Hinv1 & Hc1 & Hold & Hnew).
  destruct (chain_bound _ _ _ Hinv1 Hc1) as [_ Hnd].
  split.
  - apply tree_inv_visit_all; [lia | assumption].
  - destruct (Hold _ _ Ert) as (rt1 & Ert1 & Hn1).
    exists (visit result rt1). split.
    + rewrite visit_all_once; [rewrite Ert1; reflexivity | assumption |].
      apply last_Some_elem_of. assumption.
    + simpl. lia.
  - discriminate.
  - intros i x Ex.
    assert (Hb1 : forall x1, h1 !! i = Some x1 -> (n x1 <= Z.of_nat k)%Z).
    { intros x1 E1. destruct (Hnew _ _ E1) as [Hz | (x0 & E0 & Hn0)]; [lia|].
      pose proof (loop_bound _ _ Hloop _ _ E0). lia. }
    destruct (decide (i ∈ l)) as [Hin | Hnin].
    + rewrite visit_all_once in Ex by assumption.
      destruct (h1 !! i) as [x1|] eqn:E1; [|discriminate].
      injection Ex as <-. specialize (Hb1 x1 eq_refl). simpl. lia.
    + rewrite visit_all_notin in Ex by assumption.
      specialize (Hb1 x Ex). lia.
Qed.

Lemma passes_loop_inv state (a : MCTSplayer) (h : heap) k a' h' :
  loop_inv 0 h -> passes state a h k a' h' -> loop_inv k h'.
Proof.
  intros Hinit. induction 1 as [|k a1 h1 a2 h2 _ IH Hpass]; [assumption|].
  eapply pass_loop_inv; eassumption.
Qed.

Lemma passes_agent state (a : MCTSplayer) (h : heap) k a' h' :
  passes state a h k a' h' ->
  space a' ≡ₚ space a /\ who a' = who a /\
  simulation_times a' = simulation_times a.
Proof.
  induction 1 as [|k a1 h1 a2 h2 _ (IHs & IHw & IHt) Hpass]; [auto|].
  destruct Hpass. split; [etransitivity; eassumption|]. split; congruence.
Qed.

Lemma iterations_passes state (a : MCTSplayer) (h : heap) :
  loop_inv 0 h -> forall k,
  exists f0 a' h',
    (forall fuel, f0 <= fuel -> iterations fuel k state (a, h) = Ret (a', h')) /\
    passes state a h k a' h'.
Proof.
  intros Hinit. induction k as [|k (f0 & a1 & h1 & Eit & Hp)].
  - exists 0, a, h. split; [reflexivity | constructor].
  - pose proof (passes_loop_inv _ _ _ _ _ _ Hinit Hp) as Hloop.
    destruct (iteration_pass k a1 h1 state Hloop) as (f1 & a2 & h2 & Est & Hpass).
    exists (f0 `max` f1), a2, h2. split.
    + intros fuel Hfuel. simpl. rewrite Eit by lia. rewrite bind_Ret.
      apply Est. lia.
    + econstructor; eassumption.
Qed.

(** The heap of a fresh root. *)
Lemma new_root_inv (a : MCTSplayer) :
  who a = black \/ who a = white ->
  exists h0, new_root a = Ret h0 /\ loop_inv 0 h0 /\ length h0 = 1.
Proof.
  intros Hwho. destruct (reverse_player_defined _ Hwho) as [pl Hpl].
  unfold new_root. rewrite Hpl, bind_Ret. eexists. split; [reflexivity|].
  split; [|reflexivity].
  assert (Hone : forall i (x : Node) r, [r] !! i = Some x -> i = 0 /\ x = r).
  { intros [|i] x r E; simpl in E; [|destruct i; discriminate].
    injection E as <-. auto. }
  split.
  - split.
    + eexists. split; reflexivity.
    + intros i x ch E Hin. apply Hone in E as [-> ->]. inversion Hin.
    + intros i x p E Hp. apply Hone in E as [-> ->]. discriminate.
    + intros i x E. apply Hone in E as [-> ->]. unfold counters_ok. simpl. lia.
    + intros i x E. apply Hone in E as [-> ->]. simpl.
      eapply reverse_player_sided; eassumption.
  - eexists. split; reflexivity.
  - intros _ i x E. apply Hone in E as [-> ->]. reflexivity.
  - intros i x E. apply Hone in E as [-> ->]. simpl. lia.
Qed.

End SearchFacts.

(** ** The small game satisfies the laws *)

Module RowsFacts.
Import Rows.

Lemma free_insert : forall (cs : list bool) p,
  cs !! p = Some false ->
  length (filter (fun c => c = false) (<[p := true]> cs))
    < length (filter (fun c => c = false) cs).
Proof.
  induction cs as [|c cs IH]; intros p E; [discriminate|].
  destruct p as [|p]; simpl in E.
  - injection E as ->. change (<[0:=true]> (false :: cs)) with (true :: cs).
    rewrite filter_cons_False by discriminate.
    rewrite filter_cons_True by reflexivity. simpl. lia.
  - change (<[S p:=true]> (c :: cs)) with (c :: <[p:=true]> cs).
    specialize (IH p E).
    rewrite !filter_cons. destruct (decide (c = false)); simpl; lia.
Qed.

Lemma rotate_perm {A} k (l : list A) : rotate k l ≡ₚ l.
Proof.
  unfold rotate. rewrite Permutation_app_comm. rewrite take_drop. reflexivity.
Qed.

Lemma place_free b p : (place b p).1 = true -> free (place b p).2 < free b.
Proof.
  unfold place.
  destruct (cells b !! p) as [[|]|] eqn:E; simpl; try discriminate.
  intros _. unfold free. simpl. apply free_insert. assumption.
Qed.

#[global] Instance laws : GameLaws.
Proof.
  refine {| room := free |}.
  - exact place_free.
  - intros l g. simpl. apply rotate_perm.
Defined.

End RowsFacts.

(** ** The whole search *)

Section DecisionFacts.
Context `{GameLaws}.

Local Arguments backpropagation : simpl never.
Local Arguments simulate : simpl never.
Local Arguments expand : simpl never.
Local Arguments select : simpl never.
Local Arguments select_child : simpl never.

Lemma legal_moves_nil state moves :
  Forall (fun mv => (board_place state (position mv)).1 = false) moves ->
  legal_moves state moves = [].
Proof.
  induction 1 as [|mv rest Hmv _ IH]; [reflexivity|].
  rewrite legal_moves_cons, Hmv. exact IH.
Qed.

Lemma childless_visit_all result l : forall h : heap,
  childless h -> childless (visit_all result l h).
Proof.
  induction l as [|j l IH]; intros h Hch; [assumption|].
  simpl. apply IH. intros i x E.
  destruct (lookup_visit_links _ _ _ _ _ E) as (x0 & E0 & _ & Hc & _).
  rewrite Hc. eapply Hch; eassumption.
Qed.

Lemma select_childless (h : heap) state rt :
  h !! root_ptr = Some rt -> children rt = [] ->
  select h state root_ptr = Ret (root_ptr, state).
Proof.
  intros Ert Hc. unfold select.
  rewrite select_loop_eq, (deref_Some _ _ _ Ert), bind_Ret, Hc. reflexivity.
Qed.

(** On a board without a legal candidate a pass leaves every node
    childless. *)
Lemma pass_childless state (a : MCTSplayer) (h : heap) a2 h2 :
  tree_inv h -> childless h -> no_legal_move a state ->
  pass state a h a2 h2 -> childless h2 /\ no_legal_move a2 state.
Proof.
  intros Hinv Hch Hno Hpass.
  destruct Hpass as [leaf state' l ln a1 h1 result a2 Esel Eln Hnil Hc Hl Hexp Hres Hsp _ _].
  destruct (inv_root h Hinv) as (rt & Ert & _).
  rewrite (select_childless h state rt Ert (Hch _ _ Ert)) in Esel.
  injection Esel as <- <-.
  split.
  - apply childless_visit_all.
    destruct Hexp as [(Hz & -> & pl & cs & Hpl & Hexp) | (Hnz & -> & ->)];
      [|assumption].
    assert (Hlegal : legal_moves state (shuffle (space a) (rng a)).1 = []).
    { apply legal_moves_nil. unfold no_legal_move in Hno.
      rewrite (shuffle_perm (space a) (rng a)). exact Hno. }
    rewrite Hlegal in Hexp.
    pose proof (exp_children _ _ _ _ _ _ _ Hexp) as Hcs.
    apply Forall2_nil_inv_r in Hcs. subst cs.
    intros i x Ex.
    destruct (expanded_lookup _ _ _ _ _ _ _ _ _ Eln Hexp Ex)
      as [(-> & ->) | [(Hi & Hne & Eold) | [(Hi & Hin & _) | (Hi & ->)]]].
    + simpl. rewrite Hnil. reflexivity.
    + eapply Hch; eassumption.
    + inversion Hin.
    + reflexivity.
  - unfold no_legal_move in *. rewrite Hsp. exact Hno.
Qed.

Lemma passes_childless state (a : MCTSplayer) (h : heap) k a' h' :
  loop_inv 0 h -> no_legal_move a state ->
  passes state a h k a' h' -> childless h' /\ no_legal_move a' state.
Proof.
  intros Hinit Hno. induction 1 as [|k a1 h1 a2 h2 Hp [IHc IHn] Hpass].
  - split; [apply (loop_fresh _ _ Hinit); reflexivity | assumption].
  - eapply pass_childless; try eassumption.
    apply (loop_tree k). eapply passes_loop_inv; eassumption.
Qed.

(** The search loop returns, and its result is reached by as many passes as
    the budget asks for. *)
Lemma search_passes (a : MCTSplayer) state :
  who a = black \/ who a = white ->
  exists h0, new_root a = Ret h0 /\ loop_inv 0 h0 /\
    forall k, exists f0 a' h',
      (forall fuel, f0 <= fuel ->
         (h0' ← new_root a; iterations fuel k state (a, h0')) = Ret (a', h')) /\
      passes state a h0 k a' h' /\ loop_inv k h'.
Proof.
  intros Hwho. destruct (new_root_inv a Hwho) as (h0 & E0 & Hinit & _).
  exists h0. split; [assumption|]. split; [assumption|].
  intros k. destruct (iterations_passes state a h0 Hinit k) as (f0 & a' & h' & Eit & Hp).
  exists f0, a', h'. split; [|split; [assumption|]].
  - intros fuel Hfuel. rewrite E0, bind_Ret. apply Eit. assumption.
  - eapply passes_loop_inv; eassumption.
Qed.

(** The final choice on the heap the search leaves. *)
Lemma final_choice k (h : heap) state :
  loop_inv k h ->
  exists rt, h !! root_ptr = Some rt /\
    ((children rt = [] /\
      select_child h state root_ptr root_ptr final_c = Ret (None, state)) \/
     (children rt <> [] /\ exists i b bn,
        select_child h state root_ptr root_ptr final_c =
          Ret (Some b, (board_place state (position (node_move bn))).2) /\
        h !! b = Some bn /\ best_at h final_c (n rt) (children rt) i b)).
Proof.
  intros Hloop. pose proof (loop_tree _ _ Hloop) as Hinv.
  destruct (loop_count _ _ Hloop) as (rt & Ert & Hn).
  exists rt. split; [assumption|].
  destruct (decide (children rt = [])) as [Hnil | Hne].
  - left. split; [assumption|]. eapply select_child_childless; eassumption.
  - right. split; [assumption|].
    destruct (loop_visited _ _ _ Hloop Ert) as [Hvis | Hch];
      [|specialize (Hch _ _ Ert); contradiction].
    destruct (select_child_tree h state root_ptr final_c rt rt)
      as (i & b & bn & Esel & Ebn & Hbest & _); try assumption.
    { apply final_c_pos. }
    eauto 10.
Qed.

(** [take_action] returns: the sentinel when the root has no child, the
    move of a child of the root otherwise. *)
Lemma take_action_ok (a : MCTSplayer) state :
  who a = black \/ who a = white ->
  exists f0 act a' h0 h' rt,
    (forall fuel, f0 <= fuel ->
       search fuel a state = Ret (a', h') /\
       take_action fuel a state = Ret (act, a')) /\
    new_root a = Ret h0 /\ loop_inv 0 h0 /\
    passes state a h0 (Z.to_nat (simulation_times a)) a' h' /\
    loop_inv (Z.to_nat (simulation_times a)) h' /\
    h' !! root_ptr = Some rt /\
    ((children rt = [] /\ act = no_action) \/
     (exists b bn, b ∈ children rt /\ h' !! b = Some bn /\
        act = as_action (node_move bn))).
Proof.
  intros Hwho.
  destruct (search_passes a state Hwho) as (h0 & E0 & Hinit & Hrun).
  destruct (Hrun (Z.to_nat (simulation_times a))) as (f0 & a' & h' & Erun & Hp & Hloop).
  destruct (final_choice _ h' state Hloop)
    as (rt & Ert & [(Hnil & Esel) | (Hne & i & b & bn & Esel & Ebn & Hbest)]).
  - exists f0, no_action, a', h0, h', rt. split; [|auto 10].
    intros fuel Hfuel. specialize (Erun fuel Hfuel).
    unfold take_action, search. rewrite Erun. split; [reflexivity|].
    rewrite bind_Ret. simpl. rewrite Esel, bind_Ret. reflexivity.
  - exists f0, (as_action (node_move bn)), a', h0, h', rt.
    split; [|do 5 (split; [assumption|])].
    + intros fuel Hfuel. specialize (Erun fuel Hfuel).
      unfold take_action, search. rewrite Erun. split; [reflexivity|].
      rewrite bind_Ret. simpl. rewrite Esel, bind_Ret. simpl.
      rewrite (deref_Some _ _ _ Ebn), bind_Ret. reflexivity.
    + right. exists b, bn. split; [|auto].
      destruct Hbest as (Ei & _). apply list_elem_of_lookup. eauto.
Qed.

(** A constructed agent plays black or white. *)
Lemma MCTSplayer_new_sided o (a : MCTSplayer) :
  MCTSplayer_new o = Some a -> who a = black \/ who a = white.
Proof.
  unfold MCTSplayer_new. destruct (find_first_of _ _); [discriminate|].
  destruct (String.eqb (opt_role o) "white"), (String.eqb (opt_role o) "black");
    intros [= <-]; simpl; auto.
Qed.

(** ** The counters *)

Lemma alloc_counters (h : heap) :
  Forall counters_ok h -> Forall counters_ok (h ++ [new_Node]).
Proof.
  intros Hh. apply Forall_app. split; [assumption|].
  constructor; [|constructor]. unfold counters_ok. simpl. lia.
Qed.

Lemma expand_loop_counters state node : forall moves (h h' : heap),
  Forall counters_ok h -> expand_loop moves h state node = Ret h' ->
  Forall counters_ok h'.
Proof.
  induction moves as [|mv rest IH]; intros h h' Hh E.
  - injection E as <-. assumption.
  - simpl in E. apply bind_inv in E as (nd & _ & E).
    apply bind_inv in E as (pl & _ & E).
    destruct (board_place state (position mv)).1.
    + apply IH in E; [assumption|].
      apply Forall_alter; [|intros x _ Hx; exact Hx].
      apply Forall_alter; [|intros x _ Hx; exact Hx].
      apply alloc_counters. assumption.
    + apply IH in E; [assumption|]. apply alloc_counters. assumption.
Qed.

Lemma expand_counters (a : MCTSplayer) (h : heap) state node flag a' h' :
  Forall counters_ok h -> expand a h state node = Ret (flag, a', h') ->
  Forall counters_ok h'.
Proof.
  intros Hh. unfold expand. destruct (shuffle (space a) (rng a)) as [sp g].
  intros E. apply bind_inv in E as (h1 & E1 & E).
  apply bind_inv in E as (nd & _ & E). injection E as _ _ <-.
  eapply expand_loop_counters; eassumption.
Qed.

Lemma visit_step_counters result p (h : heap) :
  (result = 0 \/ result = 1)%Z -> Forall counters_ok h ->
  Forall counters_ok (alter (visit result) p h).
Proof.
  intros Hr Hh. apply Forall_alter; [assumption|].
  intros x _ Hx. apply visit_counters_ok; [lia | assumption].
Qed.

Lemma backprop_loop_counters result : forall fuel (h : heap) node h',
  (result = 0 \/ result = 1)%Z -> Forall counters_ok h ->
  backprop_loop fuel h node result = Ret h' -> Forall counters_ok h'.
Proof.
  induction fuel as [|fuel IH]; intros h node h' Hr Hh E.
  - destruct node; [discriminate|]. injection E as <-. assumption.
  - destruct node as [p|]; [|injection E as <-; assumption].
    simpl in E. apply bind_inv in E as (nd & _ & E).
    apply IH in E; [assumption | assumption |].
    apply visit_step_counters; assumption.
Qed.

Lemma tree_counters (h : heap) : tree_inv h -> Forall counters_ok h.
Proof.
  intros Hinv. apply Forall_lookup. intros i x E.
  eapply inv_counters; eassumption.
Qed.

End DecisionFacts.

(** ** Bounds on ln 11 *)

Section Ln11.
Local Open Scope R_scope.

Lemma ln_11_bounds : 2 < ln 11 < 4.
Proof.
  pose proof exp_le_3 as H3.
  pose proof (exp_pos 1) as Hp.
  assert (H2 : 1 + 1 < exp 1) by (apply exp_ineq1; lra).
  assert (Hexp2 : exp 2 = exp 1 * exp 1).
  { replace 2 with (1 + 1) by lra. apply exp_plus. }
  assert (Hexp4 : exp 4 = exp 2 * exp 2).
  { replace 4 with (2 + 2) by lra. apply exp_plus. }
  split.
  - rewrite <- (ln_exp 2). apply ln_increasing; [apply exp_pos|]. nra.
  - rewrite <- (ln_exp 4). apply ln_increasing; [lra|].
    assert (4 < exp 2) by nra. nra.
Qed.

(** The exploration terms of the two children of [Rows.lopsided]. *)
Lemma sqrt_ln_11 :
  R_sqrt.sqrt (ln 11 / 1) = 3 * R_sqrt.sqrt (ln 11 / 9) /\
  0 <= R_sqrt.sqrt (ln 11 / 9) /\
  R_sqrt.sqrt (ln 11 / 9) * R_sqrt.sqrt (ln 11 / 9) = ln 11 / 9.
Proof.
  pose proof ln_11_bounds as [Hlo Hhi].
  split; [|split; [apply sqrt_pos | apply sqrt_sqrt; lra]].
  replace (ln 11 / 1) with (3 * 3 * (ln 11 / 9)) by lra.
  rewrite sqrt_mult by lra. rewrite sqrt_square by lra. reflexivity.
Qed.

End Ln11.

(** ** The loop of [select_child] over given scores *)

Section ScoreLoopFacts.
Context `{RandomAPI}.

Lemma best_by_cons score (h : heap) ch nd rest max_score best :
  h !! ch = Some nd ->
  best_by score h (ch :: rest) max_score best =
    if gtb (score nd) max_score
    then best_by score h rest (score nd) (Some ch)
    else best_by score h rest max_score best.
Proof. intros E. simpl. rewrite (deref_Some _ _ _ E), bind_Ret. reflexivity. Qed.

(** With the scores of the model the loop is [best_of]. *)
Lemma best_of_by (h : heap) root rt c chs : forall max_score best,
  h !! root = Some rt ->
  best_of h root c chs max_score best
    = best_by (uct_score c (n rt)) h chs max_score best.
Proof.
  induction chs as [|ch rest IH]; intros max_score best Hroot; [reflexivity|].
  destruct (h !! ch) as [nd|] eqn:E.
  - rewrite (best_of_cons h root rt c Hroot _ _ _ _ _ E).
    rewrite (best_by_cons _ _ _ _ _ _ _ E).
    destruct (gtb _ _); apply IH; assumption.
  - simpl. unfold deref. rewrite E. reflexivity.
Qed.

Lemma select_child_by_uct (h : heap) state node root rt c :
  h !! root = Some rt ->
  select_child h state node root c
    = select_child_by (uct_score c (n rt)) h state node.
Proof.
  intros Hroot. unfold select_child, select_child_by.
  destruct (deref h node) as [nd|e]; [|reflexivity]. rewrite !bind_Ret.
  destruct (bool_decide (children nd = [])); [reflexivity|].
  rewrite (best_of_by h root rt c _ _ _ Hroot). reflexivity.
Qed.

(** What the loop returns: the running best, when no score exceeds the
    running maximum; otherwise the child at some position [i] whose score
    exceeds the running maximum, is strictly above the score of every child
    before it (unless that is NaN) and is exceeded by none after it. *)
Lemma best_by_char score (h : heap) chs : forall max_score best,
  max_score <> NaN ->
  Forall (fun ch => is_Some (h !! ch)) chs ->
  exists r, best_by score h chs max_score best = Ret r /\
    ((r = best /\
      forall ch cn, ch ∈ chs -> h !! ch = Some cn ->
        gtb (score cn) max_score = false)
     \/
     (exists i b bn, r = Some b /\ chs !! i = Some b /\ h !! b = Some bn /\
        gtb (score bn) max_score = true /\
        (forall k ck cn, k < i -> chs !! k = Some ck -> h !! ck = Some cn ->
           gtb (score bn) (score cn) = true \/ score cn = NaN) /\
        (forall k ck cn, i < k -> chs !! k = Some ck -> h !! ck = Some cn ->
           gtb (score cn) (score bn) = false))).
Proof.
  induction chs as [|ch rest IH]; intros max_score best Hmax Hall.
  - exists best. split; [reflexivity|]. left. split; [reflexivity|].
    intros ch cn Hin. inversion Hin.
  - apply Forall_cons in Hall as [[nd End] Hrest].
    rewrite (best_by_cons _ _ _ _ _ _ _ End).
    destruct (gtb (score nd) max_score) eqn:Hgt.
    + destruct (IH (score nd) (Some ch) (gtb_not_nan_l _ _ Hgt) Hrest)
        as (r & Er & [[-> Hle] | (i & b & bn & -> & Ei & Ebn & Hb & Hbefore & Hafter)]).
      * exists (Some ch). split; [assumption|]. right.
        exists 0, ch, nd. split; [reflexivity|]. split; [reflexivity|].
        split; [assumption|]. split; [assumption|]. split.
        -- intros k ck cn Hk. lia.
        -- intros k ck cn Hk Eck Ecn. destruct k as [|k]; [lia|].
           simpl in Eck. apply (Hle ck cn); [|assumption].
           apply list_elem_of_lookup. eauto.
      * exists (Some b). split; [assumption|]. right.
        exists (S i), b, bn. split; [reflexivity|]. split; [exact Ei|].
        split; [assumption|]. split; [exact (gtb_trans _ _ _ Hb Hgt)|]. split.
        -- intros k ck cn Hk Eck Ecn. destruct k as [|k].
           ++ simpl in Eck. assert (cn = nd) by congruence. subst cn.
              left. exact Hb.
           ++ simpl in Eck. apply (Hbefore k ck cn); [lia | assumption..].
        -- intros k ck cn Hk Eck Ecn. destruct k as [|k]; [lia|].
           simpl in Eck. apply (Hafter k ck cn); [lia | assumption..].
    + destruct (IH max_score best Hmax Hrest)
        as (r & Er & [[-> Hle] | (i & b & bn & -> & Ei & Ebn & Hb & Hbefore & Hafter)]).
      * exists best. split; [assumption|]. left. split; [reflexivity|].
        intros ch' cn Hin Ecn. apply elem_of_cons in Hin as [->|Hin].
        -- assert (cn = nd) by congruence. subst cn. exact Hgt.
        -- eapply Hle; eassumption.
      * exists (Some b). split; [assumption|]. right.
        exists (S i), b, bn. split; [reflexivity|]. split; [exact Ei|].
        split; [assumption|]. split; [assumption|]. split.
        -- intros k ck cn Hk Eck Ecn. destruct k as [|k].
           ++ simpl in Eck. assert (cn = nd) by congruence. subst cn.
              destruct (score nd) eqn:Es; [left | left | left | right; reflexivity];
                (eapply gtb_below; [exact Hgt | discriminate | exact Hmax | exact Hb]).
           ++ simpl in Eck. apply (Hbefore k ck cn); [lia | assumption..].
        -- intros k ck cn Hk Eck Ecn. destruct k as [|k]; [lia|].
           simpl in Eck. apply (Hafter k ck cn); [lia | assumption..].
Qed.

(** [select_child_by] returns a child exactly when some score exceeds the
    initial maximum -1, and then the child [best_by_char] describes. *)
Lemma select_child_by_char score (h : heap) state node nd :
  h !! node = Some nd -> children nd <> [] ->
  Forall (fun ch => is_Some (h !! ch)) (children nd) ->
  (select_child_by score h state node = Fault Indeterminate /\
   forall ch cn, ch ∈ children nd -> h !! ch = Some cn ->
     gtb (score cn) (Fin (-1)) = false)
  \/
  (exists i b bn,
     select_child_by score h state node
       = Ret (Some b, (board_place state (position (node_move bn))).2) /\
     children nd !! i = Some b /\ h !! b = Some bn /\
     gtb (score bn) (Fin (-1)) = true /\
     (forall k ck cn, k < i -> children nd !! k = Some ck -> h !! ck = Some cn ->
        gtb (score bn) (score cn) = true \/ score cn = NaN) /\
     (forall k ck cn, i < k -> children nd !! k = Some ck -> h !! ck = Some cn ->
        gtb (score cn) (score bn) = false)).
Proof.
  intros E Hne Hall. unfold select_child_by.
  rewrite (deref_Some _ _ _ E), bind_Ret.
  rewrite bool_decide_eq_false_2 by assumption.
  destruct (best_by_char score h (children nd) (Fin (-1)) None)
    as (r & Er & [[-> Hle] | (i & b & bn & -> & Ei & Ebn & Hb & Hbefore & Hafter)]);
    [discriminate | assumption | |]; rewrite Er, bind_Ret.
  - left. split; [reflexivity | assumption].
  - right. exists i, b, bn. rewrite (deref_Some _ _ _ Ebn), bind_Ret.
    repeat split; assumption.
Qed.

End ScoreLoopFacts.

(** ** The two embeddings side by side *)

Section LayoutFacts.
Context `{RandomAPI}.
Implicit Types (ρ : nat -> nat) (h : list Node) (s : gmap nat Node).

Lemma deref_inv h i nd : deref h i = Ret nd -> h !! i = Some nd.
Proof. unfold deref. destruct (h !! i); [intros [= ->]; reflexivity | discriminate]. Qed.

Lemma size_alter s (g : Node -> Node) k : size (alter g k s) = size s.
Proof.
  rewrite <- (size_dom (D := gset nat) (alter g k s)).
  rewrite <- (size_dom (D := gset nat) s).
  rewrite dom_alter_L. reflexivity.
Qed.

Lemma closed_node_mono k k' nd : closed_node k nd -> k <= k' -> closed_node k' nd.
Proof.
  intros [Hp Hc] Hle. split.
  - intros p Ep. specialize (Hp p Ep). lia.
  - eapply Forall_impl; [exact Hc|]. simpl. intros ch Hch. lia.
Qed.

Lemma rename_agree k ρ ρ' nd :
  closed_node k nd -> agree k ρ ρ' -> rename ρ' nd = rename ρ nd.
Proof.
  intros [Hp Hc] Hag. unfold rename. f_equal.
  - destruct (parent nd) as [p|]; [|reflexivity].
    simpl. f_equal. apply Hag, Hp. reflexivity.
  - apply Forall_fmap_ext_1. eapply Forall_impl; [exact Hc|].
    simpl. intros ch Hch. apply Hag. exact Hch.
Qed.

Lemma agree_refl k ρ : agree k ρ ρ.
Proof. intros i _. reflexivity. Qed.

Lemma agree_trans k k' ρ1 ρ2 ρ3 :
  agree k ρ1 ρ2 -> agree k' ρ2 ρ3 -> k <= k' -> agree k ρ1 ρ3.
Proof. intros H12 H23 Hle i Hi. rewrite H23 by lia. apply H12. exact Hi. Qed.

Lemma load_layout ρ h s i nd :
  layout ρ h s -> h !! i = Some nd -> Machine.load s (ρ i) = Ret (rename ρ nd).
Proof.
  intros L E. unfold Machine.load. rewrite (layout_lookup _ _ _ L _ _ E). reflexivity.
Qed.

(** A field update at an allocated node, done on both sides. *)
Lemma alter_layout ρ h s i (f g : Node -> Node) :
  layout ρ h s -> i < length h ->
  (forall nd, h !! i = Some nd ->
     closed_node (length h) (f nd) /\ rename ρ (f nd) = g (rename ρ nd)) ->
  layout ρ (alter f i h) (alter g (ρ i) s).
Proof.
  intros L Hi Hfg. split.
  - intros j nd' E. destruct (decide (i = j)) as [<- | Hne].
    + rewrite list_lookup_alter_eq in E.
      destruct (h !! i) as [nd|] eqn:Ei; [|discriminate]. injection E as <-.
      rewrite lookup_alter_eq, (layout_lookup _ _ _ L _ _ Ei). simpl.
      f_equal. symmetry. apply (Hfg nd eq_refl).
    + rewrite list_lookup_alter_ne in E by assumption.
      rewrite lookup_alter_ne; [apply (layout_lookup _ _ _ L); assumption|].
      intros Heq. apply Hne. apply (layout_inj _ _ _ L); [assumption | | assumption].
      eapply lookup_lt_Some; eassumption.
  - rewrite length_alter. apply (layout_inj _ _ _ L).
  - rewrite size_alter, length_alter. apply (layout_size _ _ _ L).
  - intros j nd' E. rewrite length_alter. destruct (decide (i = j)) as [<- | Hne].
    + rewrite list_lookup_alter_eq in E.
      destruct (h !! i) as [nd|] eqn:Ei; [|discriminate]. injection E as <-.
      apply (Hfg nd eq_refl).
    + rewrite list_lookup_alter_ne in E by assumption.
      apply (layout_closed _ _ _ L j). assumption.
Qed.

(** An allocation, done on both sides: the new node goes where the
    allocator says. *)
Lemma alloc_layout ρ h s p :
  layout ρ h s -> s !! p = None ->
  layout (place_at ρ (length h) p) (h ++ [new_Node]) (<[p := new_Node]> s) /\
  agree (length h) ρ (place_at ρ (length h) p).
Proof.
  intros L Hp.
  assert (Hag : agree (length h) ρ (place_at ρ (length h) p)).
  { intros i Hi. unfold place_at. destruct (decide (i = length h)); [lia | reflexivity]. }
  split; [|exact Hag]. split.
  - intros i nd E. destruct (decide (i < length h)) as [Hi | Hi].
    + rewrite lookup_app_l in E by assumption.
      rewrite (Hag i Hi).
      rewrite (rename_agree (length h) ρ _ nd (layout_closed _ _ _ L _ _ E) Hag).
      pose proof (layout_lookup _ _ _ L _ _ E) as Es.
      rewrite lookup_insert_ne; [exact Es|]. intros ->. congruence.
    + rewrite lookup_app_r in E by lia.
      destruct (i - length h) as [|k] eqn:Ek; simpl in E; [|destruct k; discriminate].
      injection E as <-. assert (i = length h) as -> by lia.
      unfold place_at at 1. rewrite decide_True by reflexivity.
      rewrite lookup_insert_eq. reflexivity.
  - intros i j Hi Hj. rewrite length_app in Hi, Hj. simpl in Hi, Hj.
    unfold place_at.
    destruct (decide (i = length h)) as [-> | Hni], (decide (j = length h)) as [-> | Hnj];
      intros Heq; [reflexivity | exfalso | exfalso |].
    + destruct (lookup_lt_is_Some_2 h j) as [nd E]; [lia|].
      pose proof (layout_lookup _ _ _ L _ _ E) as Es. congruence.
    + destruct (lookup_lt_is_Some_2 h i) as [nd E]; [lia|].
      pose proof (layout_lookup _ _ _ L _ _ E) as Es. congruence.
    + apply (layout_inj _ _ _ L); [lia | lia | assumption].
  - rewrite map_size_insert_None by assumption.
    rewrite length_app, (layout_size _ _ _ L). simpl. lia.
  - intros i nd E. rewrite length_app. simpl.
    destruct (decide (i < length h)) as [Hi | Hi].
    + rewrite lookup_app_l in E by assumption.
      eapply closed_node_mono; [apply (layout_closed _ _ _ L i); assumption | lia].
    + rewrite lookup_app_r in E by lia.
      destruct (i - length h) as [|k] eqn:Ek; simpl in E; [|destruct k; discriminate].
      injection E as <-. split; [discriminate | constructor].
Qed.

Lemma reverse_player_layout wd side pl :
  reverse_player side = Ret pl -> Machine.reverse_player wd side = pl.
Proof. destruct side; simpl; congruence. Qed.

(** *** select_child and select *)

Lemma best_of_layout ρ h s root c chs : forall m b r,
  layout ρ h s ->
  best_of h root c chs m b = Ret r ->
  Machine.best_of s (ρ root) c (ρ <$> chs) m (ρ <$> b) = Ret (ρ <$> r).
Proof.
  induction chs as [|ch rest IH]; intros m b r L E.
  - injection E as <-. reflexivity.
  - simpl in E. apply bind_inv in E as (child & Ec & E). apply deref_inv in Ec.
    rewrite fmap_cons. simpl.
    rewrite (load_layout _ _ _ _ _ L Ec), bind_Ret.
    change (is_unvisited (rename ρ child)) with (is_unvisited child).
    apply bind_inv in E as (uct & Eu & E).
    assert (Eu' : (if is_unvisited child then Ret (Fin DBL_MAX)
                   else rt ← Machine.load s (ρ root);
                        Ret (uct_visited c (n rt) (rename ρ child))) = Ret uct).
    { destruct (is_unvisited child); [exact Eu|].
      apply bind_inv in Eu as (rt & Ert & Eu). apply deref_inv in Ert.
      rewrite (load_layout _ _ _ _ _ L Ert), bind_Ret. exact Eu. }
    rewrite Eu', bind_Ret.
    destruct (gtb uct m); [apply (IH uct (Some ch)) | apply IH]; assumption.
Qed.

Lemma select_child_layout wd ρ h s state node root c r state' :
  layout ρ h s ->
  select_child h state node root c = Ret (r, state') ->
  Machine.select_child wd s state (ρ node) (ρ root) c = Ret (ρ <$> r, state').
Proof.
  intros L E. unfold select_child in E. unfold Machine.select_child.
  apply bind_inv in E as (nd & End & E). apply deref_inv in End.
  rewrite (load_layout _ _ _ _ _ L End), bind_Ret.
  change (children (rename ρ nd)) with (ρ <$> children nd).
  destruct (children nd) as [|ch rest] eqn:Ecs.
  - simpl in *. injection E as <- <-. reflexivity.
  - rewrite bool_decide_eq_false_2 in E by discriminate.
    rewrite bool_decide_eq_false_2 by discriminate.
    apply bind_inv in E as (best & Eb & E).
    pose proof (best_of_layout ρ h s root c (ch :: rest) _ None best L Eb) as Eb'.
    change (ρ <$> None) with (@None nat) in Eb'. rewrite Eb', bind_Ret.
    destruct best as [b|]; [|discriminate]. simpl.
    apply bind_inv in E as (bc & Ebc & E). apply deref_inv in Ebc.
    rewrite (load_layout _ _ _ _ _ L Ebc), bind_Ret.
    injection E as <- <-. reflexivity.
Qed.

Lemma select_loop_layout wd ρ h s root : forall fuel state node leaf state',
  layout ρ h s ->
  select_loop fuel h state node root = Ret (leaf, state') ->
  Machine.select_loop wd fuel s state (ρ node) (ρ root) = Ret (ρ leaf, state').
Proof.
  induction fuel as [|fuel IH]; intros state node leaf state' L E.
  - simpl in *. apply bind_inv in E as (nd & End & E). apply deref_inv in End.
    rewrite (load_layout _ _ _ _ _ L End), bind_Ret.
    change (children (rename ρ nd)) with (ρ <$> children nd).
    destruct (children nd); simpl in *; [|discriminate].
    injection E as <- <-. reflexivity.
  - simpl in *. apply bind_inv in E as (nd & End & E). apply deref_inv in End.
    rewrite (load_layout _ _ _ _ _ L End), bind_Ret.
    change (children (rename ρ nd)) with (ρ <$> children nd).
    destruct (children nd) as [|ch rest] eqn:Ecs.
    + simpl in *. injection E as <- <-. reflexivity.
    + rewrite bool_decide_eq_false_2 in E by discriminate.
      rewrite bool_decide_eq_false_2 by discriminate.
      apply bind_inv in E as ([next st1] & Esel & E).
      rewrite (select_child_layout wd ρ h s state node root select_c next st1 L Esel).
      rewrite bind_Ret. destruct next as [node'|]; [|discriminate].
      simpl. apply IH; assumption.
Qed.

(** *** expand *)

Lemma expand_loop_layout wd state node : forall moves ρ h s h',
  Machine.sound wd -> layout ρ h s -> node < length h ->
  expand_loop moves h state node = Ret h' ->
  exists ρ' s',
    Machine.expand_loop wd moves s state (ρ node) = Ret s' /\
    layout ρ' h' s' /\ agree (length h) ρ ρ' /\ length h <= length h'.
Proof.
  induction moves as [|mv rest IH]; intros ρ h s h' Hwd L Hnode E.
  - injection E as <-. exists ρ, s. split; [reflexivity|].
    split; [assumption|]. split; [apply agree_refl | lia].
  - simpl in E. apply bind_inv in E as (nd & End & E). apply deref_inv in End.
    unfold alloc in E. apply bind_inv in E as (pl & Epl & E).
    set (p := Machine.new_address wd s).
    destruct (alloc_layout ρ h s p L (Hwd s)) as [L1 Hag1].
    set (ρ1 := place_at ρ (length h) p) in *.
    set (h1 := h ++ [new_Node]) in *.
    set (s1 := <[p := new_Node]> s) in *.
    assert (Hlen1 : length h1 = S (length h))
      by (unfold h1; rewrite length_app; simpl; lia).
    assert (End1 : h1 !! node = Some nd) by (apply lookup_app_l_Some; assumption).
    assert (Eρ : ρ1 node = ρ node) by (apply Hag1; assumption).
    assert (Eρp : ρ1 (length h) = p)
      by (unfold ρ1, place_at; rewrite decide_True by reflexivity; reflexivity).
    simpl. fold p. fold s1.
    rewrite <- Eρ. rewrite (load_layout _ _ _ _ _ L1 End1), bind_Ret.
    change (placer (rename ρ1 nd)) with (placer nd).
    rewrite (reverse_player_layout wd _ _ Epl).
    destruct (board_place state (position mv)).1.
    + assert (L2 : layout ρ1 (alter (set_child mv pl node) (length h) h1)
                     (alter (set_child mv pl (ρ1 node)) (ρ1 (length h)) s1)).
      { apply alter_layout; [assumption | lia |].
        intros x Ex. split; [|reflexivity].
        destruct (layout_closed _ _ _ L1 _ _ Ex) as [_ Hc].
        split; [|exact Hc]. simpl. intros q [= <-]. lia. }
      rewrite Eρp in L2.
      assert (L3 : layout ρ1
                (alter (add_child (length h)) node
                   (alter (set_child mv pl node) (length h) h1))
                (alter (add_child p) (ρ1 node)
                   (alter (set_child mv pl (ρ1 node)) p s1))).
      { apply alter_layout; [assumption | rewrite length_alter; lia |].
        intros x Ex. rewrite length_alter. split.
        - destruct (layout_closed _ _ _ L2 _ _ Ex) as [Hp Hc].
          rewrite length_alter in Hp, Hc. split; [exact Hp|]. simpl.
          apply Forall_app. split; [exact Hc|]. constructor; [lia | constructor].
        - unfold rename, add_child. simpl. rewrite fmap_app. simpl.
          rewrite Eρp. reflexivity. }
      destruct (IH ρ1 _ _ h' Hwd L3) as (ρ' & s' & E' & L' & Hag' & Hle'); [| exact E |].
      { rewrite !length_alter. lia. }
      rewrite !length_alter in Hag', Hle'.
      exists ρ', s'. split; [exact E'|]. split; [assumption|]. split; [|lia].
      eapply agree_trans; [exact Hag1 | exact Hag' | lia].
    + destruct (IH ρ1 _ _ h' Hwd L1) as (ρ' & s' & E' & L' & Hag' & Hle'); [| exact E |].
      { lia. }
      exists ρ', s'. split; [exact E'|]. split; [assumption|]. split; [|lia].
      eapply agree_trans; [exact Hag1 | exact Hag' | lia].
Qed.

(** *** backpropagation *)

Lemma backprop_loop_layout ρ result : forall fuel h s node h',
  layout ρ h s ->
  backprop_loop fuel h node result = Ret h' ->
  exists s',
    Machine.backprop_loop fuel s (ρ <$> node) result = Ret s' /\
    layout ρ h' s' /\ length h' = length h.
Proof.
  induction fuel as [|fuel IH]; intros h s node h' L E.
  - destruct node as [p|]; [discriminate|]. injection E as <-.
    exists s. auto.
  - destruct node as [p|]; [|injection E as <-; exists s; auto].
    simpl in E. apply bind_inv in E as (nd & End & E). apply deref_inv in End.
    assert (L1 : layout ρ (alter (visit result) p h) (alter (visit result) (ρ p) s)).
    { apply alter_layout; [assumption | eapply lookup_lt_Some; eassumption |].
      intros x Ex. split; [|reflexivity]. apply (layout_closed _ _ _ L p x Ex). }
    destruct (IH _ _ (parent nd) h' L1 E) as (s' & E' & L' & Hlen).
    rewrite length_alter in Hlen.
    exists s'. split; [|auto]. simpl.
    rewrite (load_layout _ _ _ _ _ L End), bind_Ret. exact E'.
Qed.

(** *** One pass, and the decision *)

Lemma select_layout wd ρ h s state leaf state' :
  layout ρ h s ->
  select h state root_ptr = Ret (leaf, state') ->
  Machine.select wd s state (ρ root_ptr) = Ret (ρ leaf, state').
Proof.
  intros L E. unfold Machine.select. rewrite (layout_size _ _ _ L).
  apply (select_loop_layout wd ρ h s root_ptr); assumption.
Qed.

Lemma expand_layout wd ρ h s a state node flag a1 h1 :
  Machine.sound wd -> layout ρ h s -> node < length h ->
  expand a h state node = Ret (flag, a1, h1) ->
  exists ρ' s1,
    Machine.expand wd a s state (ρ node) = Ret (flag, a1, s1) /\
    layout ρ' h1 s1 /\ agree (length h) ρ ρ' /\ length h <= length h1.
Proof.
  intros Hwd L Hnode E. unfold expand in E. unfold Machine.expand.
  destruct (shuffle (space a) (rng a)) as [sp g].
  apply bind_inv in E as (h' & Eloop & E).
  apply bind_inv in E as (nd & End & E). apply deref_inv in End.
  injection E as <- <- <-.
  destruct (expand_loop_layout wd state node sp ρ h s h' Hwd L Hnode Eloop)
    as (ρ' & s' & E' & L' & Hag & Hle).
  exists ρ', s'. rewrite E', bind_Ret.
  rewrite <- (Hag node Hnode).
  rewrite (load_layout _ _ _ _ _ L' End), bind_Ret.
  change (children (rename ρ' nd)) with (ρ' <$> children nd).
  split; [|auto]. destruct (children nd); reflexivity.
Qed.

Lemma backpropagation_layout ρ h s node result flag h' :
  layout ρ h s ->
  backpropagation h (Some node) result = Ret (flag, h') ->
  exists s',
    Machine.backpropagation s (Some (ρ node)) result = Ret (flag, s') /\
    layout ρ h' s' /\ length h' = length h.
Proof.
  intros L E. unfold backpropagation in E. unfold Machine.backpropagation.
  apply bind_inv in E as (h1 & Eloop & E). injection E as <- <-.
  destruct (backprop_loop_layout ρ result _ h s (Some node) h1 L Eloop)
    as (s' & E' & L' & Hlen).
  exists s'. rewrite (layout_size _ _ _ L). simpl in E'. rewrite E', bind_Ret. auto.
Qed.

Lemma iteration_layout wd fuel state ρ h s a a2 h2 :
  Machine.sound wd -> layout ρ h s ->
  iteration fuel state (a, h) = Ret (a2, h2) ->
  exists ρ' s2,
    Machine.iteration wd fuel state (ρ root_ptr) (a, s) = Ret (a2, s2) /\
    layout ρ' h2 s2 /\ ρ' root_ptr = ρ root_ptr.
Proof.
  intros Hwd L E. unfold iteration in E. unfold Machine.iteration.
  apply bind_inv in E as ([cur board1] & Esel & E).
  assert (Hroot : root_ptr < length h).
  { unfold select in Esel. destruct (length h) as [|k] eqn:Hk; [|unfold root_ptr; lia].
    simpl in Esel. apply bind_inv in Esel as (nd & End & _).
    apply deref_inv, lookup_lt_Some in End. unfold root_ptr in *. lia. }
  rewrite (select_layout wd ρ h s state cur board1 L Esel), bind_Ret.
  apply bind_inv in E as (cn & Ecn & E). apply deref_inv in Ecn.
  assert (Hcur : cur < length h) by (eapply lookup_lt_Some; eassumption).
  rewrite (load_layout _ _ _ _ _ L Ecn), bind_Ret.
  change (n (rename ρ cn)) with (n cn).
  apply bind_inv in E as ([[a1 h1] board2] & Emid & E).
  assert (Hmid : exists ρ1 s1,
    (if (n cn =? 0)%Z
     then '(_, a1', s1') ← Machine.expand wd a s board1 (ρ cur);
          cn1 ← Machine.load s1' (ρ cur);
          Ret (a1', s1', move_apply (node_move cn1) board1)
     else Ret (a, s, board1)) = Ret (a1, s1, board2) /\
    layout ρ1 h1 s1 /\ agree (length h) ρ ρ1 /\ length h <= length h1).
  { destruct (n cn =? 0)%Z.
    - apply bind_inv in Emid as ([[flag a1'] h1'] & Eexp & Emid).
      apply bind_inv in Emid as (cn1 & Ecn1 & Emid). apply deref_inv in Ecn1.
      injection Emid as <- <- <-.
      destruct (expand_layout wd ρ h s a board1 cur flag a1' h1' Hwd L Hcur Eexp)
        as (ρ1 & s1 & E1 & L1 & Hag & Hle).
      exists ρ1, s1. rewrite E1, bind_Ret.
      rewrite <- (Hag cur Hcur).
      rewrite (load_layout _ _ _ _ _ L1 Ecn1), bind_Ret.
      auto.
    - injection Emid as <- <- <-. exists ρ, s.
      split; [reflexivity|]. split; [assumption|]. split; [apply agree_refl | lia]. }
  destruct Hmid as (ρ1 & s1 & Emid' & L1 & Hag & Hle).
  rewrite Emid', bind_Ret.
  apply bind_inv in E as ([result a2'] & Esim & E).
  rewrite Esim, bind_Ret.
  apply bind_inv in E as ([flag h2'] & Eback & E). injection E as <- <-.
  destruct (backpropagation_layout ρ1 h1 s1 cur result flag h2' L1 Eback)
    as (s2 & E2 & L2 & _).
  exists ρ1, s2. rewrite <- (Hag cur Hcur), E2, bind_Ret.
  split; [reflexivity|]. split; [assumption|]. apply Hag. exact Hroot.
Qed.

Lemma iterations_layout wd fuel state : forall k ρ h s a a' h',
  Machine.sound wd -> layout ρ h s ->
  iterations fuel k state (a, h) = Ret (a', h') ->
  exists ρ' s',
    Machine.iterations wd fuel k state (ρ root_ptr) (a, s) = Ret (a', s') /\
    layout ρ' h' s' /\ ρ' root_ptr = ρ root_ptr.
Proof.
  induction k as [|k IH]; intros ρ h s a a' h' Hwd L E.
  - injection E as <- <-. exists ρ, s. auto.
  - simpl in E. apply bind_inv in E as ([a1 h1] & Ek & E).
    destruct (IH ρ h s a a1 h1 Hwd L Ek) as (ρ1 & s1 & E1 & L1 & Hroot1).
    destruct (iteration_layout wd fuel state ρ1 h1 s1 a1 a' h' Hwd L1 E)
      as (ρ' & s' & E' & L' & Hroot').
    exists ρ', s'. simpl. rewrite E1, bind_Ret. rewrite <- Hroot1.
    split; [exact E'|]. split; [assumption|]. congruence.
Qed.

(** The fresh root, wherever the allocator puts it. *)
Lemma new_root_layout wd (a : MCTSplayer) h0 :
  new_root a = Ret h0 ->
  layout (fun _ => (Machine.new_root wd a).1) h0 (Machine.new_root wd a).2.
Proof.
  unfold new_root, Machine.new_root. intros E.
  apply bind_inv in E as (pl & Epl & E). injection E as <-.
  rewrite (reverse_player_layout wd _ _ Epl). simpl.
  split.
  - intros i nd E. destruct i as [|i]; simpl in E; [|discriminate].
    injection E as <-. rewrite lookup_singleton_eq. reflexivity.
  - simpl. intros i j Hi Hj _. lia.
  - apply map_size_singleton.
  - intros i nd E. destruct i as [|i]; simpl in E; [|discriminate].
    injection E as <-. split; [discriminate | constructor].
Qed.

(** Whatever addresses the allocator hands out and whatever unassigned
    variables hold, the machine returns what the embedding by allocation
    numbers returns. *)
Lemma take_action_layout wd fuel (a : MCTSplayer) state act a' :
  Machine.sound wd ->
  take_action fuel a state = Ret (act, a') ->
  Machine.take_action wd fuel a state = Ret (act, a').
Proof.
  intros Hwd E. unfold take_action, search in E. unfold Machine.take_action.
  apply bind_inv in E as ([a1 h] & Esearch & E).
  apply bind_inv in Esearch as (h0 & E0 & Eiter).
  pose proof (new_root_layout wd a h0 E0) as L0.
  destruct (Machine.new_root wd a) as [root s0]. simpl in L0.
  destruct (iterations_layout wd fuel state _ _ h0 s0 a a1 h Hwd L0 Eiter)
    as (ρ & s & E1 & L & Hroot).
  simpl in E1, Hroot. rewrite E1, bind_Ret.
  apply bind_inv in E as ([best st] & Esel & E).
  pose proof (select_child_layout wd ρ h s state root_ptr root_ptr final_c best st L Esel)
    as Esel'.
  rewrite Hroot in Esel'. rewrite Esel', bind_Ret.
  destruct best as [b|]; simpl.
  - apply bind_inv in E as (bn & Ebn & E). apply deref_inv in Ebn.
    rewrite (load_layout _ _ _ _ _ L Ebn), bind_Ret. exact E.
  - exact E.
Qed.

End LayoutFacts.

Module RowsMachineFacts.
Import Rows RowsMachine.

Lemma low_sound : Machine.sound low.
Proof.
  intros s. apply not_elem_of_dom. apply (is_fresh (dom s : gset nat)).
Qed.

Lemma high_sound : Machine.sound high.
Proof.
  intros s. apply not_elem_of_dom. intros Hin.
  apply (is_fresh ((list_to_set [0; 1; 2; 3] ∪ dom s) : gset nat)).
  apply elem_of_union. right. exact Hin.
Qed.

(** The two allocators place the root of a decision differently. *)
Lemma low_high_differ (a : MCTSplayer) :
  (Machine.new_root low a).1 <> (Machine.new_root high a).1.
Proof. vm_compute. discriminate. Qed.

End RowsMachineFacts.

(** * The statements of the specification *)

Section SelectChildClaims.
Context `{RandomAPI}.

(** C10. When [select_child] runs on a node with at least one child while
    the root has been visited, in a heap where the children are allocated
    and carry counters that are not negative, with an exploration constant
    that is not negative (both call sites pass such a constant): the score
    of every child is [DBL_MAX] (unvisited) or a finite value that is not
    negative, never NaN; hence some score exceeds the initial maximum -1,
    [best_child] is assigned, and a child of the node is returned. *)
Theorem select_child_defined (h : heap) state node root c nd rt :
  h !! node = Some nd -> children nd <> [] ->
  h !! root = Some rt -> (1 <= n rt)%Z -> (0 <= c)%R ->
  Forall (fun ch => exists cn, h !! ch = Some cn /\ (0 <= w cn)%Z /\ (0 <= n cn)%Z)
    (children nd) ->
  (forall ch cn, ch ∈ children nd -> h !! ch = Some cn ->
     (n cn = 0%Z /\ uct_score c (n rt) cn = Fin DBL_MAX) \/
     (n cn <> 0%Z /\ exists x, uct_score c (n rt) cn = Fin x /\ (0 <= x)%R)) /\
  (forall ch cn, ch ∈ children nd -> h !! ch = Some cn ->
     gtb (uct_score c (n rt) cn) (Fin (-1)) = true) /\
  exists b bn,
    b ∈ children nd /\ h !! b = Some bn /\
    select_child h state node root c =
      Ret (Some b, (board_place state (position (node_move bn))).2).
Proof.
  intros E Hne Ert Hn Hc Hall.
  rewrite Forall_forall in Hall.
  assert (Hscore : forall ch cn, ch ∈ children nd -> h !! ch = Some cn ->
            (0 <= w cn)%Z /\ (0 <= n cn)%Z).
  { intros ch cn Hin Ecn. destruct (Hall ch Hin) as (cn' & Ecn' & Hw & Hn').
    assert (cn' = cn) by congruence. subst. auto. }
  split; [|split].
  - intros ch cn Hin Ecn. destruct (Hscore ch cn Hin Ecn) as [Hw Hn'].
    destruct (Z.eq_dec (n cn) 0%Z) as [Hz|Hnz].
    + left. split; [assumption|]. apply uct_score_unvisited. assumption.
    + right. split; [assumption|]. rewrite uct_score_visited by assumption.
      apply uct_visited_nonneg; [assumption | assumption | lia | assumption].
  - intros ch cn Hin Ecn. destruct (Hscore ch cn Hin Ecn) as [Hw Hn'].
    apply uct_score_above_init; assumption.
  - destruct (select_child_best h state node root c nd rt)
      as (i & b & bn & Esel & Ebn & (Ei & _) & _); try assumption.
    + apply Forall_forall. intros ch Hin.
      destruct (Hall ch Hin) as (cn & Ecn & _). eauto.
    + destruct (children nd) as [|ch0 rest] eqn:Ech; [contradiction|].
      destruct (Hall ch0) as (cn & Ecn & Hw & Hn'); [apply list_elem_of_here|].
      exists ch0, cn. split; [apply list_elem_of_here|]. split; [assumption|].
      apply uct_score_above_init; assumption.
    + exists b, bn. split; [|auto]. apply list_elem_of_lookup. eauto.
Qed.

(** C4. The loop of [select_child], on whatever scores the machine has
    computed for the children ([score], rounding included):

    - when unvisited children score [DBL_MAX] (line 170) and every visited
      child scores less (or NaN), the first unvisited child is returned,
      whatever the visited ones score;
    - the child returned is exceeded by no other child, and every child
      before it has a different, smaller score (or NaN): among children of
      equal score the one met first is returned, a later equal score never
      replaces it;
    - with the scores of this model, [select_child] is that loop, and its
      visited scores are below [DBL_MAX] when the counters are [int]s, the
      visit counts not negative and the constant at most 2 in absolute
      value (which covers 0.5, 1e-12 and the default sqrt 2): [select_child]
      returns the first unvisited child. *)
Theorem select_child_first_unvisited (h : heap) state node nd :
  h !! node = Some nd ->
  Forall (fun ch => is_Some (h !! ch)) (children nd) ->
  (forall score : Node -> dbl,
     (forall cn, n cn = 0%Z -> score cn = Fin DBL_MAX) ->
     (forall ch cn, ch ∈ children nd -> h !! ch = Some cn -> n cn <> 0%Z ->
        gtb (Fin DBL_MAX) (score cn) = true \/ score cn = NaN) ->
     forall i u un,
       children nd !! i = Some u -> h !! u = Some un -> n un = 0%Z ->
       (forall k ck cn, k < i -> children nd !! k = Some ck ->
          h !! ck = Some cn -> n cn <> 0%Z) ->
       select_child_by score h state node =
         Ret (Some u, (board_place state (position (node_move un))).2)) /\
  (forall (score : Node -> dbl) b state',
     select_child_by score h state node = Ret (Some b, state') ->
     exists i bn, children nd !! i = Some b /\ h !! b = Some bn /\
       state' = (board_place state (position (node_move bn))).2 /\
       (forall k ck cn, children nd !! k = Some ck -> h !! ck = Some cn ->
          gtb (score cn) (score bn) = false) /\
       (forall k ck cn, k < i -> children nd !! k = Some ck ->
          h !! ck = Some cn ->
          score cn <> score bn /\
          (gtb (score bn) (score cn) = true \/ score cn = NaN))) /\
  (forall root rt c,
     h !! root = Some rt ->
     select_child h state node root c
       = select_child_by (uct_score c (n rt)) h state node /\
     ((Rabs c <= 2)%R -> int32 (n rt) ->
      Forall (fun ch => exists cn, h !! ch = Some cn /\ (0 <= n cn)%Z /\ int32 (w cn))
        (children nd) ->
      (forall ch cn, ch ∈ children nd -> h !! ch = Some cn -> n cn <> 0%Z ->
         gtb (Fin DBL_MAX) (uct_score c (n rt) cn) = true \/
         uct_score c (n rt) cn = NaN) /\
      forall i u un,
        children nd !! i = Some u -> h !! u = Some un -> n un = 0%Z ->
        (forall k ck cn, k < i -> children nd !! k = Some ck ->
           h !! ck = Some cn -> n cn <> 0%Z) ->
        select_child h state node root c =
          Ret (Some u, (board_place state (position (node_move un))).2))).
Proof.
  intros E Hex.
  assert (HA : forall score : Node -> dbl,
    (forall cn, n cn = 0%Z -> score cn = Fin DBL_MAX) ->
    (forall ch cn, ch ∈ children nd -> h !! ch = Some cn -> n cn <> 0%Z ->
       gtb (Fin DBL_MAX) (score cn) = true \/ score cn = NaN) ->
    forall i u un,
      children nd !! i = Some u -> h !! u = Some un -> n un = 0%Z ->
      (forall k ck cn, k < i -> children nd !! k = Some ck ->
         h !! ck = Some cn -> n cn <> 0%Z) ->
      select_child_by score h state node =
        Ret (Some u, (board_place state (position (node_move un))).2)).
  { intros score Hun Hvis i u un Ei Eu Hz Hfirst.
    assert (Hu : score un = Fin DBL_MAX) by (apply Hun; assumption).
    assert (Hne : children nd <> []) by (intros Hnil; rewrite Hnil in Ei; discriminate).
    destruct (select_child_by_char score h state node nd E Hne Hex)
      as [[_ Hle] | (j & b & bn & Esel & Ej & Ebn & Hgt & Hbefore & Hafter)].
    { assert (Hin : u ∈ children nd) by (apply list_elem_of_lookup; eauto).
      specialize (Hle u un Hin Eu). rewrite Hu, DBL_MAX_above_init in Hle.
      discriminate. }
    assert (Hbin : b ∈ children nd) by (apply list_elem_of_lookup; eauto).
    destruct (lt_eq_lt_dec j i) as [[Hlt | ->] | Hlt].
    - exfalso. specialize (Hafter i u un Hlt Ei Eu). rewrite Hu in Hafter.
      destruct (Hvis b bn Hbin Ebn (Hfirst j b bn Hlt Ej Ebn)) as [Hb | Hnan].
      + congruence.
      + apply (gtb_not_nan_l _ _ Hgt). exact Hnan.
    - assert (b = u) by congruence. subst b.
      assert (bn = un) by congruence. subst bn. exact Esel.
    - exfalso. destruct (Hbefore i u un Hlt Ei Eu) as [Habove | Hnan];
        rewrite Hu in *; [|discriminate].
      destruct (Z.eq_dec (n bn) 0%Z) as [Hbz | Hbnz].
      + rewrite (Hun bn Hbz), gtb_irrefl in Habove. discriminate.
      + destruct (Hvis b bn Hbin Ebn Hbnz) as [Hb | Hnan].
        * pose proof (gtb_trans _ _ _ Hb Habove) as Hcyc.
          rewrite gtb_irrefl in Hcyc. discriminate.
        * rewrite Hnan in Habove. discriminate. }
  split; [exact HA|]. split.
  - intros score b state' Esel.
    assert (Hne : children nd <> []).
    { intros Hnil. unfold select_child_by in Esel.
      rewrite (deref_Some _ _ _ E), bind_Ret, Hnil in Esel. discriminate. }
    destruct (select_child_by_char score h state node nd E Hne Hex)
      as [[Ef _] | (i & b' & bn & Esel' & Ei & Ebn & Hgt & Hbefore & Hafter)];
      [congruence|].
    rewrite Esel' in Esel. injection Esel as -> <-.
    exists i, bn. split; [assumption|]. split; [assumption|].
    split; [reflexivity|]. split.
    + intros k ck cn Eck Ecn.
      destruct (lt_eq_lt_dec k i) as [[Hlt | ->] | Hlt].
      * destruct (Hbefore k ck cn Hlt Eck Ecn) as [Habove | ->]; [|reflexivity].
        destruct (gtb (score cn) (score bn)) eqn:Hrev; [|reflexivity].
        pose proof (gtb_trans _ _ _ Habove Hrev) as Hcyc.
        rewrite gtb_irrefl in Hcyc. discriminate.
      * assert (ck = b) by congruence. subst ck.
        assert (cn = bn) by congruence. subst cn. apply gtb_irrefl.
      * apply (Hafter k ck cn); assumption.
    + intros k ck cn Hlt Eck Ecn. split; [|apply (Hbefore k ck cn); assumption].
      intros Heq. destruct (Hbefore k ck cn Hlt Eck Ecn) as [Habove | Hnan].
      * rewrite Heq, gtb_irrefl in Habove. discriminate.
      * rewrite Heq in Hnan. apply (gtb_not_nan_l _ _ Hgt). exact Hnan.
  - intros root rt c Ert.
    split; [apply select_child_by_uct; assumption|].
    intros Hc HN Hall. rewrite Forall_forall in Hall.
    assert (Hvis : forall ch cn, ch ∈ children nd -> h !! ch = Some cn ->
              n cn <> 0%Z ->
              gtb (Fin DBL_MAX) (uct_score c (n rt) cn) = true \/
              uct_score c (n rt) cn = NaN).
    { intros ck cn Hin Ecn Hnz. destruct (Hall ck Hin) as (cn' & Ecn' & Hn' & Hw).
      assert (cn' = cn) by congruence. subst.
      assert (Hb : below_max (uct_score c (n rt) cn)).
      { rewrite uct_score_visited by assumption.
        apply uct_visited_below; [assumption | lia | assumption | assumption]. }
      destruct (uct_score c (n rt) cn) eqn:Es; [left | left | left | right; reflexivity];
        (apply below_max_under; [exact Hb | discriminate]). }
    split; [exact Hvis|].
    intros i u un Ei Eu Hz Hfirst.
    rewrite (select_child_by_uct h state node root rt c Ert).
    apply (HA (uct_score c (n rt))) with i; try assumption.
    intros cn Hcn. apply uct_score_unvisited. assumption.
Qed.

End SelectChildClaims.

Section ScoreClaims.
Local Open Scope R_scope.

(** C2. The score of a visited child under a visited root is the QUOTIENT
    of the two [int]s [w] and [n] plus [C * sqrt(ln N / n)], [N] being the
    visit count of the root. At a child with [w = 1] and [n = 2] under a
    root visited three times the rate term is 0, where the real-valued rate
    [w / n] of the specification is 1/2. *)
Theorem uct_score_truncates :
  uct_score select_c 3 Rows.half_won
    = Fin (0 + select_c * R_sqrt.sqrt (ln 3 / 2)) /\
  uct_spec select_c 3 Rows.half_won
    = Fin (1 / 2 + select_c * R_sqrt.sqrt (ln 3 / 2)) /\
  uct_score select_c 3 Rows.half_won <> uct_spec select_c 3 Rows.half_won.
Proof.
  assert (Hcode : uct_score select_c 3 Rows.half_won
                  = Fin (0 + select_c * R_sqrt.sqrt (ln 3 / 2))).
  { rewrite uct_score_visited by discriminate.
    rewrite uct_visited_fin by (simpl; lia). reflexivity. }
  split; [exact Hcode|]. split; [reflexivity|].
  rewrite Hcode. unfold uct_spec. simpl. intros [= Heq]. lra.
Qed.

End ScoreClaims.

Section DecisionClaims.
Context `{GameLaws}.

(** C5. [expand] on a leaf whose mover is black or white: the candidates
    are enumerated in the order of the shuffle; for each one that is legal
    on the board given, in that order, exactly one new node becomes a child
    of the leaf, with mover the opposite of the leaf's, the candidate as its
    move, [n = w = 0] and the leaf as parent; the other nodes that existed
    are left alone; the result is [true] exactly when no candidate was
    legal, that is when no child was created. *)
Theorem expand_creates_legal_children (a : MCTSplayer) (h : heap) state leaf ln :
  h !! leaf = Some ln -> children ln = [] ->
  placer ln = black \/ placer ln = white ->
  exists h' cs pl,
    ((placer ln = black /\ pl = white) \/ (placer ln = white /\ pl = black)) /\
    expand a h state leaf =
      Ret (bool_decide (legal_moves state (shuffle (space a) (rng a)).1 = []),
           with_random a (shuffle (space a) (rng a)).1 (shuffle (space a) (rng a)).2,
           h') /\
    h' !! leaf = Some (with_children ln cs) /\
    Forall2 (fun ch mv => h' !! ch = Some (fresh_child leaf pl mv))
      cs (legal_moves state (shuffle (space a) (rng a)).1) /\
    NoDup cs /\ Forall (fun ch => length h <= ch) cs /\
    (cs = [] <-> legal_moves state (shuffle (space a) (rng a)).1 = []) /\
    (forall i, i < length h -> i <> leaf -> h' !! i = h !! i).
Proof.
  intros Eln Hnil Hside.
  destruct (reverse_player_defined _ Hside) as [pl Hpl].
  destruct (expand_expanded a h state leaf ln pl Eln Hpl)
    as (h' & cs & Eexp & _ & Hexp).
  pose proof (exp_children _ _ _ _ _ _ _ Hexp) as Hcs.
  assert (Hiff : cs = [] <-> legal_moves state (shuffle (space a) (rng a)).1 = []).
  { apply Forall2_length in Hcs. split; intros E; rewrite E in Hcs;
      simpl in Hcs; [symmetry in Hcs|]; apply nil_length_inv in Hcs; assumption. }
  exists h', cs, pl. split.
  { destruct (placer ln); simpl in Hpl; try discriminate;
      injection Hpl as <-; auto. }
  split.
  { rewrite Eexp, Hnil. simpl. rewrite (bool_decide_ext _ _ Hiff). reflexivity. }
  split.
  { rewrite (exp_node _ _ _ _ _ _ _ Hexp), Hnil. reflexivity. }
  split; [assumption|].
  split; [apply (exp_nodup _ _ _ _ _ _ _ Hexp)|].
  split; [apply (exp_new _ _ _ _ _ _ _ Hexp)|].
  split; [assumption|].
  apply (exp_old _ _ _ _ _ _ _ Hexp).
Qed.

(** C6. With a budget that is not negative, the search loop returns and the
    root then has [n = simulation_times]: the heap after [k] passes is
    reached by [k] steps of [pass], each of which adds the rollout result
    along a walk that ends in the root, and the root has [n = k] after
    them. *)
Theorem root_visits_equal_budget (a : MCTSplayer) state :
  who a = black \/ who a = white -> (0 <= simulation_times a)%Z ->
  exists h0, new_root a = Ret h0 /\
    (forall k, exists f0 a' h' rt,
       (forall fuel, f0 <= fuel ->
          (h ← new_root a; iterations fuel k state (a, h)) = Ret (a', h')) /\
       passes state a h0 k a' h' /\
       h' !! root_ptr = Some rt /\ n rt = Z.of_nat k) /\
    exists f0 a' h' rt,
      (forall fuel, f0 <= fuel -> search fuel a state = Ret (a', h')) /\
      passes state a h0 (Z.to_nat (simulation_times a)) a' h' /\
      h' !! root_ptr = Some rt /\ n rt = simulation_times a.
Proof.
  intros Hwho HT.
  destruct (search_passes a state Hwho) as (h0 & E0 & Hinit & Hrun).
  exists h0. split; [assumption|].
  assert (Hk : forall k, exists f0 a' h' rt,
            (forall fuel, f0 <= fuel ->
               (h ← new_root a; iterations fuel k state (a, h)) = Ret (a', h')) /\
            passes state a h0 k a' h' /\
            h' !! root_ptr = Some rt /\ n rt = Z.of_nat k).
  { intros k. destruct (Hrun k) as (f0 & a' & h' & Erun & Hp & Hloop).
    destruct (loop_count _ _ Hloop) as (rt & Ert & Hn).
    exists f0, a', h', rt. auto. }
  split; [exact Hk|].
  destruct (Hk (Z.to_nat (simulation_times a))) as (f0 & a' & h' & rt & Erun & Hp & Ert & Hn).
  exists f0, a', h', rt. split; [exact Erun|]. split; [assumption|].
  split; [assumption|]. lia.
Qed.

(** C7. Every node of the heap has [0 <= w <= n] throughout a decision: the
    fresh root has; [expand] keeps it (new nodes start at [n = w = 0]);
    whenever [simulate] returns, it returns 0 or 1; each step of
    [backpropagation], adding 1 to [n] and that result to [w], keeps it, and
    so does the whole walk; and so the heap after any number of passes of
    the search loop has it, with no [n] above the number of passes (the
    [int] counters do not overflow). *)
Theorem counters_invariant (a : MCTSplayer) state :
  who a = black \/ who a = white ->
  (forall h0, new_root a = Ret h0 -> Forall counters_ok h0) /\
  (forall a1 (h : heap) st node flag a2 h',
     Forall counters_ok h -> expand a1 h st node = Ret (flag, a2, h') ->
     Forall counters_ok h') /\
  (forall fuel a1 b result a2,
     simulate fuel a1 b = Ret (result, a2) -> (result = 0 \/ result = 1)%Z) /\
  (forall result p (h : heap),
     (result = 0 \/ result = 1)%Z -> Forall counters_ok h ->
     Forall counters_ok (alter (visit result) p h)) /\
  (forall fuel (h : heap) node result h',
     (result = 0 \/ result = 1)%Z -> Forall counters_ok h ->
     backprop_loop fuel h node result = Ret h' -> Forall counters_ok h') /\
  (forall k, exists f0 a' h',
     (forall fuel, f0 <= fuel ->
        (h ← new_root a; iterations fuel k state (a, h)) = Ret (a', h')) /\
     Forall (fun nd => counters_ok nd /\ (n nd <= Z.of_nat k)%Z) h').
Proof.
  intros Hwho.
  destruct (search_passes a state Hwho) as (h0 & E0 & Hinit & Hrun).
  split.
  { intros h0' E0'. assert (h0' = h0) by congruence. subst.
    apply tree_counters, (loop_tree 0). assumption. }
  split; [intros; eapply expand_counters; eassumption|].
  split; [intros; eapply simulate_binary; eassumption|].
  split; [intros; apply visit_step_counters; assumption|].
  split; [intros; eapply backprop_loop_counters; eassumption|].
  intros k. destruct (Hrun k) as (f0 & a' & h' & Erun & _ & Hloop).
  exists f0, a', h'. split; [assumption|].
  apply Forall_lookup. intros i x Ex. split.
  - eapply inv_counters; [apply (loop_tree k)|]; eassumption.
  - eapply loop_bound; eassumption.
Qed.

(** C8. [select_child] on a node without children returns the null pointer
    and leaves the board alone. On a board where no candidate of the agent
    is legal, no node has a child after any number of passes of the search
    loop, and [take_action] returns the sentinel [action()]. *)
Theorem no_move_without_children (a : MCTSplayer) state :
  who a = black \/ who a = white -> no_legal_move a state ->
  (forall (h : heap) st node root c nd,
     h !! node = Some nd -> children nd = [] ->
     select_child h st node root c = Ret (None, st)) /\
  (forall k, exists f0 a' h',
     (forall fuel, f0 <= fuel ->
        (h ← new_root a; iterations fuel k state (a, h)) = Ret (a', h')) /\
     childless h') /\
  exists f0 a', forall fuel, f0 <= fuel ->
    take_action fuel a state = Ret (no_action, a').
Proof.
  intros Hwho Hno.
  split; [intros; eapply select_child_childless; eassumption|].
  split.
  - destruct (search_passes a state Hwho) as (h0 & E0 & Hinit & Hrun).
    intros k. destruct (Hrun k) as (f0 & a' & h' & Erun & Hp & _).
    exists f0, a', h'. split; [assumption|].
    eapply passes_childless; eassumption.
  - destruct (take_action_ok a state Hwho)
      as (f0 & act & a' & h0 & h' & rt & Erun & E0 & Hinit & Hp & _ & Ert & Hact).
    exists f0, a'. intros fuel Hfuel.
    destruct (Erun fuel Hfuel) as [_ Etake]. rewrite Etake. clear Erun Etake.
    destruct Hact as [(_ & ->) | (b & bn & Hin & _)]; [reflexivity|].
    destruct (passes_childless _ _ _ _ _ _ Hinit Hno Hp) as [Hch _].
    rewrite (Hch _ _ Ert) in Hin. inversion Hin.
Qed.

(** C9. Two runs of [take_action], by two agents constructed with the same
    seed (or both without one), the same role and the same budget, on the
    same board, each on a machine of its own: whatever free addresses the
    allocator of each machine returns for the nodes, and whatever the
    variables that [select_child] and [reverse_player] may leave unassigned
    hold there, both runs return, and they return the same move and leave
    the agent in the same state. No address and no unassigned variable
    reaches the result; what varies from run to run is drawn from the
    agent's engine, which the seed fixes. The move is the one that the
    embedding by allocation numbers returns. *)
Theorem same_seed_same_move o1 o2 (a1 a2 : MCTSplayer) state
    (wd1 wd2 : Machine.world) :
  opt_seed o1 = opt_seed o2 -> opt_role o1 = opt_role o2 ->
  opt_T o1 = opt_T o2 ->
  MCTSplayer_new o1 = Some a1 -> MCTSplayer_new o2 = Some a2 ->
  Machine.sound wd1 -> Machine.sound wd2 ->
  exists f0 act a', forall fuel, f0 <= fuel ->
    Machine.take_action wd1 fuel a1 state = Ret (act, a') /\
    Machine.take_action wd2 fuel a2 state = Ret (act, a') /\
    take_action fuel a1 state = Ret (act, a').
Proof.
  intros Hseed Hrole HT E1 E2 Hwd1 Hwd2.
  pose proof (MCTSplayer_new_sided _ _ E1) as Hwho.
  assert (a2 = a1).
  { unfold MCTSplayer_new, random_agent in *. rewrite <- Hrole, <- HT, <- Hseed in E2.
    destruct (find_first_of (opt_name o1) _); [discriminate|].
    destruct (find_first_of (opt_name o2) _); [discriminate|].
    destruct (if String.eqb (opt_role o1) "white" then white
              else if String.eqb (opt_role o1) "black" then black else empty);
      congruence. }
  subst a2.
  destruct (take_action_ok a1 state Hwho) as (f0 & act & a' & h0 & h' & rt & Erun & _).
  exists f0, act, a'. intros fuel Hfuel.
  destruct (Erun fuel Hfuel) as [_ Etake].
  split; [|split]; [apply take_action_layout; assumption.. | exact Etake].
Qed.

End DecisionClaims.

Section RolloutClaims.
Context `{GameLaws}.

Lemma simulate_pass_app : forall l1 l2 b has,
  simulate_pass (l1 ++ l2) b has =
    simulate_pass l2 (simulate_pass l1 b has).1 (simulate_pass l1 b has).2.
Proof.
  induction l1 as [|mv l1 IH]; intros l2 b has; [reflexivity|].
  simpl. destruct (board_place b (position mv)).1; apply IH.
Qed.

Lemma simulate_pass_all_illegal : forall moves b has,
  Forall (fun mv => (board_place b (position mv)).1 = false) moves ->
  simulate_pass moves b has = (b, has).
Proof.
  induction 1 as [|mv rest Hmv _ IH]; [reflexivity|].
  simpl. rewrite Hmv. exact IH.
Qed.

(** C3, as the code has it. A pass of the rollout tests every candidate of
    the enumeration on the board left by the candidates before it and places
    it when it is legal there, so a pass may place several stones; the pass
    reports a legal move exactly when some candidate was legal on the board
    the pass started from; every turn of the loop shuffles anew, runs one
    pass and goes on exactly when the pass reported a legal move; with
    enough fuel the rollout returns, and no candidate of the agent is legal
    on the board it ends on. *)
Theorem rollout_applies_every_legal_move (a : MCTSplayer) b :
  (forall l1 mv l2 b0,
     simulate_pass (l1 ++ mv :: l2) b0 false =
       let '(b1, has) := simulate_pass l1 b0 false in
       if (board_place b1 (position mv)).1
       then simulate_pass l2 (board_place b1 (position mv)).2 true
       else simulate_pass l2 b1 has) /\
  (forall moves b0,
     (simulate_pass moves b0 false).2 = false <->
     Forall (fun mv => (board_place b0 (position mv)).1 = false) moves) /\
  (forall fuel sp g b0,
     simulate_loop (S fuel) sp g b0 =
       let '(sp', g') := shuffle sp g in
       let '(b', has_legal_move) := simulate_pass sp' b0 false in
       if has_legal_move then simulate_loop fuel sp' g' b'
       else Ret (sp', g', b')) /\
  (forall fuel, room b < fuel ->
     exists sp g final,
       simulate_loop fuel (space a) (rng a) b = Ret (sp, g, final) /\
       sp ≡ₚ space a /\
       Forall (fun mv => (board_place final (position mv)).1 = false) (space a) /\
       simulate fuel a b =
         Ret (if decide (get_who_take_turn final = who a) then 0%Z else 1%Z,
              with_random a sp g)).
Proof.
  split; [|split; [|split]].
  - intros l1 mv l2 b0. rewrite simulate_pass_app.
    destruct (simulate_pass l1 b0 false) as [b1 has]. reflexivity.
  - intros moves b0. split.
    + intros Hs. apply Forall_forall.
      apply (simulate_pass_stuck moves b0 false Hs).
    + intros Hall. rewrite simulate_pass_all_illegal by assumption. reflexivity.
  - reflexivity.
  - intros fuel Hfuel.
    destruct (simulate_loop_ok fuel (space a) (rng a) b Hfuel)
      as (sp & g & final & E & Hp & Hall).
    exists sp, g, final. split; [assumption|]. split; [assumption|].
    split.
    + rewrite <- Hp. apply Forall_forall. exact Hall.
    + unfold simulate. rewrite E. reflexivity.
Qed.

End RolloutClaims.

Section ConstantClaims.
Context `{RandomAPI}.
Local Open Scope R_scope.

(** C1, as the code has it. [select] descends with the exploration constant
    0.5, passed explicitly in place of the default sqrt 2 of [select_child];
    the final decision of [take_action] runs [select_child] on the root with
    the constant 1e-12. Both are calls of the one function [select_child]
    and differ in the constant only. The constant of the final decision is
    so small that, between two visited children, the greater quotient
    [w / n] decides. *)
Theorem exploration_constants :
  select_c = 1 / 2 /\ final_c = / 10 ^ 12 /\ 0 < final_c /\
  (forall fuel (h : heap) state node root,
     select_loop (S fuel) h state node root =
       nd ← deref h node;
       if bool_decide (children nd = []) then Ret (node, state)
       else
         '(next, state') ← select_child h state node root select_c;
         match next with
         | None => Fault BadPointer
         | Some node' => select_loop fuel h state' node' root
         end) /\
  (forall fuel (a : MCTSplayer) state,
     take_action fuel a state =
       '(a', h) ← search fuel a state;
       '(best_node, _) ← select_child h state root_ptr root_ptr final_c;
       match best_node with
       | Some b => bn ← deref h b; Ret (as_action (node_move bn), a')
       | None => Ret (no_action, a')
       end) /\
  (forall N (x y : Node),
     (1 <= N)%Z -> int32 N -> (1 <= n x)%Z -> (1 <= n y)%Z ->
     (w y ÷ n y < w x ÷ n x)%Z ->
     gtb (uct_score final_c N x) (uct_score final_c N y) = true).
Proof.
  split; [unfold select_c; lra|].
  split; [unfold final_c; lra|].
  split; [unfold final_c; lra|].
  split; [reflexivity|]. split; [reflexivity|].
  intros N x y HN HN32 Hx Hy Hq.
  rewrite !uct_score_visited by lia.
  rewrite !uct_visited_fin by assumption.
  apply gtb_Fin.
  destruct (explore_bound N (n x) HN HN32 Hx) as [Hx0 Hx1].
  destruct (explore_bound N (n y) HN HN32 Hy) as [Hy0 Hy1].
  assert (Hq' : IZR (w y ÷ n y) + 1 <= IZR (w x ÷ n x)).
  { rewrite <- plus_IZR. apply IZR_le. lia. }
  assert (H31 : 2 ^ 31 = 2147483648) by lra.
  unfold final_c. nra.
Qed.

End ConstantClaims.

(** * The statements on the small game *)

Module RowsChecks.
Import Rows RowsFacts.

(** The constructor: defaults, and the two ways it throws. *)
Example construct_white :
  MCTSplayer_new (mkOptions "mcts" "white" None None)
    = Some (mkMCTSplayer [(0, white); (1, white)] white 1000 0).
Proof. reflexivity. Qed.

Example construct_without_role :
  MCTSplayer_new (mkOptions "mcts" "unknown" None (Some 5%Z)) = None.
Proof. reflexivity. Qed.

Example construct_bad_name :
  MCTSplayer_new (mkOptions "a b" "black" None None) = None.
Proof. reflexivity. Qed.

(** [expand] on the fresh root over the empty board: both candidates are
    legal and become children. *)
Example expand_start :
  expand (player 2) [root0] start 0
    = Ret (false, mkMCTSplayer [(0, black); (1, black)] black 2 1,
           [node None [1; 2] white (0, empty) 0 0;
            node (Some 0) [] black (0, black) 0 0;
            node (Some 0) [] black (1, black) 0 0]).
Proof. reflexivity. Qed.

(** A rollout from the empty board: one pass places both stones, a second
    pass finds nothing; it is black's turn on the final board, so the black
    player gets 0. With fuel for one pass only the model gives up. *)
Example simulate_start :
  simulate 3 (player 2) start
    = Ret (0%Z, mkMCTSplayer [(1, black); (0, black)] black 2 2).
Proof. reflexivity. Qed.

Example simulate_start_short : simulate 1 (player 2) start = Fault OutOfFuel.
Proof. reflexivity. Qed.

Example backpropagation_lost1 :
  backpropagation lopsided (Some 2) 1
    = Ret (true, [node None [1; 2] white (0, empty) 12 10; won9;
                  node (Some 0) [] black (1, black) 2 1]).
Proof. reflexivity. Qed.

Example backpropagation_null :
  backpropagation lopsided None 1 = Ret (false, lopsided).
Proof. reflexivity. Qed.

(** The first pass of a decision: the root is expanded and visited once. *)
Example first_pass :
  iteration 3 start (player 2, [root0])
    = Ret (mkMCTSplayer [(1, black); (0, black)] black 2 3,
           [node None [1; 2] white (0, empty) 1 0;
            node (Some 0) [] black (0, black) 0 0;
            node (Some 0) [] black (1, black) 0 0]).
Proof. reflexivity. Qed.

(** Without a single pass the root has no child and no move is returned,
    even on a board with legal moves. *)
Example take_action_no_budget :
  take_action 0 (player 0) start = Ret (None, player 0).
Proof. reflexivity. Qed.

Example take_action_full :
  take_action 1 (player 5) full
    = Ret (None, mkMCTSplayer [(1, black); (0, black)] black 5 6).
Proof. reflexivity. Qed.

Section Reals.
Local Open Scope R_scope.

Lemma score_won9 c :
  uct_score c 11 won9 = Fin (1 + c * R_sqrt.sqrt (ln 11 / 9)).
Proof.
  rewrite uct_score_visited by discriminate.
  rewrite uct_visited_fin by (simpl; lia). reflexivity.
Qed.

Lemma score_lost1 c :
  uct_score c 11 lost1 = Fin (0 + c * R_sqrt.sqrt (ln 11 / 1)).
Proof.
  rewrite uct_score_visited by discriminate.
  rewrite uct_visited_fin by (simpl; lia). reflexivity.
Qed.

Lemma select_child_lopsided state c :
  select_child lopsided state 0%nat 0%nat c =
    if gtb (uct_score c 11 won9) (Fin (-1))
    then if gtb (uct_score c 11 lost1) (uct_score c 11 won9)
         then Ret (Some 2%nat, (place state 1%nat).2)
         else Ret (Some 1%nat, (place state 0%nat).2)
    else if gtb (uct_score c 11 lost1) (Fin (-1))
         then Ret (Some 2%nat, (place state 1%nat).2)
         else Fault Indeterminate.
Proof.
  unfold select_child.
  change (deref lopsided 0%nat) with (Ret root11). rewrite bind_Ret.
  change (children root11) with [1%nat; 2%nat].
  rewrite bool_decide_eq_false_2 by discriminate.
  rewrite (best_of_cons lopsided 0%nat root11 c eq_refl 1%nat won9 [2%nat]) by reflexivity.
  change (n root11) with 11%Z.
  destruct (gtb (uct_score c 11 won9) (Fin (-1)));
    rewrite (best_of_cons lopsided 0%nat root11 c eq_refl 2%nat lost1 []) by reflexivity;
    change (n root11) with 11%Z;
    destruct (gtb (uct_score c 11 lost1) _); reflexivity.
Qed.

(** C1, refuted as stated. The descent does not run with sqrt 2: on the
    heap [lopsided] the loop of [select] moves to the first child (always
    won, visited nine times), where [select_child] with the constant sqrt 2
    chooses the second (visited once). *)
Lemma descent_does_not_use_sqrt2 :
  select_c <> default_c /\
  select lopsided start root_ptr = Ret (1%nat, (place start 0%nat).2) /\
  select_child lopsided start root_ptr root_ptr default_c
    = Ret (Some 2%nat, (place start 1%nat).2).
Proof.
  pose proof ln_11_bounds as [Hlo Hhi].
  destruct sqrt_ln_11 as (E3 & Hs0 & Hss).
  set (s := R_sqrt.sqrt (ln 11 / 9)) in *.
  assert (Hr0 : 0 <= default_c) by apply sqrt_pos.
  assert (Hrr : default_c * default_c = 2) by (apply sqrt_sqrt; lra).
  split; [|split].
  - unfold select_c. intros E. rewrite <- E in Hrr. lra.
  - unfold select. change (length lopsided) with 3%nat.
    rewrite select_loop_eq.
    change (deref lopsided root_ptr) with (Ret root11). rewrite bind_Ret.
    rewrite bool_decide_eq_false_2 by discriminate.
    unfold root_ptr. rewrite select_child_lopsided, score_won9, score_lost1.
    fold s. rewrite E3.
    assert (H1 : gtb (Fin (1 + select_c * s)) (Fin (-1)) = true).
    { apply gtb_Fin. unfold select_c. lra. }
    assert (H2 : gtb (Fin (0 + select_c * (3 * s))) (Fin (1 + select_c * s)) = false).
    { apply gtb_Fin_false. unfold select_c. nra. }
    rewrite H1, H2, bind_Ret. reflexivity.
  - unfold root_ptr. rewrite select_child_lopsided, score_won9, score_lost1.
    fold s. rewrite E3.
    assert (Ht : 1 / 2 < default_c * s).
    { assert (Ht0 : 0 <= default_c * s) by (apply Rmult_le_pos; assumption).
      assert (Htt : (default_c * s) * (default_c * s) = 2 * (ln 11 / 9)).
      { rewrite <- Hrr, <- Hss. ring. }
      nra. }
    assert (H1 : gtb (Fin (1 + default_c * s)) (Fin (-1)) = true).
    { apply gtb_Fin. nra. }
    assert (H2 : gtb (Fin (0 + default_c * (3 * s))) (Fin (1 + default_c * s)) = true).
    { apply gtb_Fin. nra. }
    rewrite H1, H2. reflexivity.
Qed.

End Reals.

(** C3, refuted as stated. A pass does not stop at the first legal
    candidate: on the empty board of two cells the pass over both
    candidates places two stones, where one step in the words of the
    specification places one. *)
Lemma rollout_pass_places_second_move :
  simulate_pass [(0, black); (1, black)] start false
    = ({| cells := [true; true]; turn := black |}, true) /\
  spec_pass [(0, black); (1, black)] start
    = ({| cells := [true; false]; turn := white |}, true) /\
  simulate_pass [(0, black); (1, black)] start false
    <> spec_pass [(0, black); (1, black)] start.
Proof.
  split; [reflexivity|]. split; [reflexivity|]. discriminate.
Qed.

(** Under a root visited once, two unvisited children: the final choice is
    the first. *)
Lemma select_child_two_fresh (rt c1 c2 : Node) state c :
  children rt = [1; 2] -> n c1 = 0%Z -> n c2 = 0%Z ->
  select_child [rt; c1; c2] state 0 0 c
    = Ret (Some 1, (place state (node_move c1).1).2).
Proof.
  intros Hc H1 H2. unfold select_child.
  change (deref [rt; c1; c2] 0) with (Ret rt). rewrite bind_Ret, Hc.
  rewrite bool_decide_eq_false_2 by discriminate.
  rewrite (best_of_cons [rt; c1; c2] 0 rt c eq_refl 1 c1 [2]) by reflexivity.
  rewrite (uct_score_unvisited c _ c1 H1), DBL_MAX_above_init.
  rewrite (best_of_cons [rt; c1; c2] 0 rt c eq_refl 2 c2 []) by reflexivity.
  rewrite (uct_score_unvisited c _ c2 H2), gtb_irrefl. reflexivity.
Qed.

(** One pass of the search from three states of the engine. *)
Example search_engine_0 :
  search 3 (mkMCTSplayer [(0, black); (1, black)] black 1 0) start
    = Ret (mkMCTSplayer [(1, black); (0, black)] black 1 3,
           [node None [1; 2] white (0, empty) 1 0;
            node (Some 0) [] black (0, black) 0 0;
            node (Some 0) [] black (1, black) 0 0]).
Proof. reflexivity. Qed.

Example search_engine_1 :
  search 3 (mkMCTSplayer [(0, black); (1, black)] black 1 1) start
    = Ret (mkMCTSplayer [(0, black); (1, black)] black 1 4,
           [node None [1; 2] white (0, empty) 1 0;
            node (Some 0) [] black (1, black) 0 0;
            node (Some 0) [] black (0, black) 0 0]).
Proof. reflexivity. Qed.

Example search_engine_4 :
  search 3 (mkMCTSplayer [(0, black); (1, black)] black 1 4) start
    = Ret (mkMCTSplayer [(1, black); (0, black)] black 1 7,
           [node None [1; 2] white (0, empty) 1 0;
            node (Some 0) [] black (0, black) 0 0;
            node (Some 0) [] black (1, black) 0 0]).
Proof. reflexivity. Qed.

(** The seed decides: with a budget of one pass the move returned is the
    first legal candidate of the first shuffle, which the engine draws. *)
Example seed_decides_move :
  take_action 3 (mkMCTSplayer [(0, black); (1, black)] black 1 0) start
    = Ret (Some (0, black), mkMCTSplayer [(1, black); (0, black)] black 1 3) /\
  take_action 3 (mkMCTSplayer [(0, black); (1, black)] black 1 1) start
    = Ret (Some (1, black), mkMCTSplayer [(0, black); (1, black)] black 1 4).
Proof.
  split; unfold take_action.
  - rewrite search_engine_0, bind_Ret, select_child_two_fresh by reflexivity.
    reflexivity.
  - rewrite search_engine_1, bind_Ret, select_child_two_fresh by reflexivity.
    reflexivity.
Qed.

(** The engine and the order of [space] stay with the agent: asked again
    on the same board, the agent of the second run above goes on from the
    engine as the first call left it, and returns another move. *)
Example later_call_goes_on :
  take_action 3 (mkMCTSplayer [(0, black); (1, black)] black 1 1) start
    = Ret (Some (1, black), mkMCTSplayer [(0, black); (1, black)] black 1 4) /\
  take_action 3 (mkMCTSplayer [(0, black); (1, black)] black 1 4) start
    = Ret (Some (0, black), mkMCTSplayer [(1, black); (0, black)] black 1 7).
Proof.
  split; unfold take_action.
  - rewrite search_engine_1, bind_Ret, select_child_two_fresh by reflexivity.
    reflexivity.
  - rewrite search_engine_4, bind_Ret, select_child_two_fresh by reflexivity.
    reflexivity.
Qed.

(** Equal scores: the child met first is kept. Under a root visited 2000
    times, with the constant 1e-12, the machine computes for a child with
    [n = w = 1000] and for one with [n = w = 999] the same [double],
    1 + 393 * 2^-52: the loop keeps the first. *)
Example equal_scores_keep_first :
  select_child_by (fun _ => Fin (1 + 393 / 2 ^ 52))
    [node None [1; 2] white (0, empty) 2000 1999;
     node (Some 0) [] black (0, black) 1000 1000;
     node (Some 0) [] black (1, black) 999 999] start 0
    = Ret (Some 1, (place start 0).2).
Proof.
  set (rt := node None [1; 2] white (0, empty) 2000 1999).
  set (c1 := node (Some 0) [] black (0, black) 1000 1000).
  set (c2 := node (Some 0) [] black (1, black) 999 999).
  unfold select_child_by.
  change (deref [rt; c1; c2] 0) with (Ret rt). rewrite bind_Ret.
  change (children rt) with [1; 2].
  rewrite bool_decide_eq_false_2 by discriminate.
  rewrite (best_by_cons _ [rt; c1; c2] 1 c1 [2]) by reflexivity.
  assert (Hpos : (0 < 393 / 2 ^ 52)%R).
  { apply Rdiv_lt_0_compat; [lra | apply pow_lt; lra]. }
  replace (gtb (Fin (1 + 393 / 2 ^ 52)) (Fin (-1))) with true
    by (symmetry; apply gtb_Fin; lra).
  rewrite (best_by_cons _ [rt; c1; c2] 2 c2 []) by reflexivity.
  rewrite gtb_irrefl. reflexivity.
Qed.

(** The exact scores of the model are not equal there (the second is
    greater by less than the rounding), so [select_child] of the model goes
    to the second child: what the model says about visited children of
    nearly equal score need not hold on the machine. *)
Example exact_scores_prefer_second :
  select_child
    [node None [1; 2] white (0, empty) 2000 1999;
     node (Some 0) [] black (0, black) 1000 1000;
     node (Some 0) [] black (1, black) 999 999] start 0 0 final_c
    = Ret (Some 2, (place start 1).2).
Proof.
  set (rt := node None [1; 2] white (0, empty) 2000 1999).
  set (c1 := node (Some 0) [] black (0, black) 1000 1000).
  set (c2 := node (Some 0) [] black (1, black) 999 999).
  assert (HL : (0 < ln 2000)%R).
  { rewrite <- ln_1. apply ln_increasing; lra. }
  assert (E1 : uct_score final_c (n rt) c1
               = Fin (1 + final_c * R_sqrt.sqrt (ln 2000 / 1000))).
  { rewrite uct_score_visited by discriminate.
    rewrite uct_visited_fin by (simpl; lia). reflexivity. }
  assert (E2 : uct_score final_c (n rt) c2
               = Fin (1 + final_c * R_sqrt.sqrt (ln 2000 / 999))).
  { rewrite uct_score_visited by discriminate.
    rewrite uct_visited_fin by (simpl; lia). reflexivity. }
  assert (Hs : (R_sqrt.sqrt (ln 2000 / 1000) < R_sqrt.sqrt (ln 2000 / 999))%R).
  { apply sqrt_lt_1_alt. split.
    - apply Rmult_le_pos; [lra|]. left. apply Rinv_0_lt_compat. lra.
    - unfold Rdiv. apply Rmult_lt_compat_l; [assumption|].
      apply Rinv_lt_contravar; lra. }
  pose proof (sqrt_pos (ln 2000 / 1000)) as Hs0.
  assert (Hc : (0 < final_c)%R) by (unfold final_c; lra).
  unfold select_child.
  change (deref [rt; c1; c2] 0) with (Ret rt). rewrite bind_Ret.
  change (children rt) with [1; 2].
  rewrite bool_decide_eq_false_2 by discriminate.
  rewrite (best_of_cons [rt; c1; c2] 0 rt final_c eq_refl 1 c1 [2]) by reflexivity.
  rewrite E1.
  replace (gtb (Fin (1 + final_c * R_sqrt.sqrt (ln 2000 / 1000))) (Fin (-1))) with true
    by (symmetry; apply gtb_Fin; nra).
  rewrite (best_of_cons [rt; c1; c2] 0 rt final_c eq_refl 2 c2 []) by reflexivity.
  rewrite E2.
  replace (gtb (Fin (1 + final_c * R_sqrt.sqrt (ln 2000 / 999)))
               (Fin (1 + final_c * R_sqrt.sqrt (ln 2000 / 1000)))) with true
    by (symmetry; apply gtb_Fin; nra).
  reflexivity.
Qed.

(** The theorems at work on the small game. *)

Lemma select_child_defined_witness :
  exists b bn, b ∈ [1; 2] /\ one_unvisited !! b = Some bn /\
    select_child one_unvisited start 0 0 select_c
      = Ret (Some b, (place start bn.(node_move).1).2).
Proof.
  refine (proj2 (proj2 (select_child_defined one_unvisited start 0 0 select_c
                          root3 root3 eq_refl _ eq_refl _ select_c_pos _))).
  - discriminate.
  - simpl. lia.
  - repeat (constructor; [eexists; split; [reflexivity | simpl; lia] |]).
    constructor.
Defined.

Lemma select_child_first_unvisited_witness :
  select_child one_unvisited start 0 0 select_c
    = Ret (Some 2, (place start 1).2) /\
  select_child_by (fun cn => if (n cn =? 0)%Z then Fin DBL_MAX else Fin 1)
    one_unvisited start 0
    = Ret (Some 2, (place start 1).2).
Proof.
  assert (Hex : Forall (fun ch => is_Some (one_unvisited !! ch)) (children root3))
    by (repeat (constructor; [eexists; reflexivity|]); constructor).
  assert (Hfirst : forall k ck (cn : Node), k < 1 -> children root3 !! k = Some ck ->
            one_unvisited !! ck = Some cn -> n cn <> 0%Z).
  { intros k ck cn Hk. assert (k = 0) as -> by lia.
    simpl. intros [= <-] [= <-]. discriminate. }
  destruct (select_child_first_unvisited one_unvisited start 0 root3 eq_refl Hex)
    as (HA & _ & HC).
  split.
  - refine (proj2 (proj2 (HC 0 root3 select_c eq_refl) _ _ _)
              1 2 unseen eq_refl eq_refl eq_refl Hfirst).
    + unfold select_c. rewrite Rabs_right; lra.
    + unfold int32. simpl. lia.
    + repeat (constructor;
              [eexists; split; [reflexivity | unfold int32; simpl; lia] |]).
      constructor.
  - refine (HA _ _ _ 1 2 unseen eq_refl eq_refl eq_refl Hfirst).
    + intros cn Hcn. rewrite Hcn. reflexivity.
    + intros ch cn _ _ Hcn. left.
      destruct (Z.eqb_spec (n cn) 0) as [Hz | _]; [contradiction|].
      apply gtb_Fin. pose proof DBL_MAX_large.
      assert (1 < 2 ^ 40)%R by (apply Rlt_pow_R1; [lra | lia]). lra.
Defined.

Lemma expand_creates_legal_children_witness :
  exists h' cs,
    expand (player 2) [root0] start 0
      = Ret (false, with_random (player 2) [(0, black); (1, black)] 1, h') /\
    h' !! 0 = Some (with_children root0 cs) /\ length cs = 2.
Proof.
  destruct (expand_creates_legal_children (player 2) [root0] start 0 root0
              eq_refl eq_refl (or_intror eq_refl))
    as (h' & cs & pl & _ & E & Eroot & Hcs & _).
  exists h', cs. split; [exact E|]. split; [exact Eroot|].
  apply Forall2_length in Hcs. exact Hcs.
Defined.

Lemma root_visits_equal_budget_witness :
  exists f0 a' h' rt,
    (forall fuel, f0 <= fuel -> search fuel (player 2) start = Ret (a', h')) /\
    h' !! root_ptr = Some rt /\ n rt = 2%Z.
Proof.
  destruct (root_visits_equal_budget (player 2) start (or_introl eq_refl))
    as (h0 & _ & _ & f0 & a' & h' & rt & E & _ & Ert & Hn).
  - simpl. lia.
  - exists f0, a', h', rt. auto.
Defined.

Lemma counters_invariant_witness :
  exists f0 a' h',
    (forall fuel, f0 <= fuel ->
       (h ← new_root (player 2); iterations fuel 2 start (player 2, h))
         = Ret (a', h')) /\
    Forall (fun nd => counters_ok nd /\ (n nd <= 2)%Z) h'.
Proof.
  exact (proj2 (proj2 (proj2 (proj2 (proj2
           (counters_invariant (player 2) start (or_introl eq_refl)))))) 2).
Defined.

Lemma no_move_without_children_witness :
  exists f0 a', forall fuel, f0 <= fuel ->
    take_action fuel (player 2) full = Ret (None, a').
Proof.
  refine (proj2 (proj2 (no_move_without_children (player 2) full
                          (or_introl eq_refl) _))).
  repeat constructor.
Defined.

Lemma same_seed_same_move_witness :
  exists f0 act a', forall fuel, f0 <= fuel ->
    Machine.take_action RowsMachine.low fuel
      (mkMCTSplayer [(0, black); (1, black)] black 3 7) start = Ret (act, a') /\
    Machine.take_action RowsMachine.high fuel
      (mkMCTSplayer [(0, black); (1, black)] black 3 7) start = Ret (act, a') /\
    take_action fuel
      (mkMCTSplayer [(0, black); (1, black)] black 3 7) start = Ret (act, a').
Proof.
  exact (same_seed_same_move
           (mkOptions "first" "black" (Some 7%Z) (Some 3%Z))
           (mkOptions "second" "black" (Some 7%Z) (Some 3%Z))
           _ _ start RowsMachine.low RowsMachine.high
           eq_refl eq_refl eq_refl eq_refl eq_refl
           RowsMachineFacts.low_sound RowsMachineFacts.high_sound).
Defined.

Lemma rollout_applies_every_legal_move_witness :
  exists sp g final,
    simulate_loop 3 [(0, black); (1, black)] 0 start = Ret (sp, g, final) /\
    Forall (fun mv => (place final mv.1).1 = false) [(0, black); (1, black)].
Proof.
  destruct (proj2 (proj2 (proj2
              (rollout_applies_every_legal_move (player 2) start))) 3)
    as (sp & g & final & E & _ & Hall & _).
  - vm_compute. lia.
  - exists sp, g, final. split; [exact E | exact Hall].
Defined.

Lemma exploration_constants_witness :
  gtb (uct_score final_c 3 won2) (uct_score final_c 3 half_won) = true.
Proof.
  refine (proj2 (proj2 (proj2 (proj2 (proj2 exploration_constants))))
            3%Z won2 half_won _ _ _ _ _).
  all: unfold int32, won2, half_won, node; simpl; try lia.
  reflexivity.
Defined.

End RowsChecks.

(** * Further properties of the search *)

(** ** The walk to the root *)

Section WalkFacts.
Context `{RandomAPI}.

Lemma chain_fun (h : heap) i l1 : chain h i l1 -> forall l2, chain h i l2 -> l1 = l2.
Proof.
  induction 1 as [i nd E Hp | i nd p l E Hp _ IH]; intros l2 H2.
  - inversion H2 as [i' nd' E' Hp' | i' nd' p' l' E' Hp' Hc']; subst; [reflexivity|].
    congruence.
  - inversion H2 as [i' nd' E' Hp' | i' nd' p' l' E' Hp' Hc']; subst; [congruence|].
    assert (p' = p) by congruence. subst p'. f_equal. apply IH. assumption.
Qed.

Lemma chain_from (h : heap) i l j :
  chain h i l -> j ∈ l -> exists l', chain h j l' /\ length l' <= length l.
Proof.
  induction 1 as [i nd E Hp | i nd p l E Hp Hc IH]; intros Hin.
  - apply list_elem_of_singleton in Hin as ->. exists [i]. split; [|reflexivity].
    eapply chain_top; eassumption.
  - apply elem_of_cons in Hin as [-> | Hin].
    + exists (i :: l). split; [|reflexivity]. eapply chain_up; eassumption.
    + destruct (IH Hin) as (l' & Hc' & Hlen). exists l'. split; [assumption|].
      simpl. lia.
Qed.

(** A walk that reaches a parentless node passes no node twice. *)
Lemma chain_NoDup (h : heap) i l : chain h i l -> NoDup l.
Proof.
  induction 1 as [i nd E Hp | i nd p l E Hp Hc IH].
  - apply NoDup_singleton.
  - apply NoDup_cons. split; [|assumption]. intros Hin.
    destruct (chain_from _ _ _ _ Hc Hin) as (l' & Hc' & Hlen).
    assert (Hc2 : chain h i (i :: l)) by (eapply chain_up; eassumption).
    rewrite (chain_fun _ _ _ Hc' _ Hc2) in Hlen. simpl in Hlen. lia.
Qed.

Lemma chain_allocated (h : heap) i l :
  chain h i l -> Forall (fun j => j < length h) l.
Proof.
  induction 1 as [i nd E Hp | i nd p l E Hp Hc IH].
  - constructor; [|constructor]. eapply lookup_lt_Some; eassumption.
  - constructor; [|assumption]. eapply lookup_lt_Some; eassumption.
Qed.

Lemma chain_short (h : heap) i l : chain h i l -> length l <= length h.
Proof.
  intros Hc. pose proof (chain_NoDup _ _ _ Hc) as Hnd.
  pose proof (chain_allocated _ _ _ Hc) as Hall.
  assert (Hsub : length l <= length (seq 0 (length h))).
  { apply submseteq_length, NoDup_submseteq; [assumption|].
    intros j Hin. rewrite Forall_forall in Hall. apply Hall in Hin.
    apply elem_of_seq. lia. }
  rewrite length_seq in Hsub. exact Hsub.
Qed.

(** X1. [backpropagation] from a node whose parent links lead to a
    parentless node returns [true]; every node on that walk has [n]
    increased by one and [w] by the result, exactly once, its links, mover
    and move staying as they are; every other node and the number of nodes
    stay as they are. Given the null pointer it returns [false] and changes
    nothing. *)
Theorem backpropagation_visits_walk (h : heap) i l result :
  chain h i l ->
  exists h',
    backpropagation h (Some i) result = Ret (true, h') /\
    length h' = length h /\
    (forall j x, j ∈ l -> h !! j = Some x ->
       exists x', h' !! j = Some x' /\
         n x' = (n x + 1)%Z /\ w x' = (w x + result)%Z /\
         parent x' = parent x /\ children x' = children x /\
         placer x' = placer x /\ node_move x' = node_move x) /\
    (forall j, j ∉ l -> h' !! j = h !! j) /\
    backpropagation h None result = Ret (false, h).
Proof.
  intros Hc. exists (visit_all result l h).
  split; [|split; [|split; [|split]]].
  - unfold backpropagation.
    rewrite (backprop_loop_chain result l); [reflexivity | assumption |].
    apply chain_short with i. assumption.
  - revert h Hc. clear. intros h _. revert h.
    induction l as [|j l IH]; intros h; [reflexivity|].
    simpl. rewrite IH. apply length_alter.
  - intros j x Hin Ex. exists (visit result x). split.
    + rewrite visit_all_once; [rewrite Ex; reflexivity | | assumption].
      eapply chain_NoDup; eassumption.
    + simpl. auto 10.
  - intros j Hnin. apply visit_all_notin. assumption.
  - reflexivity.
Qed.

End WalkFacts.

(** ** The descent and the board it returns *)

Section DescentFacts.
Context `{RandomAPI}.

Lemma replay_step (h : heap) state b bn i l :
  h !! b = Some bn ->
  replay h state (b :: i :: l)
    = (board_place (replay h state (i :: l)) (position (node_move bn))).2.
Proof. intros E. simpl. rewrite E. reflexivity. Qed.

Lemma chain_descends_head (h : heap) i l : chain h i l -> exists l', l = i :: l'.
Proof. destruct 1; eauto. Qed.

Lemma select_loop_walk (h : heap) rt state0 :
  tree_inv h -> h !! root_ptr = Some rt -> ((1 <= n rt)%Z \/ childless h) ->
  forall fuel node l,
    chain h node l -> descends h l -> length h <= fuel + node ->
    exists leaf l' ln,
      select_loop fuel h (replay h state0 l) node root_ptr
        = Ret (leaf, replay h state0 l') /\
      h !! leaf = Some ln /\ children ln = [] /\
      chain h leaf l' /\ descends h l'.
Proof.
  intros Hinv Ert Hvis.
  induction fuel as [|fuel IH]; intros node l Hc Hd Hf;
    destruct (chain_lookup _ _ _ Hc) as [nd E];
    rewrite select_loop_eq, (deref_Some _ _ _ E), bind_Ret;
    case_bool_decide as Hch.
  - exists node, l, nd. auto.
  - destruct Hvis as [Hn | Hno]; [|specialize (Hno _ _ E); contradiction].
    destruct (select_child_tree h (replay h state0 l) node select_c nd rt)
      as (i & b & bn & _ & Ebn & _ & Hlt & _); try assumption.
    { apply select_c_pos. }
    apply lookup_lt_Some in Ebn. lia.
  - exists node, l, nd. auto.
  - destruct Hvis as [Hn | Hno]; [|specialize (Hno _ _ E); contradiction].
    destruct (select_child_tree h (replay h state0 l) node select_c nd rt)
      as (i & b & bn & Esel & Ebn & (Ei & _) & Hlt & Hp); try assumption.
    { apply select_c_pos. }
    rewrite Esel, bind_Ret. simpl.
    destruct (chain_descends_head _ _ _ Hc) as [l0 ->].
    rewrite <- (replay_step h state0 b bn node l0 Ebn).
    apply (IH b (b :: node :: l0)).
    + eapply chain_up; eassumption.
    + eapply descends_child; [eassumption | eassumption |].
      apply list_elem_of_lookup. eauto.
    + lia.
Qed.

Lemma descends_last (h : heap) l : descends h l -> last l = Some root_ptr.
Proof. induction 1 as [|b p l pn _ IH _ _]; [reflexivity | exact IH]. Qed.

(** X2. In a heap with the links of a tree, under a visited root (or with no
    child anywhere), [select] returns a node without children; the walk from
    it along the parent links ends in the root and goes, read from the
    root, from each node to one of its children; and the board returned is
    the board given with the moves of that walk placed in order, the child
    of the root first. *)
Theorem select_returns_leaf_and_board (h : heap) rt state :
  tree_inv h -> h !! root_ptr = Some rt -> ((1 <= n rt)%Z \/ childless h) ->
  exists leaf l ln,
    select h state root_ptr = Ret (leaf, replay h state l) /\
    h !! leaf = Some ln /\ children ln = [] /\
    chain h leaf l /\ descends h l /\ last l = Some root_ptr.
Proof.
  intros Hinv Ert Hvis. unfold select.
  destruct (inv_root h Hinv) as (rt' & Ert' & Hp).
  destruct (select_loop_walk h rt state Hinv Ert Hvis (length h) root_ptr [root_ptr])
    as (leaf & l & ln & Esel & Eln & Hch & Hc & Hd).
  - eapply chain_top; eassumption.
  - constructor.
  - lia.
  - exists leaf, l, ln. simpl in Esel. rewrite Esel.
    split; [reflexivity|]. do 4 (split; [assumption|]).
    eapply descends_last; eassumption.
Qed.

End DescentFacts.

(** ** What a pass keeps *)

Section KeepFacts.
Context `{RandomAPI}.

Lemma keeps_fields_refl (h : heap) : keeps_fields h h.
Proof. intros i x E. exists x. auto. Qed.

Lemma keeps_fields_trans (h1 h2 h3 : heap) :
  keeps_fields h1 h2 -> keeps_fields h2 h3 -> keeps_fields h1 h3.
Proof.
  intros H12 H23 i x E.
  destruct (H12 i x E) as (x2 & E2 & Hp & Hc & Hpl & Hm).
  destruct (H23 i x2 E2) as (x3 & E3 & Hp' & Hc' & Hpl' & Hm').
  exists x3. split; [assumption|]. repeat split; congruence.
Qed.

Lemma keeps_fields_visit (h : heap) result j :
  keeps_fields h (alter (visit result) j h).
Proof.
  intros i x E. rewrite lookup_visit. destruct (decide (j = i)).
  - rewrite E. simpl. eexists. split; [reflexivity|]. auto.
  - exists x. auto.
Qed.

Lemma keeps_fields_visit_all result l : forall h : heap,
  keeps_fields h (visit_all result l h).
Proof.
  induction l as [|j l IH]; intros h; [apply keeps_fields_refl|].
  simpl. eapply keeps_fields_trans; [apply keeps_fields_visit | apply IH].
Qed.

Lemma length_visit_all result l : forall h : heap,
  length (visit_all result l h) = length h.
Proof.
  induction l as [|j l IH]; intros h; [reflexivity|].
  simpl. rewrite IH. apply length_alter.
Qed.

(** The nodes after the visits are the nodes before them, up to the
    counters. *)
Lemma visit_all_origin result l (h : heap) i x' :
  visit_all result l h !! i = Some x' ->
  exists x, h !! i = Some x /\ parent x' = parent x /\
    children x' = children x /\ placer x' = placer x /\
    node_move x' = node_move x.
Proof.
  intros E'. assert (Hlt : i < length h).
  { rewrite <- (length_visit_all result l). eapply lookup_lt_Some; eassumption. }
  apply lookup_lt_is_Some in Hlt as [x E].
  destruct (keeps_fields_visit_all result l h i x E) as (x2 & E2 & Hf).
  exists x. split; [assumption|]. congruence.
Qed.

Lemma visits_visit_all result l (h : heap) j :
  NoDup l -> j < length h ->
  visits (visit_all result l h) j
    = (visits h j + if decide (j ∈ l) then 1 else 0)%Z.
Proof.
  intros Hnd Hlt. unfold visits.
  apply lookup_lt_is_Some in Hlt as [x E].
  destruct (decide (j ∈ l)) as [Hin | Hnin].
  - rewrite visit_all_once, E by assumption. reflexivity.
  - rewrite visit_all_notin, E by assumption. lia.
Qed.

End KeepFacts.

(** ** The shape of the tree *)

Section ShapeFacts.
Context `{RandomAPI}.

Lemma tree_children_allocated (h : heap) i nd ch :
  tree_inv h -> h !! i = Some nd -> ch ∈ children nd -> ch < length h.
Proof.
  intros Hinv E Hin.
  destruct (inv_children h Hinv i nd ch E Hin) as (_ & cn & Ecn & _).
  eapply lookup_lt_Some; eassumption.
Qed.

Lemma shape_inv_visit_all result l (h : heap) :
  shape_inv h -> shape_inv (visit_all result l h).
Proof.
  intros [Hnd Hlk Halt]. split.
  - intros i x' E'.
    destruct (visit_all_origin _ _ _ _ _ E') as (x & E & _ & Hc & _).
    rewrite Hc. eauto.
  - intros c cn' p E' Hp.
    destruct (visit_all_origin _ _ _ _ _ E') as (cn & E & Hpar & _).
    destruct (Hlk c cn p E) as (pn & Epn & Hin); [congruence|].
    destruct (keeps_fields_visit_all result l h p pn Epn) as (pn' & Epn' & _ & Hc & _).
    exists pn'. split; [assumption|]. rewrite Hc. assumption.
  - intros i x' ch cn' E' Hin Ecn'.
    destruct (visit_all_origin _ _ _ _ _ E') as (x & E & _ & Hc & Hpl & _).
    destruct (visit_all_origin _ _ _ _ _ Ecn') as (cn & Ecn & _ & _ & Hplc & _).
    rewrite Hpl, Hplc. rewrite Hc in Hin. eauto.
Qed.

Lemma shape_inv_expanded (h h' : heap) node nd pl cs legal :
  tree_inv h -> shape_inv h -> h !! node = Some nd ->
  reverse_player (placer nd) = Ret pl ->
  expanded h h' node nd pl cs legal -> shape_inv h'.
Proof.
  intros Hinv [Hnd Hlk Halt] E Hpl Hexp.
  pose proof (lookup_lt_Some _ _ _ E) as Hlt.
  pose proof (exp_new _ _ _ _ _ _ _ Hexp) as Hnew.
  rewrite Forall_forall in Hnew.
  split.
  - intros i x Ex.
    destruct (expanded_lookup _ _ _ _ _ _ _ _ _ E Hexp Ex)
      as [(-> & ->) | [(Hi & Hne & Eold) | [(Hi & _ & mv & ->) | (Hi & ->)]]].
    + simpl. apply NoDup_app. split; [eauto|]. split.
      * intros c Hc Hc'. apply Hnew in Hc'.
        pose proof (tree_children_allocated h node nd c Hinv E Hc). lia.
      * apply (exp_nodup _ _ _ _ _ _ _ Hexp).
    + eauto.
    + apply NoDup_nil_2.
    + apply NoDup_nil_2.
  - intros c x p Ex Hp.
    destruct (expanded_lookup _ _ _ _ _ _ _ _ _ E Hexp Ex)
      as [(-> & ->) | [(Hi & Hne & Eold) | [(Hi & Hin & mv & ->) | (Hi & ->)]]].
    + simpl in Hp. destruct (Hlk node nd p E Hp) as (pn & Epn & Hin).
      destruct (decide (p = node)) as [-> | Hne].
      * assert (pn = nd) by congruence. subst pn.
        eexists. split; [apply (exp_node _ _ _ _ _ _ _ Hexp)|]. simpl.
        apply elem_of_app. left. assumption.
      * exists pn. split; [|assumption].
        rewrite (exp_old _ _ _ _ _ _ _ Hexp); [assumption | | assumption].
        eapply lookup_lt_Some; eassumption.
    + destruct (Hlk c x p Eold Hp) as (pn & Epn & Hin).
      destruct (decide (p = node)) as [-> | Hnep].
      * assert (pn = nd) by congruence. subst pn.
        eexists. split; [apply (exp_node _ _ _ _ _ _ _ Hexp)|]. simpl.
        apply elem_of_app. left. assumption.
      * exists pn. split; [|assumption].
        rewrite (exp_old _ _ _ _ _ _ _ Hexp); [assumption | | assumption].
        eapply lookup_lt_Some; eassumption.
    + simpl in Hp. injection Hp as <-.
      eexists. split; [apply (exp_node _ _ _ _ _ _ _ Hexp)|]. simpl.
      apply elem_of_app. right. assumption.
    + discriminate.
  - intros i x ch cn Ex Hin Ecn.
    assert (Hchild : forall y c, h !! i = Some y -> c ∈ children y ->
              h' !! c = Some cn -> ch = c ->
              reverse_player (placer y) = Ret (placer cn)).
    { intros y c Ey Hc Ec ->.
      destruct (inv_children h Hinv i y c Ey Hc) as (_ & c0 & Ec0 & _).
      destruct (expanded_old _ _ _ _ _ _ _ _ _ E Hexp Ec0)
        as (c1 & Ec1 & _ & _ & _ & Hplc & _).
      assert (c1 = cn) by congruence. subst c1. rewrite Hplc. eauto. }
    destruct (expanded_lookup _ _ _ _ _ _ _ _ _ E Hexp Ex)
      as [(-> & ->) | [(Hi & Hne & Eold) | [(Hi & _ & mv & ->) | (Hi & ->)]]].
    + simpl in Hin. simpl. apply elem_of_app in Hin as [Hin | Hin].
      * eapply Hchild; eauto.
      * apply list_elem_of_lookup in Hin as [k Ek].
        destruct (Forall2_lookup_l _ _ _ _ _ (exp_children _ _ _ _ _ _ _ Hexp) Ek)
          as (mv & _ & Emv).
        assert (cn = fresh_child node pl mv) by congruence. subst cn. exact Hpl.
    + eapply Hchild; eauto.
    + inversion Hin.
    + inversion Hin.
Qed.

End ShapeFacts.

(** ** The tree over the passes *)

Section TreeOverPasses.
Context `{GameLaws}.

Lemma expansion_shape (a : MCTSplayer) (h : heap) state leaf ln a1 h1 :
  tree_inv h -> shape_inv h -> h !! leaf = Some ln ->
  expansion a h state leaf ln a1 h1 -> shape_inv h1.
Proof.
  intros Hinv Hsh Eln [(Hz & -> & pl & cs & Hpl & Hexp) | (Hnz & -> & ->)];
    [|assumption].
  eapply shape_inv_expanded; eassumption.
Qed.

(** Across the expansion step every node keeps its parent, mover and move,
    and every node that had a child keeps its children. *)
Lemma expansion_keeps (a : MCTSplayer) (h : heap) state leaf ln a1 h1 i x :
  h !! leaf = Some ln -> children ln = [] ->
  expansion a h state leaf ln a1 h1 -> h !! i = Some x ->
  exists x', h1 !! i = Some x' /\ parent x' = parent x /\
    placer x' = placer x /\ node_move x' = node_move x /\
    (children x <> [] -> children x' = children x).
Proof.
  intros Eln Hnil [(Hz & -> & pl & cs & Hpl & Hexp) | (Hnz & -> & ->)] Ex.
  - destruct (expanded_old _ _ _ _ _ _ _ _ _ Eln Hexp Ex)
      as (x' & E' & Hp & _ & _ & Hpl' & Hm & Hsame).
    exists x'. do 4 (split; [assumption|]).
    intros Hne. rewrite Hsame; [reflexivity|].
    intros ->. assert (x = ln) by congruence. subst x. contradiction.
  - exists x. auto.
Qed.

Lemma pass_keeps state (a : MCTSplayer) (h : heap) a2 h2 i x :
  pass state a h a2 h2 -> h !! i = Some x ->
  exists x', h2 !! i = Some x' /\ parent x' = parent x /\
    placer x' = placer x /\ node_move x' = node_move x /\
    (children x <> [] -> children x' = children x).
Proof.
  intros Hpass Ex.
  destruct Hpass as [leaf state' l ln a1 h1 result a2 Esel Eln Hnil Hc Hl Hexp Hres _ _ _].
  destruct (expansion_keeps _ _ _ _ _ _ _ _ _ Eln Hnil Hexp Ex)
    as (x1 & E1 & Hp & Hpl & Hm & Hch).
  destruct (keeps_fields_visit_all result l h1 i x1 E1)
    as (x2 & E2 & Hp2 & Hc2 & Hpl2 & Hm2).
  exists x2. split; [assumption|]. repeat split; try congruence.
  intros Hne. rewrite Hc2. auto.
Qed.

Lemma pass_shape k state (a : MCTSplayer) (h : heap) a2 h2 :
  loop_inv k h -> shape_inv h -> pass state a h a2 h2 -> shape_inv h2.
Proof.
  intros Hloop Hsh Hpass.
  destruct Hpass as [leaf state' l ln a1 h1 result a2 Esel Eln Hnil Hc Hl Hexp Hres _ _ _].
  apply shape_inv_visit_all.
  eapply expansion_shape; try eassumption. apply (loop_tree k). assumption.
Qed.

Lemma passes_shape state (a : MCTSplayer) (h : heap) k a' h' :
  loop_inv 0 h -> shape_inv h -> passes state a h k a' h' -> shape_inv h'.
Proof.
  intros Hinit Hsh. induction 1 as [|k a1 h1 a2 h2 Hp IH Hpass]; [assumption|].
  eapply pass_shape; [|exact IH|exact Hpass].
  eapply passes_loop_inv; eassumption.
Qed.

Lemma passes_keeps state (a : MCTSplayer) (h : heap) k a' h' i x :
  passes state a h k a' h' -> h !! i = Some x ->
  exists x', h' !! i = Some x' /\ parent x' = parent x /\
    placer x' = placer x /\ node_move x' = node_move x /\
    (children x <> [] -> children x' = children x).
Proof.
  induction 1 as [|k a1 h1 a2 h2 Hp IH Hpass]; intros Ex.
  - exists x. auto.
  - destruct (IH Ex) as (x1 & E1 & Hp1 & Hpl1 & Hm1 & Hc1).
    destruct (pass_keeps _ _ _ _ _ _ _ Hpass E1) as (x2 & E2 & Hp2 & Hpl2 & Hm2 & Hc2).
    exists x2. split; [assumption|]. repeat split; try congruence.
    intros Hne. rewrite Hc2; [auto|]. rewrite Hc1; assumption.
Qed.

Lemma shape_inv_childless (h : heap) :
  childless h -> (forall i x, h !! i = Some x -> parent x = None) -> shape_inv h.
Proof.
  intros Hch Hpar. split.
  - intros i x E. rewrite (Hch _ _ E). apply NoDup_nil_2.
  - intros c cn p E Hp. rewrite (Hpar _ _ E) in Hp. discriminate.
  - intros i x ch cn E Hin. rewrite (Hch _ _ E) in Hin. inversion Hin.
Qed.

Lemma new_root_shape (a : MCTSplayer) h0 :
  new_root a = Ret h0 ->
  shape_inv h0 /\ exists rt, h0 = [rt] /\ children rt = [] /\ n rt = 0%Z /\
    reverse_player (who a) = Ret (placer rt).
Proof.
  unfold new_root. intros E. apply bind_inv in E as (pl & Hpl & E).
  injection E as <-. split.
  - apply shape_inv_childless.
    + intros [|[|i]] x Ex; simpl in Ex; try discriminate.
      injection Ex as <-. reflexivity.
    + intros [|[|i]] x Ex; simpl in Ex; try discriminate.
      injection Ex as <-. reflexivity.
  - eexists. split; [reflexivity|]. simpl. auto.
Qed.

(** X6. After any number of passes of the search loop the nodes form a
    tree: the root has no parent; every child was allocated after its
    parent and points back to it, so no node is the child of two nodes;
    whoever has a parent is listed, once, among that parent's children; and
    the mover changes from each node to its children, the root standing for
    the opponent of the agent. *)
Theorem search_keeps_tree (a : MCTSplayer) state :
  who a = black \/ who a = white ->
  forall k, exists f0 a' h' rt,
    (forall fuel, f0 <= fuel ->
       (h ← new_root a; iterations fuel k state (a, h)) = Ret (a', h')) /\
    tree_inv h' /\ shape_inv h' /\
    h' !! root_ptr = Some rt /\ reverse_player (who a) = Ret (placer rt) /\
    (forall i j x y ch, h' !! i = Some x -> h' !! j = Some y ->
       ch ∈ children x -> ch ∈ children y -> i = j).
Proof.
  intros Hwho k.
  destruct (search_passes a state Hwho) as (h0 & E0 & Hinit & Hrun).
  destruct (new_root_shape a h0 E0) as (Hsh0 & rt0 & -> & _ & _ & Hpl0).
  destruct (Hrun k) as (f0 & a' & h' & Erun & Hp & Hloop).
  destruct (passes_keeps _ _ _ _ _ _ root_ptr rt0 Hp eq_refl)
    as (rt & Ert & _ & Hpl & _).
  pose proof (loop_tree _ _ Hloop) as Hinv.
  exists f0, a', h', rt. split; [assumption|]. split; [assumption|].
  split; [eapply passes_shape; eassumption|].
  split; [assumption|]. split; [rewrite Hpl; assumption|].
  intros i j x y ch Ex Ey Hx Hy.
  destruct (inv_children h' Hinv i x ch Ex Hx) as (_ & c1 & Ec1 & Hp1).
  destruct (inv_children h' Hinv j y ch Ey Hy) as (_ & c2 & Ec2 & Hp2).
  congruence.
Qed.

End TreeOverPasses.

(** ** The children of the root and the move returned *)

Section RootChildren.
Context `{GameLaws}.

Local Arguments select : simpl never.

Lemma moves_match_keeps (h h' : heap) cs mvs :
  (forall i x, h !! i = Some x ->
     exists x', h' !! i = Some x' /\ node_move x' = node_move x) ->
  moves_match h cs mvs -> moves_match h' cs mvs.
Proof.
  intros Hk Hmm. unfold moves_match. eapply Forall2_impl; [exact Hmm|].
  intros ch mv (cn & Ecn & Hm). destruct (Hk ch cn Ecn) as (cn' & Ecn' & Hm').
  exists cn'. split; [assumption | congruence].
Qed.

(** Once a pass has run, the children of the root carry the candidates that
    are legal on the board of the decision, in the order of the first
    shuffle. *)
Lemma passes_root_children state (a : MCTSplayer) (h0 : heap) k a' h' :
  loop_inv 0 h0 -> passes state a h0 k a' h' -> 1 <= k ->
  exists rt, h' !! root_ptr = Some rt /\
    moves_match h' (children rt) (legal_moves state (shuffle (space a) (rng a)).1).
Proof.
  intros Hinit. induction 1 as [|k a1 h1 a2 h2 Hp IH Hpass]; intros Hk; [lia|].
  pose proof (passes_loop_inv _ _ _ _ _ _ Hinit Hp) as Hloop.
  destruct (loop_count _ _ Hloop) as (rt1 & Ert1 & Hn1).
  assert (Hkeep : forall i x, h1 !! i = Some x ->
            exists x', h2 !! i = Some x' /\ node_move x' = node_move x).
  { intros i x Ex. destruct (pass_keeps _ _ _ _ _ _ _ Hpass Ex) as (x' & E' & _ & _ & Hm & _).
    eauto. }
  destruct k as [|k].
  - inversion Hp; subst. clear IH Hp.
    pose proof (loop_fresh _ _ Hloop eq_refl) as Hch.
    destruct Hpass as [leaf state' l ln ax hx result a2 Esel Eln Hnil Hc Hl Hexp Hres _ _ _].
    rewrite (select_childless h1 state rt1 Ert1 (Hch _ _ Ert1)) in Esel.
    injection Esel as <- <-.
    assert (ln = rt1) by congruence. subst ln.
    destruct Hexp as [(Hz & -> & pl & cs & Hpl & Hexp) | (Hnz & _)];
      [|lia].
    destruct (keeps_fields_visit_all result l hx root_ptr _ (exp_node _ _ _ _ _ _ _ Hexp))
      as (rt2 & Ert2 & _ & Hc2 & _).
    exists rt2. split; [assumption|]. rewrite Hc2. simpl. rewrite Hnil. simpl.
    apply (moves_match_keeps hx).
    + intros i x Ex.
      destruct (keeps_fields_visit_all result l hx i x Ex) as (x' & E' & _ & _ & _ & Hm).
      eauto.
    + eapply Forall2_impl; [apply (exp_children _ _ _ _ _ _ _ Hexp)|].
      intros ch mv Ech. eexists. split; [exact Ech | reflexivity].
  - destruct IH as (rt1' & Ert1' & Hmm); [lia|].
    assert (rt1' = rt1) by congruence. subst rt1'.
    destruct (decide (children rt1 = [])) as [Hnil1 | Hne1].
    + rewrite Hnil1 in Hmm. apply Forall2_nil_inv_l in Hmm. rewrite Hmm.
      destruct Hpass as [leaf state' l ln a1' hx result a2 Esel Eln Hnil Hc Hl Hexp Hres _ _ _].
      rewrite (select_childless h1 state rt1 Ert1 Hnil1) in Esel.
      injection Esel as <- <-.
      assert (ln = rt1) by congruence. subst ln.
      destruct Hexp as [(Hz & _) | (Hnz & -> & ->)]; [lia|].
      destruct (keeps_fields_visit_all result l h1 root_ptr rt1 Ert1)
        as (rt2 & Ert2 & _ & Hc2 & _).
      exists rt2. split; [assumption|]. rewrite Hc2, Hnil1. constructor.
    + destruct (pass_keeps _ _ _ _ _ _ _ Hpass Ert1) as (rt2 & Ert2 & _ & _ & _ & Hc2).
      exists rt2. split; [assumption|]. rewrite Hc2 by assumption.
      eapply moves_match_keeps; eassumption.
Qed.

Lemma legal_moves_in state moves mv :
  mv ∈ legal_moves state moves <->
  mv ∈ moves /\ (board_place state (position mv)).1 = true.
Proof. unfold legal_moves. rewrite list_elem_of_filter. tauto. Qed.

(** X5. [take_action] returns. With a budget of at least one pass and some
    candidate legal on the board given, it returns one of the agent's
    candidates that is legal on that board (the move of a child of the
    root); with a budget of zero or less, or with no candidate legal, it
    returns [action()]. *)
Theorem take_action_returns_legal_move (a : MCTSplayer) state :
  who a = black \/ who a = white ->
  exists f0 act a',
    (forall fuel, f0 <= fuel -> take_action fuel a state = Ret (act, a')) /\
    ((simulation_times a <= 0)%Z \/ no_legal_move a state -> act = no_action) /\
    ((1 <= simulation_times a)%Z -> ~ no_legal_move a state ->
     exists mv, act = as_action mv /\ mv ∈ space a /\
       (board_place state (position mv)).1 = true).
Proof.
  intros Hwho.
  destruct (take_action_ok a state Hwho)
    as (f0 & act & a' & h0 & h' & rt & Erun & E0 & Hinit & Hp & Hloop & Ert & Hact).
  exists f0, act, a'. split; [intros fuel Hfuel; apply (Erun fuel Hfuel)|].
  clear Erun. split.
  - intros [HT | Hno].
    + destruct Hact as [(_ & ->) | (b & bn & Hin & _)]; [reflexivity|].
      assert (Hz : Z.to_nat (simulation_times a) = 0) by lia.
      rewrite Hz in Hloop.
      rewrite (loop_fresh _ _ Hloop eq_refl _ _ Ert) in Hin. inversion Hin.
    + destruct Hact as [(_ & ->) | (b & bn & Hin & _)]; [reflexivity|].
      destruct (passes_childless _ _ _ _ _ _ Hinit Hno Hp) as [Hch _].
      rewrite (Hch _ _ Ert) in Hin. inversion Hin.
  - intros HT Hsome.
    destruct (passes_root_children _ _ _ _ _ _ Hinit Hp) as (rt' & Ert' & Hmm); [lia|].
    assert (rt' = rt) by congruence. subst rt'.
    assert (Hin_legal : forall ch cn, ch ∈ children rt -> h' !! ch = Some cn ->
              node_move cn ∈ space a /\
              (board_place state (position (node_move cn))).1 = true).
    { intros ch cn Hin Ecn. apply list_elem_of_lookup in Hin as [i Ei].
      destruct (Forall2_lookup_l _ _ _ _ _ Hmm Ei) as (mv & Emv & cn' & Ecn' & Hm).
      assert (cn' = cn) by congruence. subst cn'. subst mv.
      assert (Hl : node_move cn ∈ legal_moves state (shuffle (space a) (rng a)).1)
        by (apply list_elem_of_lookup; eauto).
      apply legal_moves_in in Hl as [Hsp Hlegal]. split; [|assumption].
      rewrite <- (shuffle_perm (space a) (rng a)). assumption. }
    destruct Hact as [(Hnil & _) | (b & bn & Hin & Ebn & ->)].
    + exfalso. apply Hsome. unfold no_legal_move.
      rewrite Hnil in Hmm. apply Forall2_nil_inv_l in Hmm.
      rewrite <- (shuffle_perm (space a) (rng a)).
      apply Forall_forall. intros mv Hmv.
      destruct (board_place state (position mv)).1 eqn:Hl; [|reflexivity].
      assert (Hin : mv ∈ legal_moves state (shuffle (space a) (rng a)).1)
        by (apply legal_moves_in; auto).
      rewrite Hmm in Hin. inversion Hin.
    + exists (node_move bn). split; [reflexivity|]. eapply Hin_legal; eassumption.
Qed.

End RootChildren.

(** ** More on expansion *)

Section ExpandMore.
Context `{GameLaws}.

Lemma legal_moves_perm state (l1 l2 : list move) :
  l1 ≡ₚ l2 -> length (legal_moves state l1) = length (legal_moves state l2).
Proof.
  intros Hp. unfold legal_moves. apply Permutation_length.
  rewrite Hp. reflexivity.
Qed.

Lemma expand_counts (a : MCTSplayer) (h : heap) state node nd :
  h !! node = Some nd -> placer nd = black \/ placer nd = white ->
  exists h' cs a' pl,
    expand a h state node = Ret (bool_decide (children nd ++ cs = []), a', h') /\
    reverse_player (placer nd) = Ret pl /\
    expanded h h' node nd pl cs (legal_moves state (shuffle (space a) (rng a)).1) /\
    length cs = length (legal_moves state (space a)) /\
    length h' = length h + length (space a) /\
    space a' ≡ₚ space a /\ who a' = who a.
Proof.
  intros E Hside. destruct (reverse_player_defined _ Hside) as [pl Hpl].
  destruct (expand_expanded a h state node nd pl E Hpl) as (h' & cs & Eexp & Hlen & Hexp).
  pose proof (shuffle_perm (space a) (rng a)) as Hperm.
  eexists h', cs, _, pl. split; [exact Eexp|]. split; [assumption|].
  split; [assumption|]. split; [|split; [|split]].
  - rewrite (Forall2_length _ _ _ (exp_children _ _ _ _ _ _ _ Hexp)).
    apply legal_moves_perm. assumption.
  - rewrite Hlen. f_equal. apply Permutation_length. assumption.
  - simpl. assumption.
  - reflexivity.
Qed.

(** X3. [expand] appends: whatever children the node has, it gets one more
    child for every legal candidate, behind those it had, and the result is
    [true] only if it has none afterwards. Called a second time on the same
    node and board it adds the same number of children again; it does not
    notice that the node was expanded before. *)
Theorem expand_appends_children (a : MCTSplayer) (h : heap) state node nd :
  h !! node = Some nd -> placer nd = black \/ placer nd = white ->
  exists h1 cs1 a1 h2 cs2 a2,
    expand a h state node
      = Ret (bool_decide (children nd ++ cs1 = []), a1, h1) /\
    h1 !! node = Some (with_children nd (children nd ++ cs1)) /\
    length cs1 = length (legal_moves state (space a)) /\
    expand a1 h1 state node
      = Ret (bool_decide (children nd ++ cs1 ++ cs2 = []), a2, h2) /\
    h2 !! node = Some (with_children nd (children nd ++ cs1 ++ cs2)) /\
    length cs2 = length (legal_moves state (space a)).
Proof.
  intros E Hside.
  destruct (expand_counts a h state node nd E Hside)
    as (h1 & cs1 & a1 & pl & E1 & Hpl & Hexp1 & Hlen1 & _ & Hsp1 & _).
  pose proof (exp_node _ _ _ _ _ _ _ Hexp1) as En1.
  destruct (expand_counts a1 h1 state node _ En1 Hside)
    as (h2 & cs2 & a2 & pl2 & E2 & _ & Hexp2 & Hlen2 & _).
  exists h1, cs1, a1, h2, cs2, a2.
  split; [exact E1|]. split; [exact En1|]. split; [exact Hlen1|].
  simpl in E2. rewrite <- app_assoc in E2. split; [exact E2|].
  split.
  - rewrite (exp_node _ _ _ _ _ _ _ Hexp2). unfold with_children. simpl.
    rewrite <- app_assoc. reflexivity.
  - rewrite Hlen2. apply legal_moves_perm. assumption.
Qed.

(** X4. [expand] allocates a node for every candidate, legal or not: the
    heap grows by the number of candidates. The new nodes that did not
    become children of the node (one for each illegal candidate) are left in
    their initial state and no node lists them as a child. *)
Theorem expand_allocates_every_candidate (a : MCTSplayer) (h : heap) state node nd :
  h !! node = Some nd -> placer nd = black \/ placer nd = white ->
  (forall i x ch, h !! i = Some x -> ch ∈ children x -> ch < length h) ->
  exists flag a' h' cs,
    expand a h state node = Ret (flag, a', h') /\
    length h' = length h + length (space a) /\
    h' !! node = Some (with_children nd (children nd ++ cs)) /\
    length cs = length (legal_moves state (space a)) /\
    forall j, length h <= j < length h' -> j ∉ cs ->
      h' !! j = Some new_Node /\
      forall i x, h' !! i = Some x -> j ∉ children x.
Proof.
  intros E Hside Halloc.
  destruct (expand_counts a h state node nd E Hside)
    as (h' & cs & a' & pl & Eexp & Hpl & Hexp & Hlen & Hgrow & _).
  eexists _, a', h', cs. split; [exact Eexp|]. split; [assumption|].
  split; [apply (exp_node _ _ _ _ _ _ _ Hexp)|]. split; [assumption|].
  intros j [Hj1 Hj2] Hnin. split.
  - apply lookup_lt_is_Some in Hj2 as [x Ex]. rewrite Ex. f_equal.
    apply (exp_unused _ _ _ _ _ _ _ Hexp j x); assumption.
  - intros i x Ex Hin.
    destruct (expanded_lookup _ _ _ _ _ _ _ _ _ E Hexp Ex)
      as [(-> & ->) | [(Hi & Hne & Eold) | [(Hi & _ & mv & ->) | (Hi & ->)]]].
    + simpl in Hin. apply elem_of_app in Hin as [Hin | Hin]; [|contradiction].
      specialize (Halloc _ _ _ E Hin). lia.
    + specialize (Halloc _ _ _ Eold Hin). lia.
    + inversion Hin.
    + inversion Hin.
Qed.

End ExpandMore.

(** ** Visit counts add up *)

Section CountFacts.
Context `{GameLaws}.

Lemma chain_next (h : heap) x l c cn p :
  chain h x l -> c ∈ l -> h !! c = Some cn -> parent cn = Some p ->
  next_in l c p.
Proof.
  induction 1 as [i nd E Hp | i nd p0 l E Hp Hc IH]; intros Hin Ec Hpc.
  - apply list_elem_of_singleton in Hin as ->. congruence.
  - apply elem_of_cons in Hin as [-> | Hin].
    + assert (p0 = p) by congruence. subst p0.
      destruct (chain_descends_head _ _ _ Hc) as [l' ->].
      exists [], l'. reflexivity.
    + destruct (IH Hin Ec Hpc) as (l1 & l2 & ->).
      exists (i :: l1), l2. reflexivity.
Qed.

Lemma next_in_unique l c c' p :
  NoDup l -> next_in l c p -> next_in l c' p -> c = c'.
Proof.
  intros Hnd (l1 & l2 & E1) (l1' & l2' & E2).
  assert (Hp1 : l !! S (length l1) = Some p).
  { rewrite E1. rewrite lookup_app_r by lia.
    replace (S (length l1) - length l1) with 1 by lia. reflexivity. }
  assert (Hp2 : l !! S (length l1') = Some p).
  { rewrite E2. rewrite lookup_app_r by lia.
    replace (S (length l1') - length l1') with 1 by lia. reflexivity. }
  pose proof (NoDup_lookup _ _ _ _ Hnd Hp1 Hp2) as Hlen.
  assert (Hc1 : l !! length l1 = Some c).
  { rewrite E1. apply list_lookup_middle. reflexivity. }
  assert (Hc2 : l !! length l1' = Some c').
  { rewrite E2. apply list_lookup_middle. reflexivity. }
  assert (length l1 = length l1') by lia. congruence.
Qed.

Lemma next_in_elem l c p : next_in l c p -> c ∈ l /\ p ∈ l.
Proof.
  intros (l1 & l2 & ->). split; apply elem_of_app; right.
  - apply list_elem_of_here.
  - apply list_elem_of_further, list_elem_of_here.
Qed.

Lemma chain_prev (h : heap) x l i :
  chain h x l -> i ∈ l -> i <> x ->
  exists b bn, next_in l b i /\ h !! b = Some bn /\ parent bn = Some i.
Proof.
  induction 1 as [x nd E Hp | x nd p l E Hp Hc IH]; intros Hin Hne.
  - apply list_elem_of_singleton in Hin. contradiction.
  - apply elem_of_cons in Hin as [-> | Hin]; [contradiction|].
    destruct (chain_descends_head _ _ _ Hc) as [l' ->].
    destruct (decide (i = p)) as [-> | Hnp].
    + exists x, nd. split; [|auto]. exists [], l'. reflexivity.
    + destruct (IH Hin Hnp) as (b & bn & (l1 & l2 & El) & Eb & Hpb).
      exists b, bn. split; [|auto]. exists (x :: l1), l2. rewrite El. reflexivity.
Qed.

Lemma sum_visits_same (h h' : heap) cs :
  (forall c, c ∈ cs -> visits h' c = visits h c) ->
  sum_visits h' cs = sum_visits h cs.
Proof.
  induction cs as [|c cs IH]; intros Hsame; [reflexivity|].
  simpl. rewrite Hsame by apply list_elem_of_here.
  rewrite IH; [reflexivity|].
  intros c' Hin. apply Hsame. apply list_elem_of_further. assumption.
Qed.

Lemma sum_visits_one (h h' : heap) cs b :
  NoDup cs -> b ∈ cs -> visits h' b = (visits h b + 1)%Z ->
  (forall c, c ∈ cs -> c <> b -> visits h' c = visits h c) ->
  sum_visits h' cs = (sum_visits h cs + 1)%Z.
Proof.
  induction cs as [|c cs IH]; intros Hnd Hin Hb Hothers; [inversion Hin|].
  apply NoDup_cons in Hnd as [Hc Hnd]. simpl.
  apply elem_of_cons in Hin as [-> | Hin].
  - rewrite Hb. rewrite (sum_visits_same h h' cs); [lia|].
    intros c' Hin'. apply Hothers; [apply list_elem_of_further; assumption|].
    intros ->. contradiction.
  - rewrite (Hothers c); [|apply list_elem_of_here | intros ->; contradiction].
    rewrite IH; [lia | assumption | assumption | assumption |].
    intros c' Hin' Hne. apply Hothers; [|assumption].
    apply list_elem_of_further. assumption.
Qed.

Lemma sum_visits_zero (h : heap) cs :
  (forall c, c ∈ cs -> visits h c = 0%Z) -> sum_visits h cs = 0%Z.
Proof.
  induction cs as [|c cs IH]; intros Hz; [reflexivity|].
  simpl. rewrite Hz by apply list_elem_of_here.
  rewrite IH; [reflexivity|].
  intros c' Hin. apply Hz. apply list_elem_of_further. assumption.
Qed.

(** The visits along a walk keep the sum at every node other than the end
    of the walk: such a node is visited together with exactly one of its
    children, or not at all. *)
Lemma visit_all_count (h1 : heap) l leaf result i x1 :
  tree_inv h1 -> shape_inv h1 -> chain h1 leaf l ->
  h1 !! i = Some x1 -> i <> leaf ->
  n x1 = (1 + sum_visits h1 (children x1))%Z ->
  visits (visit_all result l h1) i
    = (1 + sum_visits (visit_all result l h1) (children x1))%Z.
Proof.
  intros Hinv Hsh Hc Ex Hne Hcount.
  pose proof (chain_NoDup _ _ _ Hc) as Hnd.
  assert (Hvis : forall j, j < length h1 ->
            visits (visit_all result l h1) j
              = (visits h1 j + if decide (j ∈ l) then 1 else 0)%Z).
  { intros j Hj. apply visits_visit_all; assumption. }
  assert (Hchild : forall c, c ∈ children x1 ->
            c < length h1 /\ (c ∈ l -> next_in l c i)).
  { intros c Hin.
    destruct (inv_children h1 Hinv i x1 c Ex Hin) as (_ & cn & Ecn & Hp).
    split; [eapply lookup_lt_Some; eassumption|].
    intros Hcl. eapply chain_next; eassumption. }
  rewrite Hvis by (eapply lookup_lt_Some; eassumption).
  unfold visits at 1. rewrite Ex, Hcount.
  destruct (decide (i ∈ l)) as [Hil | Hnil].
  - destruct (chain_prev _ _ _ _ Hc Hil Hne) as (b & bn & Hnext & Eb & Hpb).
    destruct (shape_linked h1 Hsh b bn i Eb Hpb) as (x1' & Ex' & Hbin).
    assert (x1' = x1) by congruence. subst x1'.
    rewrite (sum_visits_one h1 (visit_all result l h1) (children x1) b);
      [lia | eapply shape_nodup; eassumption | assumption | |].
    + rewrite Hvis by (eapply lookup_lt_Some; eassumption).
      destruct (decide (b ∈ l)) as [_ | Hnb]; [reflexivity|].
      exfalso. apply Hnb. apply (next_in_elem _ _ _ Hnext).
    + intros c Hin Hcb. destruct (Hchild c Hin) as [Hlt Hnx].
      rewrite Hvis by assumption.
      destruct (decide (c ∈ l)) as [Hcl | _]; [|lia].
      exfalso. apply Hcb. eapply next_in_unique; eauto.
  - rewrite (sum_visits_same h1 (visit_all result l h1) (children x1)); [lia|].
    intros c Hin. destruct (Hchild c Hin) as [Hlt Hnx].
    rewrite Hvis by assumption.
    destruct (decide (c ∈ l)) as [Hcl | _]; [|lia].
    exfalso. apply Hnil. apply (next_in_elem _ _ _ (Hnx Hcl)).
Qed.

Lemma pass_count k state (a : MCTSplayer) (h : heap) a2 h2 :
  loop_inv k h -> shape_inv h -> count_inv h ->
  pass state a h a2 h2 -> count_inv h2.
Proof.
  intros Hloop Hsh Hcnt Hpass. pose proof (loop_tree _ _ Hloop) as Hinv.
  destruct Hpass as [leaf state' l ln a1 h1 result a2 Esel Eln Hnil Hc Hl Hexp Hres _ _ _].
  destruct (expansion_tree _ _ _ _ _ _ _ _ Hinv Eln Hc Hexp) as (Hinv1 & Hc1 & Hold & _).
  pose proof (expansion_shape _ _ _ _ _ _ _ Hinv Hsh Eln Hexp) as Hsh1.
  pose proof (chain_NoDup _ _ _ Hc1) as Hnd.
  pose proof (chain_allocated _ _ _ Hc) as Hall. rewrite Forall_forall in Hall.
  intros i x2 E2 Hne2.
  destruct (visit_all_origin _ _ _ _ _ E2) as (x1 & E1 & _ & Hch & _).
  assert (Hn2 : n x2 = visits (visit_all result l h1) i).
  { unfold visits. rewrite E2. reflexivity. }
  rewrite Hn2, Hch. rewrite Hch in Hne2.
  destruct (decide (i = leaf)) as [-> | Hnleaf].
  - (* the end of the walk has children only if it was expanded just now *)
    destruct Hexp as [(Hz & -> & pl & cs & Hpl & Hexp) | (Hnz & -> & ->)].
    + pose proof (exp_node _ _ _ _ _ _ _ Hexp) as Eleaf.
      assert (x1 = with_children ln (children ln ++ cs)) by congruence. subst x1.
      simpl. rewrite Hnil. simpl.
      assert (Hfresh : forall c, c ∈ cs ->
                visits (visit_all result l h1) c = 0%Z).
      { intros c Hin.
        pose proof (exp_new _ _ _ _ _ _ _ Hexp) as Hnew.
        rewrite Forall_forall in Hnew. specialize (Hnew c Hin).
        apply list_elem_of_lookup in Hin as [j Ej].
        destruct (Forall2_lookup_l _ _ _ _ _ (exp_children _ _ _ _ _ _ _ Hexp) Ej)
          as (mv & _ & Ec).
        rewrite visits_visit_all;
          [|assumption | eapply lookup_lt_Some; eassumption].
        unfold visits. rewrite Ec. simpl.
        destruct (decide (c ∈ l)) as [Hcl | _]; [|reflexivity].
        apply Hall in Hcl. lia. }
      rewrite (sum_visits_zero _ cs Hfresh).
      rewrite visits_visit_all;
        [|assumption | eapply lookup_lt_Some; eassumption].
      unfold visits. rewrite Eleaf. simpl.
      destruct (decide (leaf ∈ l)) as [_ | Hnl]; [lia|].
      exfalso. apply Hnl. destruct (chain_descends_head _ _ _ Hc) as [l' ->].
      apply list_elem_of_here.
    + assert (x1 = ln) by congruence. subst x1. contradiction.
  - apply visit_all_count with leaf; try assumption.
    destruct Hexp as [(Hz & -> & pl & cs & Hpl & Hexp) | (Hnz & -> & ->)].
    + destruct (expanded_lookup _ _ _ _ _ _ _ _ _ Eln Hexp E1)
        as [(-> & ->) | [(Hi & Hne & Eold) | [(Hi & _ & mv & ->) | (Hi & ->)]]];
        try contradiction.
      rewrite (Hcnt i x1 Eold Hne2). f_equal.
      symmetry. apply sum_visits_same. intros c Hin.
      destruct (inv_children h Hinv i x1 c Eold Hin) as (_ & cn & Ecn & _).
      destruct (Hold _ _ Ecn) as (cn' & Ecn' & Hn').
      unfold visits. rewrite Ecn, Ecn'. assumption.
    + exact (Hcnt i x1 E1 Hne2).
Qed.

Lemma passes_count state (a : MCTSplayer) (h : heap) k a' h' :
  loop_inv 0 h -> shape_inv h -> count_inv h ->
  passes state a h k a' h' -> count_inv h'.
Proof.
  intros Hinit Hsh Hcnt. induction 1 as [|k a1 h1 a2 h2 Hp IH Hpass]; [assumption|].
  eapply pass_count; [| |exact IH|exact Hpass].
  - eapply passes_loop_inv; eassumption.
  - eapply passes_shape; eassumption.
Qed.

(** X7. After any number of passes of the search loop, the visit count of
    every node that has children is one more than the visit counts of its
    children added up: a node is visited once when it is expanded, and from
    then on exactly when one of its children is. *)
Theorem visits_add_up (a : MCTSplayer) state :
  who a = black \/ who a = white ->
  forall k, exists f0 a' h',
    (forall fuel, f0 <= fuel ->
       (h ← new_root a; iterations fuel k state (a, h)) = Ret (a', h')) /\
    forall i nd, h' !! i = Some nd -> children nd <> [] ->
      n nd = (1 + sum_visits h' (children nd))%Z.
Proof.
  intros Hwho k.
  destruct (search_passes a state Hwho) as (h0 & E0 & Hinit & Hrun).
  destruct (new_root_shape a h0 E0) as (Hsh0 & _).
  destruct (Hrun k) as (f0 & a' & h' & Erun & Hp & _).
  exists f0, a', h'. split; [assumption|].
  apply (passes_count state a h0 k a' h' Hinit Hsh0); [|assumption].
  intros i nd E Hne. rewrite (loop_fresh _ _ Hinit eq_refl _ _ E) in Hne.
  contradiction.
Qed.

End CountFacts.

(** ** The options of an agent *)

Module MetaFacts.
Import Meta.

Lemma append_cons c (s t : string) : String c s +:+ t = String c (s +:+ t).
Proof. reflexivity. Qed.

Lemma append_nil_l (t : string) : EmptyString +:+ t = t.
Proof. reflexivity. Qed.

Lemma append_nil_r (s : string) : s +:+ EmptyString = s.
Proof.
  induction s as [|c s IH]; [reflexivity|]. rewrite append_cons, IH. reflexivity.
Qed.

Lemma append_assoc (s1 s2 s3 : string) : (s1 +:+ s2) +:+ s3 = s1 +:+ (s2 +:+ s3).
Proof.
  induction s1 as [|c s1 IH]; [reflexivity|]. rewrite !append_cons, IH. reflexivity.
Qed.

Lemma length_append (s1 s2 : string) :
  String.length (s1 +:+ s2) = String.length s1 + String.length s2.
Proof.
  induction s1 as [|c s1 IH]; [reflexivity|].
  rewrite append_cons. simpl. rewrite IH. reflexivity.
Qed.

Lemma find_char_app_none c k s :
  find_char c k = None ->
  find_char c (k +:+ s) = (fun i => String.length k + i) <$> find_char c s.
Proof.
  induction k as [|c' k IH].
  - intros _. rewrite append_nil_l. destruct (find_char c s); reflexivity.
  - rewrite append_cons. simpl. destruct (Ascii.eqb c' c); [discriminate|].
    destruct (find_char c k) eqn:Ek; [discriminate|]. intros _.
    rewrite IH by reflexivity. destruct (find_char c s); reflexivity.
Qed.

Lemma find_char_sep k v :
  find_char "=" k = None -> find_char "=" (k +:+ "=" +:+ v) = Some (String.length k).
Proof.
  intros Hk. rewrite find_char_app_none by assumption.
  rewrite append_cons. simpl. f_equal. lia.
Qed.

Lemma substring_all s : substring 0 (String.length s) s = s.
Proof. induction s as [|c s IH]; simpl; [reflexivity | rewrite IH; reflexivity]. Qed.

Lemma substring_prefix k s : substring 0 (String.length k) (k +:+ s) = k.
Proof.
  induction k as [|c k IH].
  - rewrite append_nil_l. destruct s; reflexivity.
  - rewrite append_cons. simpl. rewrite IH. reflexivity.
Qed.

Lemma substring_suffix k s :
  substring (String.length k) (String.length s) (k +:+ s) = s.
Proof.
  induction k as [|c k IH].
  - rewrite append_nil_l. apply substring_all.
  - rewrite append_cons. simpl. exact IH.
Qed.

Lemma pair_split k v :
  find_char "=" k = None ->
  pair_key (k +:+ "=" +:+ v) = k /\ pair_value (k +:+ "=" +:+ v) = v.
Proof.
  intros Hk. unfold pair_key, pair_value. rewrite (find_char_sep k v Hk). split.
  - apply substring_prefix.
  - rewrite <- append_assoc. rewrite length_append.
    replace (S (String.length k)) with (String.length (k +:+ "="))
      by (rewrite length_append; simpl; lia).
    replace (String.length (k +:+ "=") + String.length v - String.length (k +:+ "="))
      with (String.length v) by lia.
    apply substring_suffix.
Qed.

Lemma find_char_split c s i :
  find_char c s = Some i ->
  exists k v, s = k +:+ String c v /\ find_char c k = None /\ String.length k = i.
Proof.
  revert i. induction s as [|c' s IH]; intros i; simpl; [discriminate|].
  destruct (Ascii.eqb_spec c' c) as [-> | Hne].
  - intros [= <-]. exists EmptyString, s. auto.
  - destruct (find_char c s) as [j|] eqn:Ej; [|discriminate].
    intros [= <-]. destruct (IH j eq_refl) as (k & v & -> & Hk & Hlen).
    exists (String c' k), v. rewrite append_cons. simpl.
    destruct (Ascii.eqb_spec c' c); [contradiction|].
    rewrite Hk. simpl. auto.
Qed.

(** X11. How a piece [key=value] is split, as the constructor and [notify]
    do it: at its first [=], so a key without [=] and any value come back;
    the two parts of a piece with an [=] give the piece back, and the key
    part holds no [=]; a piece without [=] is its own key and its own
    value. *)
Theorem pair_split_round_trip :
  (forall k v, find_char "=" k = None ->
     pair_key (k +:+ "=" +:+ v) = k /\ pair_value (k +:+ "=" +:+ v) = v) /\
  (forall s, find_char "=" s <> None ->
     pair_key s +:+ "=" +:+ pair_value s = s /\
     find_char "=" (pair_key s) = None) /\
  (forall s, find_char "=" s = None -> pair_key s = s /\ pair_value s = s).
Proof.
  split; [exact pair_split|]. split.
  - intros s Hs. destruct (find_char "=" s) as [i|] eqn:Ei; [|contradiction].
    destruct (find_char_split _ _ _ Ei) as (k & v & -> & Hk & _).
    change (k +:+ String "=" v) with (k +:+ "=" +:+ v).
    destruct (pair_split k v Hk) as [-> ->]. auto.
  - intros s Hs. unfold pair_key, pair_value. rewrite Hs. auto.
Qed.

(** X10. After [notify] of [key=value] (no [=] in the key) [property]
    returns the value for that key, whatever was stored before, and what it
    returned before for every other key; for another key that was not
    stored it still throws. *)
Theorem notify_property_round_trip (meta : gmap string string) k v :
  find_char "=" k = None ->
  property (notify meta (k +:+ "=" +:+ v)) k = Some v /\
  (forall k', k' <> k ->
     property (notify meta (k +:+ "=" +:+ v)) k' = property meta k') /\
  (forall k', meta !! k' = None -> k' <> k ->
     property (notify meta (k +:+ "=" +:+ v)) k' = None).
Proof.
  intros Hk. unfold property, notify, set_pair.
  destruct (pair_split k v Hk) as [-> ->].
  split; [apply lookup_insert_eq|]. split.
  - intros k' Hne. apply lookup_insert_ne. congruence.
  - intros k' Hnone Hne. rewrite lookup_insert_ne by congruence. assumption.
Qed.

Lemma tokens_from_word t : forall cur s,
  no_space t = true -> tokens_from cur (t +:+ s) = tokens_from (cur +:+ t) s.
Proof.
  induction t as [|c t IH]; intros cur s Ht.
  - rewrite append_nil_l, append_nil_r. reflexivity.
  - simpl in Ht. apply andb_true_iff in Ht as [Hc Ht].
    apply negb_true_iff in Hc. rewrite append_cons. simpl. rewrite Hc.
    rewrite IH by assumption. rewrite append_assoc. reflexivity.
Qed.

Lemma tokens_from_end cur : cur <> EmptyString -> tokens_from cur EmptyString = [cur].
Proof. destruct cur; [contradiction | reflexivity]. Qed.

Lemma tokens_from_blank cur s :
  cur <> EmptyString -> tokens_from cur (" " +:+ s) = cur :: tokens s.
Proof. destruct cur; [contradiction | reflexivity]. Qed.

(** X12. The constructor reads an argument string piece by piece: pieces
    that are not empty and hold no white space, written with one blank
    between them, are read back as they are, in order. *)
Theorem tokens_unwords ts : Forall word ts -> tokens (unwords ts) = ts.
Proof.
  induction 1 as [|t ts [Hne Hns] Hall IH]; [reflexivity|].
  unfold tokens. destruct ts as [|t' ts].
  - simpl. rewrite <- (append_nil_r t) at 1.
    rewrite tokens_from_word by assumption. rewrite append_nil_l.
    apply tokens_from_end. assumption.
  - change (unwords (t :: t' :: ts)) with (t +:+ " " +:+ unwords (t' :: ts)).
    rewrite tokens_from_word by assumption. rewrite append_nil_l.
    rewrite tokens_from_blank by assumption. rewrite IH. reflexivity.
Qed.

Lemma fold_set_pair_lookup ts : forall (m : gmap string string) k,
  foldl set_pair m ts !! k =
    match last_setting k ts with
    | Some t => Some (pair_value t)
    | None => m !! k
    end.
Proof.
  induction ts as [|t ts IH]; intros m k; [reflexivity|].
  simpl. rewrite IH. unfold last_setting. rewrite filter_cons.
  destruct (decide (pair_key t = k)) as [Hk | Hk].
  - rewrite last_cons. destruct (last (filter _ ts)); [reflexivity|].
    unfold set_pair. rewrite Hk. apply lookup_insert_eq.
  - destruct (last (filter _ ts)); [reflexivity|].
    unfold set_pair. apply lookup_insert_ne. assumption.
Qed.

Lemma agent_new_fold args :
  agent_new args =
    foldl set_pair (<["role" := "unknown"]> (<["name" := "unknown"]> ∅)) (tokens args).
Proof. reflexivity. Qed.

Lemma agent_new_player_fold args :
  agent_new ("name=random role=unknown " +:+ args) =
    foldl set_pair
      (<["role" := "unknown"]> (<["name" := "random"]>
         (<["role" := "unknown"]> (<["name" := "unknown"]> ∅))))
      (tokens args).
Proof. reflexivity. Qed.

(** X9. What the constructor of [agent] stores: for every key the value of
    the last piece of the argument string that sets it; [unknown] for
    [name] and [role] when no piece sets them; nothing for any other key
    that no piece sets, so [property] throws for it. *)
Theorem agent_new_last_setting_wins args k :
  property (agent_new args) k =
    match setting k args with
    | Some v => Some v
    | None => if decide (k = "name" \/ k = "role") then Some "unknown" else None
    end.
Proof.
  unfold property, setting. rewrite agent_new_fold, fold_set_pair_lookup.
  destruct (last_setting k (tokens args)); [reflexivity|]. simpl.
  destruct (decide (k = "role")) as [-> | Hr]; [reflexivity|].
  rewrite lookup_insert_ne by congruence.
  destruct (decide (k = "name")) as [-> | Hn]; [reflexivity|].
  rewrite lookup_insert_ne by congruence. rewrite lookup_empty.
  destruct (decide _) as [[?|?]|?]; congruence.
Qed.

(** The options of a player: as for [agent], with [random] for the name. *)
Lemma player_meta_lookup args k :
  agent_new ("name=random role=unknown " +:+ args) !! k =
    match setting k args with
    | Some v => Some v
    | None =>
        if decide (k = "name") then Some "random"
        else if decide (k = "role") then Some "unknown" else None
    end.
Proof.
  unfold setting. rewrite agent_new_player_fold, fold_set_pair_lookup.
  destruct (last_setting k (tokens args)); [reflexivity|]. simpl.
  destruct (decide (k = "name")) as [-> | Hn]; [reflexivity|].
  destruct (decide (k = "role")) as [-> | Hr]; [reflexivity|].
  rewrite !lookup_insert_ne by congruence. apply lookup_empty.
Qed.

End MetaFacts.

(** ** The random player *)

Section PlayerFacts.
Context `{PlayerAPI} `{!GameLaws}.

Lemma first_legal_none moves state :
  first_legal moves state = None <->
  Forall (fun mv => apply_legal mv state = false) moves.
Proof.
  induction moves as [|mv rest IH]; simpl.
  - split; [constructor | reflexivity].
  - destruct (apply_legal mv state) eqn:E.
    + split; [discriminate|]. intros Hall. inversion Hall; congruence.
    + rewrite IH. split; [constructor; assumption|].
      intros Hall. inversion Hall; assumption.
Qed.

Lemma first_legal_some moves state mv :
  first_legal moves state = Some mv ->
  exists l1 l2, moves = l1 ++ mv :: l2 /\
    Forall (fun m => apply_legal m state = false) l1 /\
    apply_legal mv state = true.
Proof.
  induction moves as [|m rest IH]; simpl; [discriminate|].
  destruct (apply_legal m state) eqn:E.
  - intros [= <-]. exists [], rest. split; [reflexivity|]. split; [constructor | assumption].
  - intros Hf. destruct (IH Hf) as (l1 & l2 & -> & Hall & Hmv).
    exists (m :: l1), l2. split; [reflexivity|]. split; [constructor|]; assumption.
Qed.

(** X8. [player::take_action] reorders the candidates and keeps the side.
    When no candidate applies legally to the board it returns [action()];
    otherwise it returns one of the player's candidates that applies
    legally, namely the first such in the new order. *)
Theorem player_take_action_first_legal (p : player) state :
  player_space (player_take_action p state).2 ≡ₚ player_space p /\
  player_who (player_take_action p state).2 = player_who p /\
  ((Forall (fun mv => apply_legal mv state = false) (player_space p) /\
    (player_take_action p state).1 = no_action) \/
   (exists l1 mv l2,
      player_space (player_take_action p state).2 = l1 ++ mv :: l2 /\
      Forall (fun m => apply_legal m state = false) l1 /\
      apply_legal mv state = true /\ mv ∈ player_space p /\
      (player_take_action p state).1 = as_action mv)).
Proof.
  unfold player_take_action.
  pose proof (shuffle_perm (player_space p) (player_rng p)) as Hperm.
  destruct (shuffle (player_space p) (player_rng p)) as [sp g]. simpl in *.
  split; [assumption|]. split; [reflexivity|].
  destruct (first_legal sp state) as [mv|] eqn:Ef.
  - right. destruct (first_legal_some _ _ _ Ef) as (l1 & l2 & -> & Hall & Hmv).
    exists l1, mv, l2. repeat split; try assumption.
    rewrite <- Hperm. apply elem_of_app. right. apply elem_of_cons. auto.
  - left. apply first_legal_none in Ef. rewrite <- Hperm. auto.
Qed.

End PlayerFacts.

(** ** Construction from the argument string *)

Section ConstructionFacts.
Context `{PlayerAPI}.
Import Meta.

Lemma number_of_setting args key r :
  number_of (agent_new ("name=random role=unknown " +:+ args)) key = Some r ->
  key <> "name" -> key <> "role" ->
  match setting key args with
  | Some s => exists z, stod_int s = Some z /\ r = Some z
  | None => r = None
  end.
Proof.
  unfold number_of. rewrite MetaFacts.player_meta_lookup. intros E Hn Hr.
  destruct (setting key args) as [s|].
  - destruct (stod_int s) as [z|]; [|discriminate]. injection E as <-. eauto.
  - rewrite !decide_False in E by assumption. congruence.
Qed.

Lemma player_name_role args :
  name (agent_new ("name=random role=unknown " +:+ args))
    = Some (default "random" (setting "name" args)) /\
  role (agent_new ("name=random role=unknown " +:+ args))
    = Some (default "unknown" (setting "role" args)).
Proof.
  unfold name, role, property. rewrite !MetaFacts.player_meta_lookup.
  destruct (setting "name" args), (setting "role" args); auto.
Qed.

(** X13. An [MCTSplayer] constructed from an argument string plays the side
    its last [role] setting names, [black] or [white]; its candidates are
    the placements of that side on every cell, in order; its budget is the
    last [T] setting, 1000 without one; its engine is seeded with the last
    [seed] setting, default-constructed without one; the name, [random]
    unless set, holds none of the characters the constructor refuses.
    Without a [role] setting of [black] or [white] the constructor
    throws. *)
Theorem MCTSplayer_of_args_settings args :
  (forall a : MCTSplayer, MCTSplayer_of_args args = Some a ->
     (setting "role" args = Some "black" /\ who a = black \/
      setting "role" args = Some "white" /\ who a = white) /\
     space a = (fun i => place_of i (who a)) <$> seq 0 board_cells /\
     match setting "T" args with
     | Some s => stod_int s = Some (simulation_times a)
     | None => simulation_times a = 1000%Z
     end /\
     match setting "seed" args with
     | Some s => exists z, stod_int s = Some z /\ rng a = engine_seed z
     | None => rng a = engine_default
     end /\
     find_first_of (default "random" (setting "name" args)) "[]():; " = false) /\
  (setting "role" args <> Some "black" -> setting "role" args <> Some "white" ->
   MCTSplayer_of_args args = None).
Proof.
  unfold MCTSplayer_of_args, options_of.
  destruct (player_name_role args) as [-> ->].
  pose proof (number_of_setting args "seed") as Hseed.
  pose proof (number_of_setting args "T") as HT.
  destruct (number_of _ "seed") as [seed|]; simpl.
  2:{ split; [discriminate | reflexivity]. }
  destruct (number_of _ "T") as [T|]; simpl.
  2:{ split; [discriminate | reflexivity]. }
  specialize (Hseed seed eq_refl ltac:(discriminate) ltac:(discriminate)).
  specialize (HT T eq_refl ltac:(discriminate) ltac:(discriminate)).
  unfold MCTSplayer_new, random_agent. simpl.
  destruct (find_first_of _ _) eqn:Hname.
  { split; [discriminate | reflexivity]. }
  destruct (String.eqb_spec (default "unknown" (setting "role" args)) "white") as [Ew | Ew];
    [|destruct (String.eqb_spec (default "unknown" (setting "role" args)) "black") as [Eb | Eb]].
  - assert (Hrole : setting "role" args = Some "white")
      by (destruct (setting "role" args); simpl in Ew; [congruence | discriminate]).
    split; [|intros _ Hw; contradiction].
    intros a [= <-]. simpl. split; [auto|]. split; [reflexivity|].
    split; [|split; [|reflexivity]].
    + destruct (setting "T" args); [destruct HT as (z & -> & ->); reflexivity | subst; reflexivity].
    + destruct (setting "seed" args); [destruct Hseed as (z & -> & ->); eauto | subst; reflexivity].
  - assert (Hrole : setting "role" args = Some "black")
      by (destruct (setting "role" args); simpl in Eb; [congruence | discriminate]).
    split; [|intros Hb; contradiction].
    intros a [= <-]. simpl. split; [auto|]. split; [reflexivity|].
    split; [|split; [|reflexivity]].
    + destruct (setting "T" args); [destruct HT as (z & -> & ->); reflexivity | subst; reflexivity].
    + destruct (setting "seed" args); [destruct Hseed as (z & -> & ->); eauto | subst; reflexivity].
  - split; [discriminate | reflexivity].
Qed.

(** X14. A [player] constructed from an argument string plays the side its
    last [role] setting names; its candidates are the placements of that
    side on every cell; its engine is seeded with the last [seed] setting;
    a [T] setting is not read, whatever it holds. Without a [role] setting
    of [black] or [white] the constructor throws. *)
Theorem player_of_args_settings args :
  (forall p : player, player_of_args args = Some p ->
     (setting "role" args = Some "black" /\ player_who p = black \/
      setting "role" args = Some "white" /\ player_who p = white) /\
     player_space p = (fun i => place_of i (player_who p)) <$> seq 0 board_cells /\
     match setting "seed" args with
     | Some s => exists z, stod_int s = Some z /\ player_rng p = engine_seed z
     | None => player_rng p = engine_default
     end /\
     find_first_of (default "random" (setting "name" args)) "[]():; " = false) /\
  (setting "role" args <> Some "black" -> setting "role" args <> Some "white" ->
   player_of_args args = None).
Proof.
  unfold player_of_args.
  destruct (player_name_role args) as [-> ->].
  pose proof (number_of_setting args "seed") as Hseed.
  destruct (number_of _ "seed") as [seed|]; simpl.
  2:{ split; [discriminate | reflexivity]. }
  specialize (Hseed seed eq_refl ltac:(discriminate) ltac:(discriminate)).
  unfold player_new, random_agent. simpl.
  destruct (find_first_of _ _) eqn:Hname.
  { split; [discriminate | reflexivity]. }
  destruct (String.eqb_spec (default "unknown" (setting "role" args)) "white") as [Ew | Ew];
    [|destruct (String.eqb_spec (default "unknown" (setting "role" args)) "black") as [Eb | Eb]].
  - assert (Hrole : setting "role" args = Some "white")
      by (destruct (setting "role" args); simpl in Ew; [congruence | discriminate]).
    split; [|intros _ Hw; contradiction].
    intros a [= <-]. simpl. split; [auto|]. split; [reflexivity|].
    split; [|reflexivity].
    destruct (setting "seed" args); [destruct Hseed as (z & -> & ->); eauto | subst; reflexivity].
  - assert (Hrole : setting "role" args = Some "black")
      by (destruct (setting "role" args); simpl in Eb; [congruence | discriminate]).
    split; [|intros Hb; contradiction].
    intros a [= <-]. simpl. split; [auto|]. split; [reflexivity|].
    split; [|reflexivity].
    destruct (setting "seed" args); [destruct Hseed as (z & -> & ->); eauto | subst; reflexivity].
  - split; [discriminate | reflexivity].
Qed.

End ConstructionFacts.

(** ** The further properties at work on the small game *)

Module RowsMore.
Import Rows RowsFacts RowsPlayer Meta MetaFacts.

Lemma three_nodes (x0 x1 x2 : Node) i x :
  [x0; x1; x2] !! i = Some x ->
  (i = 0 /\ x = x0) \/ (i = 1 /\ x = x1) \/ (i = 2 /\ x = x2).
Proof.
  destruct i as [|[|[|i]]]; simpl; intros E; try discriminate;
    injection E as <-; auto.
Qed.

Lemma tree_inv_one_unvisited : tree_inv one_unvisited.
Proof.
  split.
  - exists root3. split; reflexivity.
  - intros i nd ch E Hin.
    destruct (three_nodes _ _ _ _ _ E) as [[-> ->] | [[-> ->] | [-> ->]]];
      simpl in Hin; try (inversion Hin; fail).
    apply elem_of_cons in Hin as [-> | Hin];
      [|apply elem_of_cons in Hin as [-> | Hin]; [|inversion Hin]].
    + split; [lia|]. exists won2. split; reflexivity.
    + split; [lia|]. exists unseen. split; reflexivity.
  - intros i nd p E Hp.
    destruct (three_nodes _ _ _ _ _ E) as [[-> ->] | [[-> ->] | [-> ->]]];
      simpl in Hp; try discriminate; injection Hp as <-; lia.
  - intros i nd E.
    destruct (three_nodes _ _ _ _ _ E) as [[-> ->] | [[-> ->] | [-> ->]]];
      unfold counters_ok; simpl; lia.
  - intros i nd E.
    destruct (three_nodes _ _ _ _ _ E) as [[-> ->] | [[-> ->] | [-> ->]]];
      simpl; auto.
Qed.

Lemma backpropagation_visits_walk_witness :
  exists h',
    backpropagation lopsided (Some 2) 1 = Ret (true, h') /\
    length h' = 3 /\
    h' !! 2 = Some (node (Some 0) [] black (1, black) 2 1) /\
    h' !! 0 = Some (node None [1; 2] white (0, empty) 12 10) /\
    h' !! 1 = Some (node (Some 0) [] black (0, black) 9 9).
Proof.
  destruct (backpropagation_visits_walk lopsided 2 [2; 0] 1)
    as (h' & E & Hlen & Hin & Hout & _).
  - eapply chain_up; [reflexivity | reflexivity |]. eapply chain_top; reflexivity.
  - exists h'. split; [exact E|]. split; [exact Hlen|].
    destruct (Hin 2 lost1) as (x2 & E2 & Hn2 & Hw2 & Hp2 & Hc2 & Hpl2 & Hm2);
      [constructor | reflexivity |].
    destruct (Hin 0 root11) as (x0 & E0 & Hn0 & Hw0 & Hp0 & Hc0 & Hpl0 & Hm0);
      [constructor; constructor | reflexivity |].
    split; [|split].
    + rewrite E2. destruct x2; simpl in *; subst. reflexivity.
    + rewrite E0. destruct x0; simpl in *; subst. reflexivity.
    + apply (Hout 1). intros H1.
      apply elem_of_cons in H1 as [H1 | H1]; [discriminate|].
      apply elem_of_cons in H1 as [H1 | H1]; [discriminate | inversion H1].
Defined.

Lemma select_returns_leaf_and_board_witness :
  exists leaf l ln,
    select one_unvisited start root_ptr = Ret (leaf, replay one_unvisited start l) /\
    one_unvisited !! leaf = Some ln /\ children ln = [] /\
    chain one_unvisited leaf l /\ last l = Some root_ptr.
Proof.
  destruct (select_returns_leaf_and_board one_unvisited root3 start
              tree_inv_one_unvisited eq_refl)
    as (leaf & l & ln & E & El & Hc & Hch & _ & Hl).
  - left. simpl. lia.
  - exists leaf, l, ln. auto.
Defined.

Lemma expand_appends_children_witness :
  exists h1 cs1 a1 h2 cs2 a2,
    expand (player 2) [root0] start 0 = Ret (bool_decide (cs1 = []), a1, h1) /\
    length cs1 = 2 /\
    expand a1 h1 start 0 = Ret (bool_decide (cs1 ++ cs2 = []), a2, h2) /\
    h2 !! 0 = Some (with_children root0 (cs1 ++ cs2)) /\ length cs2 = 2.
Proof.
  destruct (expand_appends_children (player 2) [root0] start 0 root0
              eq_refl (or_intror eq_refl))
    as (h1 & cs1 & a1 & h2 & cs2 & a2 & E1 & _ & Hl1 & E2 & En2 & Hl2).
  exists h1, cs1, a1, h2, cs2, a2. auto.
Defined.

Lemma expand_allocates_every_candidate_witness :
  exists flag a' h' cs,
    expand (player 2) [root0] full 0 = Ret (flag, a', h') /\
    length h' = 3 /\ length cs = 0 /\
    h' !! 0 = Some (with_children root0 cs).
Proof.
  destruct (expand_allocates_every_candidate (player 2) [root0] full 0 root0
              eq_refl (or_intror eq_refl))
    as (flag & a' & h' & cs & E & Hlen & En & Hcs & _).
  - intros i x ch Ex Hin. destruct i as [|i]; simpl in Ex; [|discriminate].
    injection Ex as <-. inversion Hin.
  - exists flag, a', h', cs. auto.
Defined.

Lemma take_action_returns_legal_move_witness :
  exists f0 mv a',
    (forall fuel, f0 <= fuel -> take_action fuel (player 2) start = Ret (Some mv, a')) /\
    mv ∈ [(0, black); (1, black)] /\ (place start mv.1).1 = true.
Proof.
  destruct (take_action_returns_legal_move (player 2) start (or_introl eq_refl))
    as (f0 & act & a' & Erun & _ & Hlegal).
  destruct Hlegal as (mv & -> & Hin & Hl).
  - simpl. lia.
  - intros Hno. inversion Hno as [|? ? Hf _]. discriminate Hf.
  - exists f0, mv, a'. auto.
Defined.

Lemma search_keeps_tree_witness :
  exists f0 a' h',
    (forall fuel, f0 <= fuel ->
       (h ← new_root (player 2); iterations fuel 2 start (player 2, h))
         = Ret (a', h')) /\
    tree_inv h' /\ shape_inv h'.
Proof.
  destruct (search_keeps_tree (player 2) start (or_introl eq_refl) 2)
    as (f0 & a' & h' & rt & E & Ht & Hs & _).
  exists f0, a', h'. auto.
Defined.

Lemma visits_add_up_witness :
  exists f0 a' h',
    (forall fuel, f0 <= fuel ->
       (h ← new_root (player 2); iterations fuel 2 start (player 2, h))
         = Ret (a', h')) /\
    forall i nd, h' !! i = Some nd -> children nd <> [] ->
      n nd = (1 + sum_visits h' (children nd))%Z.
Proof.
  exact (visits_add_up (player 2) start (or_introl eq_refl) 2).
Defined.

Lemma player_take_action_first_legal_witness :
  exists mv,
    apply_legal mv second = true /\
    (player_take_action random_player second).1 = Some mv.
Proof.
  destruct (player_take_action_first_legal random_player second)
    as (_ & _ & [[Hall _] | (l1 & mv & l2 & _ & _ & Hmv & _ & E)]).
  - exfalso. inversion Hall as [|? ? _ Hrest].
    inversion Hrest as [|? ? Hf _]. discriminate Hf.
  - exists mv. split; assumption.
Defined.

Lemma agent_new_last_setting_wins_witness :
  property (agent_new "role=black T=5 role=white") "role" = Some "white" /\
  property (agent_new "role=black T=5 role=white") "name" = Some "unknown" /\
  property (agent_new "role=black T=5 role=white") "seed" = None.
Proof.
  split; [|split].
  - exact (agent_new_last_setting_wins "role=black T=5 role=white" "role").
  - exact (agent_new_last_setting_wins "role=black T=5 role=white" "name").
  - exact (agent_new_last_setting_wins "role=black T=5 role=white" "seed").
Defined.

Lemma notify_property_round_trip_witness :
  property (notify (agent_new "seed=1") "seed=7") "seed" = Some "7" /\
  property (notify (agent_new "seed=1") "seed=7") "role" = Some "unknown".
Proof.
  destruct (notify_property_round_trip (agent_new "seed=1") "seed" "7" eq_refl)
    as (Hk & Hother & _).
  split; [exact Hk|].
  exact (eq_trans (Hother "role" ltac:(discriminate)) eq_refl).
Defined.

Lemma pair_split_round_trip_witness :
  (pair_key "T=100" = "T" /\ pair_value "T=100" = "100") /\
  (pair_key "a==b" +:+ "=" +:+ pair_value "a==b" = "a==b") /\
  (pair_key "mcts" = "mcts" /\ pair_value "mcts" = "mcts").
Proof.
  destruct pair_split_round_trip as (Hjoin & Hsplit & Hplain).
  split; [exact (Hjoin "T" "100" eq_refl)|]. split.
  - apply (Hsplit "a==b"). discriminate.
  - exact (Hplain "mcts" eq_refl).
Defined.

Lemma tokens_unwords_witness :
  tokens "name=mcts role=black T=100" = ["name=mcts"; "role=black"; "T=100"].
Proof.
  apply (tokens_unwords ["name=mcts"; "role=black"; "T=100"]).
  repeat (constructor; [split; [discriminate | reflexivity]|]). constructor.
Defined.

Lemma MCTSplayer_of_args_settings_witness :
  (exists a : MCTSplayer,
     MCTSplayer_of_args "name=mcts role=black T=5 seed=3 role=white" = Some a /\
     who a = white /\ simulation_times a = 5%Z /\ rng a = 3) /\
  MCTSplayer_of_args "name=mcts T=5" = None.
Proof.
  split.
  - destruct (MCTSplayer_of_args "name=mcts role=black T=5 seed=3 role=white")
      as [a|] eqn:E; [|discriminate E].
    destruct (proj1 (MCTSplayer_of_args_settings
                       "name=mcts role=black T=5 seed=3 role=white") a E)
      as ([[Hb _] | [_ Hw]] & _ & HT & (z & Hz & Hrng) & _); [discriminate Hb|].
    exists a. split; [reflexivity|]. split; [exact Hw|].
    injection HT as HT. injection Hz as Hz. subst z. rewrite Hrng. auto.
  - apply (proj2 (MCTSplayer_of_args_settings "name=mcts T=5")); discriminate.
Defined.

Lemma player_of_args_settings_witness :
  (exists p,
     player_of_args "role=white seed=3 T=many" = Some p /\
     player_who p = white /\ player_rng p = 3) /\
  player_of_args "role=red" = None.
Proof.
  split.
  - destruct (player_of_args "role=white seed=3 T=many") as [p|] eqn:E;
      [|discriminate E].
    destruct (proj1 (player_of_args_settings "role=white seed=3 T=many") p E)
      as ([[Hb _] | [_ Hw]] & _ & (z & Hz & Hrng) & _); [discriminate Hb|].
    exists p. split; [reflexivity|]. split; [exact Hw|].
    injection Hz as Hz. subst z. exact Hrng.
  - apply (proj2 (player_of_args_settings "role=red")); discriminate.
Defined.

End RowsMore.
